(** * Apollo Federation: gateway configuration, post-composition key
      validation and the supergraph reader

    A shallow embedding of
    - [gateway-js/src/config.ts] (the configuration predicates),
    - the post-composition validator [keyFieldsSelectInvalidType]
      (federation-js, [composition/validate/postComposition]) and the
      pass [providesFieldsMissingExternal],
    - [query-planner-js/src/composedSchema/buildComposedSchema.ts],
      with the argument coercion and the schema constructor of
      graphql-js that it calls,
    - [RemoteGraphQLDataSource] of gateway-js,
    together with the properties the specification states about them. *)

From Stdlib Require Import Ascii String List Bool Lia.
From stdpp Require Import base option list gmap strings fin_maps pretty.

Set Warnings "-register-all".

Local Open Scope string_scope.
Local Open Scope list_scope.

(** ** JavaScript values used by the sources *)

(** A string-valued JavaScript expression that may be [undefined]
    (a property that is absent, an argument that was not given). *)
Abbreviation JSValue := (option string).
Abbreviation undefined := (@None string) (only parsing).

(** Template-literal interpolation [`${v}`]. *)
Definition interpolate (v : JSValue) : string :=
  match v with
  | Some s => s
  | None => "undefined"
  end.

(** [if (v)] on a string-or-undefined value: the empty string and
    [undefined] are falsy. *)
Definition truthy (v : JSValue) : bool :=
  match v with
  | Some s => negb (String.eqb s "")
  | None => false
  end.

(** [s.startsWith(p)] *)
Definition startsWith (s p : string) : bool := String.prefix p s.

(** ** GraphQL types as graphql-js represents them

    A field's [type] is a reference to the type object itself, so the
    kind of a named type is known at the reference. *)
Inductive TypeKind :=
| ScalarKind | ObjectKind | InterfaceKind | UnionKind | EnumKind | InputObjectKind.

Inductive GraphQLType :=
| GraphQLNamed (kind : TypeKind) (name : string)
| GraphQLList (ofType : GraphQLType)
| GraphQLNonNull (ofType : GraphQLType).

Definition isObjectType (t : GraphQLType) : bool :=
  match t with GraphQLNamed ObjectKind _ => true | _ => false end.
Definition isInterfaceType (t : GraphQLType) : bool :=
  match t with GraphQLNamed InterfaceKind _ => true | _ => false end.
Definition isUnionType (t : GraphQLType) : bool :=
  match t with GraphQLNamed UnionKind _ => true | _ => false end.
Definition isListType (t : GraphQLType) : bool :=
  match t with GraphQLList _ => true | _ => false end.
Definition isNonNullType (t : GraphQLType) : bool :=
  match t with GraphQLNonNull _ => true | _ => false end.

Definition getNullableType (t : GraphQLType) : GraphQLType :=
  match t with GraphQLNonNull t' => t' | _ => t end.

Fixpoint getNamedType (t : GraphQLType) : TypeKind * string :=
  match t with
  | GraphQLNamed k n => (k, n)
  | GraphQLList t' | GraphQLNonNull t' => getNamedType t'
  end.

(** [String(type)]: the SDL spelling of a type reference. *)
Fixpoint printType (t : GraphQLType) : string :=
  match t with
  | GraphQLNamed _ n => n
  | GraphQLList t' => "[" +:+ printType t' +:+ "]"
  | GraphQLNonNull t' => printType t' +:+ "!"
  end.

(** A field selection of a field set ([FieldNode]): its name and its
    sub-selections. *)
Inductive FieldNode :=
| Field (name : string) (selectionSet : list FieldNode).

Definition fieldName (f : FieldNode) : string :=
  match f with Field n _ => n end.

(** [GraphQLError]: the message, the nodes it points at and the
    [extensions.code] when one was attached. *)
Record GraphQLError (Node : Type) := mkGraphQLError {
  message : string;
  nodes : option Node;
  code : option string;
}.
Arguments mkGraphQLError {Node} _ _ _.
Arguments message {Node} _.
Arguments nodes {Node} _.
Arguments code {Node} _.

(** [errorWithCode(code, message, nodes)] of federation-js' utils. *)
Definition errorWithCode {Node} (c msg : string) (n : option Node) : GraphQLError Node :=
  {| message := msg; nodes := n; code := Some c |}.

(** [logServiceAndType(serviceName, typeName, fieldName?)] of
    federation-js' utils, as the validators' messages show it:
    ["[serviceB] Review.product -> "]. *)
Definition logServiceAndType (serviceName typeName : string) (fieldName : option string) : string :=
  "[" +:+ serviceName +:+ "] " +:+ typeName +:+
  match fieldName with
  | Some f => "." +:+ f +:+ " -> "
  | None => " -> "
  end.

(** * gateway-js/src/config.ts *)
Module Config.

(** The value of [experimental_schemaConfigDeliveryEndpoint?: null | string]
    when the property is present. *)
Inductive Endpoint :=
| EndpointUndefined
| EndpointNull
| EndpointString (url : string).

Record ServiceEndpointDefinition := {
  sed_name : string;
  sed_url : option string;
}.

Record ServiceDefinition := {
  sd_name : string;
  sd_url : option string;
  sd_typeDefs : string;
}.

(** A function-valued property; only its presence is observed. *)
Inductive Callback := callback.

(** [GatewayConfig] is a union of interfaces over [GatewayConfigBase];
    structurally, a value is an object on which each of the properties
    below is present ([Some]) or absent ([None]).  ['p' in config] is
    presence of the property. *)
Record GatewayConfig := {
  debug : option bool;
  __exposeQueryPlanExperimental : option bool;
  buildService : option Callback;
  experimental_pollInterval : option nat;
  experimental_autoFragmentization : option bool;
  serviceHealthCheck : option bool;
  experimental_schemaConfigDeliveryEndpoint : option Endpoint;
  serviceList : option (list ServiceEndpointDefinition);
  introspectionHeaders : option (list (string * string));
  federationVersion : option nat;
  experimental_updateServiceDefinitions : option Callback;
  experimental_updateCsdl : option Callback;
  localServiceList : option (list ServiceDefinition);
  csdl : option string;
}.

Definition has {A} (p : option A) : bool :=
  match p with Some _ => true | None => false end.

Definition isLocalConfig (config : GatewayConfig) : bool :=
  has (localServiceList config).

Definition isRemoteConfig (config : GatewayConfig) : bool :=
  has (serviceList config).

Definition isCsdlConfig (config : GatewayConfig) : bool :=
  has (csdl config).

Definition isManuallyManagedConfig (config : GatewayConfig) : bool :=
  has (experimental_updateServiceDefinitions config) ||
  has (experimental_updateCsdl config).

Definition isPrecomposedManagedConfig (config : GatewayConfig) : bool :=
  has (experimental_schemaConfigDeliveryEndpoint config) &&
  match experimental_schemaConfigDeliveryEndpoint config with
  | Some EndpointNull => false
  | _ => true
  end.

Definition isManagedConfig (config : GatewayConfig) : bool :=
  isPrecomposedManagedConfig config ||
  (negb (isRemoteConfig config) &&
   negb (isLocalConfig config) &&
   negb (isCsdlConfig config) &&
   negb (isManuallyManagedConfig config)).

Definition isStaticConfig (config : GatewayConfig) : bool :=
  isLocalConfig config || isCsdlConfig config.

Definition isDynamicConfig (config : GatewayConfig) : bool :=
  isRemoteConfig config ||
  isManagedConfig config ||
  isManuallyManagedConfig config.

(** The six properties the predicates look at. *)
Definition noDistinguishingProperty (config : GatewayConfig) : Prop :=
  localServiceList config = None /\
  csdl config = None /\
  serviceList config = None /\
  experimental_updateServiceDefinitions config = None /\
  experimental_updateCsdl config = None /\
  (experimental_schemaConfigDeliveryEndpoint config = None \/
   experimental_schemaConfigDeliveryEndpoint config = Some EndpointNull).

Definition emptyConfig : GatewayConfig :=
  {| debug := None; __exposeQueryPlanExperimental := None;
     buildService := None; experimental_pollInterval := None;
     experimental_autoFragmentization := None; serviceHealthCheck := None;
     experimental_schemaConfigDeliveryEndpoint := None;
     serviceList := None; introspectionHeaders := None;
     federationVersion := None;
     experimental_updateServiceDefinitions := None;
     experimental_updateCsdl := None;
     localServiceList := None; csdl := None |}.

End Config.

(** * federation-js: post-composition validation of [@key] field sets *)
Module PostComposition.

(** A field of a composed type, as the validator reads it. *)
Record GraphQLField := {
  f_name : string;
  f_type : GraphQLType;
}.

(** [ServiceNameToKeyDirectivesMap]: per service name, the selection
    sets of its [@key] directives; a value may be [undefined]. *)
Definition KeyDirectivesMap := list (string * option (list (list FieldNode))).

(** What [getFederationMetadata(namedType)] returns of a composed type. *)
Record FederationType := {
  serviceName : option string;
  keys : option KeyDirectivesMap;
}.

Record GraphQLNamedType := {
  kind : TypeKind;
  getFields : list (string * GraphQLField);
  getFederationMetadata : option FederationType;
}.

(** [schema.getTypeMap()], in the order [Object.entries] walks it. *)
Record GraphQLSchema := {
  getTypeMap : list (string * GraphQLNamedType);
}.

(** [obj[name]] on an object used as a map. *)
Fixpoint property {A} (name : string) (obj : list (string * A)) : option A :=
  match obj with
  | [] => None
  | (k, v) :: rest => if String.eqb k name then Some v else property name rest
  end.

(** The helpers of [../../utils] that locate the AST node an error points
    at; they are not part of the validator and only feed the [nodes] of
    the errors. *)
Class Utils := {
  ServiceList : Type;
  TypeNode : Type;
  ASTNode : Type;
  findTypeNodeInServiceList : string -> string -> ServiceList -> TypeNode;
  isDirectiveDefinitionNode : TypeNode -> bool;
  findSelectionSetOnNode : TypeNode -> string -> string -> option ASTNode;
  printFieldSet : list FieldNode -> string;
}.

Section Validator.
Context {U : Utils}.

Definition ValidationError := GraphQLError ASTNode.

(** [errors.push(e)] *)
Definition push (errors : list ValidationError) (e : ValidationError) :=
  errors ++ [e].

Definition interfaceOrNonNullInterface (t : GraphQLType) : bool :=
  isInterfaceType t || (isNonNullType t && isInterfaceType (getNullableType t)).

Definition unionOrNonNullUnion (t : GraphQLType) : bool :=
  isUnionType t || (isNonNullType t && isUnionType (getNullableType t)).

(** The body of the innermost loop ([for (const field of selectionSet)]). *)
Definition checkField (serviceList : ServiceList) (typeName : string)
    (allFieldsInType : list (string * GraphQLField)) (serviceName : string)
    (selectionSet : list FieldNode)
    (errors : list ValidationError) (field : FieldNode) : list ValidationError :=
  let name := fieldName field in
  let matchingField := property name allFieldsInType in
  let typeNode := findTypeNodeInServiceList typeName serviceName serviceList in
  let selectionSetNode :=
    if negb (isDirectiveDefinitionNode typeNode)
    then findSelectionSetOnNode typeNode "key" (printFieldSet selectionSet)
    else None in
  match matchingField with
  | None =>
      push errors
        (errorWithCode "KEY_FIELDS_SELECT_INVALID_TYPE"
           (logServiceAndType serviceName typeName None +:+
            "A @key selects " +:+ name +:+ ", but " +:+ typeName +:+ "." +:+ name +:+
            " could not be found")
           selectionSetNode)
  | Some matchingField =>
      let errors :=
        if interfaceOrNonNullInterface (f_type matchingField)
        then push errors
          (errorWithCode "KEY_FIELDS_SELECT_INVALID_TYPE"
             (logServiceAndType serviceName typeName None +:+
              "A @key selects " +:+ typeName +:+ "." +:+ name +:+
              ", which is an interface type. Keys cannot select interfaces.")
             selectionSetNode)
        else errors in
      if unionOrNonNullUnion (f_type matchingField)
      then push errors
        (errorWithCode "KEY_FIELDS_SELECT_INVALID_TYPE"
           (logServiceAndType serviceName typeName None +:+
            "A @key selects " +:+ typeName +:+ "." +:+ name +:+
            ", which is a union type. Keys cannot select union types.")
           selectionSetNode)
      else errors
  end.

(** [for (const [serviceName, selectionSets = []] of Object.entries(keys))] *)
Definition checkService (serviceList : ServiceList) (typeName : string)
    (allFieldsInType : list (string * GraphQLField))
    (errors : list ValidationError)
    (entry : string * option (list (list FieldNode))) : list ValidationError :=
  let '(serviceName, selectionSets) := entry in
  fold_left
    (fun errors selectionSet =>
       fold_left (checkField serviceList typeName allFieldsInType serviceName selectionSet)
         selectionSet errors)
    (default [] selectionSets) errors.

(** [for (const [typeName, namedType] of Object.entries(types))] *)
Definition checkType (serviceList : ServiceList)
    (errors : list ValidationError)
    (entry : string * GraphQLNamedType) : list ValidationError :=
  let '(typeName, namedType) := entry in
  match kind namedType with
  | ObjectKind =>
      match getFederationMetadata namedType with
      | Some typeFederationMetadata =>
          match keys typeFederationMetadata with
          | Some ks =>
              let allFieldsInType := getFields namedType in
              fold_left (checkService serviceList typeName allFieldsInType) ks errors
          | None => errors
          end
      | None => errors
      end
  | _ => errors
  end.

Definition keyFieldsSelectInvalidType (schema : GraphQLSchema)
    (serviceList : ServiceList) : list ValidationError :=
  let errors := [] in
  let types := getTypeMap schema in
  fold_left (checkType serviceList) types errors.

(** *** The occurrences of key fields in the validator's input *)

(** One selected field of one [@key] selection set of one service on
    one object type. *)
Record KeyFieldOccurrence := {
  occ_typeName : string;
  occ_fields : list (string * GraphQLField);
  occ_serviceName : string;
  occ_selectionSet : list FieldNode;
  occ_field : FieldNode;
}.

Definition occurrencesOfType (entry : string * GraphQLNamedType) : list KeyFieldOccurrence :=
  match kind (snd entry), getFederationMetadata (snd entry) ≫= keys with
  | ObjectKind, Some ks =>
      '(serviceName, selectionSets) ← ks;
      selectionSet ← default [] selectionSets;
      field ← selectionSet;
      [ {| occ_typeName := fst entry; occ_fields := getFields (snd entry);
           occ_serviceName := serviceName; occ_selectionSet := selectionSet;
           occ_field := field |} ]
  | _, _ => []
  end.

Definition keyFieldOccurrences (schema : GraphQLSchema) : list KeyFieldOccurrence :=
  entry ← getTypeMap schema; occurrencesOfType entry.

(** The composed type's field an occurrence selects. *)
Definition selectedField (o : KeyFieldOccurrence) : option GraphQLField :=
  property (fieldName (occ_field o)) (occ_fields o).

Definition selectsMissingField (o : KeyFieldOccurrence) : bool :=
  match selectedField o with None => true | Some _ => false end.

(** The type of the selected field, non-null wrapper removed, is
    of the kind [isKind] recognises. *)
Definition selectsFieldOf (isKind : GraphQLType -> bool) (o : KeyFieldOccurrence) : bool :=
  match selectedField o with
  | Some f => isKind (getNullableType (f_type f))
  | None => false
  end.

(** An occurrence the validator is documented to reject, or that
    selects a field the composed type does not have. *)
Definition offending (o : KeyFieldOccurrence) : bool :=
  selectsMissingField o || selectsFieldOf isInterfaceType o || selectsFieldOf isUnionType o.

(** What the loop body reports for one occurrence. *)
Definition reportOf (serviceList : ServiceList) (o : KeyFieldOccurrence)
    : list ValidationError :=
  checkField serviceList (occ_typeName o) (occ_fields o) (occ_serviceName o)
    (occ_selectionSet o) [] (occ_field o).

(** Where the errors of an occurrence point. *)
Definition selectionSetNodeOf (serviceList : ServiceList) (o : KeyFieldOccurrence)
    : option ASTNode :=
  let typeNode := findTypeNodeInServiceList (occ_typeName o) (occ_serviceName o) serviceList in
  if negb (isDirectiveDefinitionNode typeNode)
  then findSelectionSetOnNode typeNode "key" (printFieldSet (occ_selectionSet o))
  else None.

End Validator.
End PostComposition.

(** * query-planner-js: [buildComposedSchema] *)
Module ComposedSchema.

(** ** Directive applications and the values of their arguments *)

(** A value literal of a directive application ([ValueNode]).  The
    literals of numbers, lists and objects and block strings are not
    represented; a variable cannot occur in a type system document. *)
Inductive ValueNode :=
| NullValue
| StringValue (value : string)
| EnumValue (value : string)
| BooleanValue (value : bool).

(** A directive application in the SDL ([DirectiveNode]): its name and
    its argument nodes. *)
Record DirectiveNode := {
  dn_name : string;
  dn_arguments : list (string * ValueNode);
}.

(** The JavaScript values that arguments are coerced to; [undefined]
    is [None] of [option Value]. *)
Inductive Value :=
| VNull
| VString (s : string)
| VBoolean (b : bool)
| VList (items : list Value).

Fixpoint encodeValue (v : Value) : gen_tree (string + bool) :=
  match v with
  | VNull => GenNode 0 []
  | VString s => GenLeaf (inl s)
  | VBoolean b => GenLeaf (inr b)
  | VList items => GenNode 1 (encodeValue <$> items)
  end.

Fixpoint decodeValue (t : gen_tree (string + bool)) : Value :=
  match t with
  | GenLeaf (inl s) => VString s
  | GenLeaf (inr b) => VBoolean b
  | GenNode 0 _ => VNull
  | GenNode _ items => VList (decodeValue <$> items)
  end.

#[export] Instance Value_eq_dec : EqDecision Value.
Proof.
  assert (Hdecoded : forall v, decodeValue (encodeValue v) = v).
  { fix IH 1. intros [| s | b | items]; try reflexivity.
    cbn [encodeValue decodeValue]. f_equal.
    induction items as [| item items IHitems]; [reflexivity |].
    rewrite !fmap_cons, IH, IHitems. reflexivity. }
  intros v1 v2. destruct (decide (encodeValue v1 = encodeValue v2)) as [Heq | Hne].
  - left. rewrite <- (Hdecoded v1), <- (Hdecoded v2), Heq. reflexivity.
  - right. intros Heq. apply Hne. rewrite Heq. reflexivity.
Defined.

#[export] Instance Value_countable : Countable Value.
Proof.
  apply (inj_countable' encodeValue decodeValue).
  fix IH 1. intros [| s | b | items]; try reflexivity.
  cbn [encodeValue decodeValue]. f_equal.
  induction items as [| item items IHitems]; [reflexivity |].
  rewrite !fmap_cons, IH, IHitems. reflexivity.
Defined.

(** The double-quote character of the messages. *)
Definition dquote : string :=
  String (Ascii.Ascii false true false false false true false false) EmptyString.

(** [v === s] for a string literal [s]. *)
Definition strictEquals (v : option Value) (s : string) : bool :=
  match v with
  | Some (VString x) => String.eqb x s
  | _ => false
  end.

(** [xs.join(",")] on strings. *)
Fixpoint joinWithComma (parts : list string) : string :=
  match parts with
  | [] => ""
  | [part] => part
  | part :: rest => part +:+ "," +:+ joinWithComma rest
  end.

(** [String(v)]; in the string of an array, [null] shows as the empty
    string. *)
Fixpoint stringOf (v : Value) : string :=
  match v with
  | VNull => "null"
  | VString s => s
  | VBoolean b => if b then "true" else "false"
  | VList items =>
      joinWithComma
        ((fun item => match item with VNull => "" | _ => stringOf item end) <$> items)
  end.

(** Template-literal interpolation [`${v}`]. *)
Definition interpolateValue (v : option Value) : string :=
  match v with
  | Some v => stringOf v
  | None => "undefined"
  end.

(** [if (v)]: [undefined], [null], the empty string and [false] are
    falsy. *)
Definition truthyValue (v : option Value) : bool :=
  match v with
  | Some (VString s) => negb (String.eqb s "")
  | Some (VBoolean b) => b
  | Some (VList _) => true
  | Some VNull | None => false
  end.

(** [obj[name]] on an object whose properties were assigned in the
    order of the list, and [keyMap(nodes, ...)[name]] on argument
    nodes: of several entries of one name the last one counts. *)
Fixpoint argument {A} (name : string) (args : list (string * A)) : option A :=
  match args with
  | [] => None
  | (k, v) :: rest =>
      match argument name rest with
      | Some later => Some later
      | None => if String.eqb k name then Some v else None
      end
  end.

(** ** Exceptions *)

(** The node a [GraphQLError] points at: the schema definition, a
    directive application or a value literal. *)
Inductive ErrorNode :=
| SchemaDefinitionNode (directives : list DirectiveNode)
| DirectiveErrorNode (node : DirectiveNode)
| ValueErrorNode (node : ValueNode).

(** What a [throw] carries: the [Error] of a failed [assert], a
    [GraphQLError], the [TypeError] of reading the named property of
    [undefined], or the [Error] of a failed [invariant] of graphql-js. *)
Inductive Exception :=
| AssertionError (msg : string)
| GraphQLException (e : GraphQLError ErrorNode)
| TypeError (property : string)
| InvariantError (msg : string).

Inductive Result (A : Type) :=
| Ok (a : A)
| Throw (e : Exception).
Arguments Ok {A} _.
Arguments Throw {A} _.

#[export] Instance Result_ret : MRet Result := fun _ a => Ok a.
#[export] Instance Result_fmap : FMap Result := fun _ _ f m =>
  match m with
  | Ok a => Ok (f a)
  | Throw e => Throw e
  end.
#[export] Instance Result_bind : MBind Result := fun _ _ f m =>
  match m with
  | Ok a => f a
  | Throw e => Throw e
  end.

(** Modelled from the spec: [assert] of [../utilities/assert] is not in
    the sources; a failed assertion throws an error with the message. *)
Definition assert {A} (condition : option A) (msg : string) : Result A :=
  match condition with
  | Some a => Ok a
  | None => Throw (AssertionError msg)
  end.

Definition assertTrue (condition : bool) (msg : string) : Result unit :=
  if condition then Ok tt else Throw (AssertionError msg).

(** A [for ... of] loop whose body may throw. *)
Fixpoint forEach {A} (body : A -> Result unit) (l : list A) : Result unit :=
  match l with
  | [] => Ok tt
  | x :: rest => _ ← body x; forEach body rest
  end.

(** A loop that updates a value it carries along. *)
Fixpoint forEachWith {A S} (body : S -> A -> Result S) (l : list A) (s : S) : Result S :=
  match l with
  | [] => Ok s
  | x :: rest => s' ← body s x; forEachWith body rest s'
  end.

(** A loop that replaces each element by its updated version (the
    source mutates the objects in place). *)
Fixpoint forEachUpdate {A} (body : A -> Result A) (l : list A) : Result (list A) :=
  match l with
  | [] => Ok []
  | x :: rest => x' ← body x; rest' ← forEachUpdate body rest; Ok (x' :: rest')
  end.

(** [l.map(f)] where [f] may throw. *)
Fixpoint mapResult {A B} (f : A -> Result B) (l : list A) : Result (list B) :=
  match l with
  | [] => Ok []
  | x :: rest => y ← f x; ys ← mapResult f rest; Ok (y :: ys)
  end.

(** ** Federation metadata ([./metadata]) *)

Definition FieldSet := list FieldNode.

Record Graph := {
  g_name : option Value;
  g_url : option Value;
}.

(** Modelled from the spec: [MultiMap] of [../utilities/MultiMap] is not
    in the sources; a map from keys to the list of the values added
    under each key, in the order they were added. *)
Definition MultiMap_add `{Countable K} {V} (key : K) (value : V)
    (m : gmap K (list V)) : gmap K (list V) :=
  match m !! key with
  | Some values => <[key := values ++ [value]]> m
  | None => <[key := [value]]> m
  end.

(** [FederationTypeMetadata]: an entity ([isValueType: false]) with the
    name of its owning graph and its keys by graph name, or a value
    type ([isValueType: true]). *)
Inductive FederationTypeMetadata :=
| FederationEntityTypeMetadata (graphName : option Value)
    (keys : gmap (option Value) (list FieldSet))
| FederationValueTypeMetadata.

Definition isEntityTypeMetadata (metadata : FederationTypeMetadata) : bool :=
  match metadata with
  | FederationEntityTypeMetadata _ _ => true
  | FederationValueTypeMetadata => false
  end.

Record FederationFieldMetadata := {
  graphName : option Value;
  requires : option FieldSet;
  provides : option FieldSet;
}.

(** ** The schema object of graphql-js, as far as the code reads it

    A reference to a type is the name of the type; it stands for the
    type of that name in the type map of the schema. *)

(** An argument of a directive or of a field, with the default value
    of its definition when it has one. *)
Record GraphQLArgument := {
  a_name : string;
  a_type : GraphQLType;
  a_defaultValue : option Value;
}.

Record GraphQLDirective := {
  d_name : string;
  d_isRepeatable : bool;
  d_args : list GraphQLArgument;
}.

Record GraphQLField := {
  f_name : string;
  f_type : GraphQLType;
  f_args : list GraphQLArgument;
  f_astNode : option (list DirectiveNode);
  f_federation : option FederationFieldMetadata;
}.

Record GraphQLEnumValue := {
  v_name : string;
  v_astNode : list DirectiveNode;
}.

(** A named type: [t_fields] of an object, interface or input object
    type, [t_interfaces] of an object or interface type, [t_types] the
    members of a union, [t_values] of an enum. *)
Record GraphQLNamedType := {
  t_name : string;
  t_kind : TypeKind;
  t_astNode : option (list DirectiveNode);
  t_fields : list GraphQLField;
  t_interfaces : list string;
  t_types : list string;
  t_values : list GraphQLEnumValue;
  t_federation : option FederationTypeMetadata;
}.

(** [astNode] is the directives on the schema definition, [undefined]
    for a document without one; [typeMap] is in the order
    [Object.values(schema.getTypeMap())] walks it; [queryType],
    [mutationType] and [subscriptionType] are the root types; [graphs]
    is [extensions.federation.graphs]. *)
Record GraphQLSchema := {
  astNode : option (list DirectiveNode);
  directives : list GraphQLDirective;
  typeMap : list GraphQLNamedType;
  queryType : option string;
  mutationType : option string;
  subscriptionType : option string;
  graphs : option (gmap string Graph);
}.

Definition getDirective (schema : GraphQLSchema) (name : string) : option GraphQLDirective :=
  List.find (fun d => String.eqb (d_name d) name) (directives schema).

(** The type a reference stands for. *)
Definition typeNamed (types : list GraphQLNamedType) (name : string)
    : option GraphQLNamedType :=
  List.find (fun t => String.eqb (t_name t) name) types.

Definition getType (schema : GraphQLSchema) (name : string) : option GraphQLNamedType :=
  typeNamed (typeMap schema) name.

Definition introspectionTypes : list string :=
  ["__Schema"; "__Directive"; "__DirectiveLocation"; "__Type"; "__Field";
   "__InputValue"; "__EnumValue"; "__TypeKind"].

Definition isIntrospectionType (type : GraphQLNamedType) : bool :=
  existsb (String.eqb (t_name type)) introspectionTypes.

(** ** Argument coercion: [getArgumentValues] of graphql-js *)

(** [valueFromASTUntyped], the [parseLiteral] of a scalar type that
    the SDL defines. *)
Definition valueFromASTUntyped (valueNode : ValueNode) : Value :=
  match valueNode with
  | NullValue => VNull
  | StringValue value | EnumValue value => VString value
  | BooleanValue value => VBoolean value
  end.

(** [type.parseLiteral(valueNode)] of a leaf type, [None] where it
    throws: an enum takes the enum literals that name one of its
    values; [String] and [ID] take string literals, [Boolean] takes
    boolean literals, and [Int] and [Float] take none of the literals
    represented here; the scalar types of these names are the ones
    graphql-js specifies, whatever the SDL says. *)
Definition parseLiteral (types : list GraphQLNamedType) (kind : TypeKind) (name : string)
    (valueNode : ValueNode) : option Value :=
  match kind with
  | EnumKind =>
      match valueNode with
      | EnumValue value =>
          if existsb (fun enumValue => String.eqb (v_name enumValue) value)
               (from_option t_values [] (typeNamed types name))
          then Some (VString value)
          else None
      | _ => None
      end
  | _ =>
      if String.eqb name "String" || String.eqb name "ID" then
        match valueNode with
        | StringValue value => Some (VString value)
        | _ => None
        end
      else if String.eqb name "Boolean" then
        match valueNode with
        | BooleanValue value => Some (VBoolean value)
        | _ => None
        end
      else if String.eqb name "Int" || String.eqb name "Float" then None
      else Some (valueFromASTUntyped valueNode)
  end.

Definition isNullValue (valueNode : ValueNode) : bool :=
  match valueNode with NullValue => true | _ => false end.

(** [valueFromAST(valueNode, type)]: [Ok None] is [undefined], the
    sign of an invalid value.  A literal that is no list is coerced to
    a list of one item. *)
Fixpoint valueFromAST (types : list GraphQLNamedType) (valueNode : ValueNode)
    (type : GraphQLType) : Result (option Value) :=
  match type with
  | GraphQLNonNull ofType =>
      if isNullValue valueNode then Ok None
      else valueFromAST types valueNode ofType
  | GraphQLList itemType =>
      if isNullValue valueNode then Ok (Some VNull)
      else
        coercedValue ← valueFromAST types valueNode itemType;
        Ok (fmap (M := option) (fun item => VList [item]) coercedValue)
  | GraphQLNamed kind name =>
      if isNullValue valueNode then Ok (Some VNull)
      else
        match kind with
        | InputObjectKind => Ok None
        | ScalarKind | EnumKind => Ok (parseLiteral types kind name valueNode)
        | ObjectKind | InterfaceKind | UnionKind =>
            Throw (InvariantError ("Unexpected input type: " +:+ name))
        end
  end.

(** [JSON.stringify] of a string. *)
Definition hexDigit (n : nat) : string :=
  String.substring n 1 "0123456789abcdef".

Definition escapeChar (c : ascii) : string :=
  let n := nat_of_ascii c in
  if Nat.eqb n 34 then "\" +:+ dquote
  else if Nat.eqb n 92 then "\\"
  else if Nat.eqb n 8 then "\b"
  else if Nat.eqb n 9 then "\t"
  else if Nat.eqb n 10 then "\n"
  else if Nat.eqb n 12 then "\f"
  else if Nat.eqb n 13 then "\r"
  else if Nat.ltb n 32 then "\u00" +:+ hexDigit (n / 16) +:+ hexDigit (n mod 16)
  else String c EmptyString.

Fixpoint escapeString (s : string) : string :=
  match s with
  | EmptyString => ""
  | String c rest => escapeChar c +:+ escapeString rest
  end.

(** [print(valueNode)] *)
Definition printValue (valueNode : ValueNode) : string :=
  match valueNode with
  | NullValue => "null"
  | StringValue value => dquote +:+ escapeString value +:+ dquote
  | EnumValue value => value
  | BooleanValue value => if value then "true" else "false"
  end.

Definition coercionError (msg : string) (node : ErrorNode) : Exception :=
  GraphQLException {| message := msg; nodes := Some node; code := None |}.

(** The body of [for (const argDef of def.args)] in
    [getArgumentValues]. *)
Definition coerceArgument (types : list GraphQLNamedType) (node : DirectiveNode)
    (coercedValues : list (string * Value)) (argDef : GraphQLArgument)
    : Result (list (string * Value)) :=
  let name := a_name argDef in
  let argType := a_type argDef in
  match argument name (dn_arguments node) with
  | None =>
      match a_defaultValue argDef with
      | Some defaultValue => Ok (coercedValues ++ [(name, defaultValue)])
      | None =>
          if isNonNullType argType
          then Throw (coercionError
                 ("Argument " +:+ dquote +:+ name +:+ dquote +:+ " of required type " +:+
                  dquote +:+ printType argType +:+ dquote +:+ " was not provided.")
                 (DirectiveErrorNode node))
          else Ok coercedValues
      end
  | Some valueNode =>
      if isNullValue valueNode && isNonNullType argType
      then Throw (coercionError
             ("Argument " +:+ dquote +:+ name +:+ dquote +:+ " of non-null type " +:+
              dquote +:+ printType argType +:+ dquote +:+ " must not be null.")
             (ValueErrorNode valueNode))
      else
        coercedValue ← valueFromAST types valueNode argType;
        match coercedValue with
        | None =>
            Throw (coercionError
              ("Argument " +:+ dquote +:+ name +:+ dquote +:+ " has invalid value " +:+
               printValue valueNode +:+ ".")
              (ValueErrorNode valueNode))
        | Some coercedValue => Ok (coercedValues ++ [(name, coercedValue)])
        end
  end.

(** [getArgumentValues(def, node)] of graphql-js: the arguments of the
    application coerced to the types of the definition, in the order
    of the definition; what the application gives besides is ignored.
    [types] is the type map that the references of the argument types
    stand in. *)
Definition getArgumentValues (types : list GraphQLNamedType) (def : GraphQLDirective)
    (node : DirectiveNode) : Result (list (string * Value)) :=
  forEachWith (coerceArgument types node) (d_args def) [].

(** Modelled from the spec: [getArgumentValuesForDirective] of
    [../utilities/graphql] is not in the sources.  It asserts that the
    directive is not repeatable and returns the coerced argument values
    of the first application of the directive on the node, [undefined]
    when the node does not carry the directive. *)
Definition getArgumentValuesForDirective (types : list GraphQLNamedType)
    (directiveDef : GraphQLDirective) (node : list DirectiveNode)
    : Result (option (list (string * Value))) :=
  _ ← assertTrue (negb (d_isRepeatable directiveDef))
        "Use getArgumentValuesForRepeatableDirective for repeatable directives";
  match List.find (fun d => String.eqb (dn_name d) (d_name directiveDef)) node with
  | None => Ok None
  | Some directiveNode =>
      fmap (M := Result) Some (getArgumentValues types directiveDef directiveNode)
  end.

(** Modelled from the spec: [getArgumentValuesForRepeatableDirective]
    of [../utilities/graphql] is not in the sources.  It returns the
    coerced argument values of every application of the directive on
    the node, in order. *)
Definition getArgumentValuesForRepeatableDirective (types : list GraphQLNamedType)
    (directiveDef : GraphQLDirective) (node : list DirectiveNode)
    : Result (list (list (string * Value))) :=
  mapResult (getArgumentValues types directiveDef)
    (List.filter (fun d => String.eqb (dn_name d) (d_name directiveDef)) node).

(** [node.directives] for [schema.astNode!], which is [undefined]
    when the document has no schema definition. *)
Definition directivesOf (node : option (list DirectiveNode)) : Result (list DirectiveNode) :=
  match node with
  | Some directives => Ok directives
  | None => Throw (TypeError "directives")
  end.

(** ** [new GraphQLSchema(config)] of graphql-js *)

(** The types a type refers to, in the order [collectReferencedTypes]
    visits them: the members of a union; the interfaces of an object or
    interface type, then for each field its type and the types of its
    arguments; the types of the fields of an input object. *)
Definition referencedTypes (namedType : GraphQLNamedType) : list string :=
  match t_kind namedType with
  | UnionKind => t_types namedType
  | ObjectKind | InterfaceKind =>
      t_interfaces namedType ++
      (field ← t_fields namedType;
       snd (getNamedType (f_type field)) ::
       ((fun arg => snd (getNamedType (a_type arg))) <$> f_args field))
  | InputObjectKind =>
      (fun field => snd (getNamedType (f_type field))) <$> t_fields namedType
  | ScalarKind | EnumKind => []
  end.

(** [typeSet.has(namedType)]: the types of a schema are told apart by
    their names. *)
Definition typeSet_has (typeSet : list GraphQLNamedType) (namedType : GraphQLNamedType) : bool :=
  existsb (fun t => String.eqb (t_name t) (t_name namedType)) typeSet.

(** [typeSet.delete(namedType)] *)
Definition typeSet_delete (typeSet : list GraphQLNamedType) (namedType : GraphQLNamedType)
    : list GraphQLNamedType :=
  List.filter (fun t => negb (String.eqb (t_name t) (t_name namedType))) typeSet.

(** [collectReferencedTypes(type, typeSet)]: a type that the set does
    not have is added at its end, and then the types it refers to.
    [all] holds the types that references stand for; [fuel] bounds the
    depth of the recursion, which adds a type at each level. *)
Fixpoint collectReferencedTypes (fuel : nat) (all : list GraphQLNamedType)
    (namedType : GraphQLNamedType) (typeSet : list GraphQLNamedType)
    : list GraphQLNamedType :=
  match fuel with
  | 0 => typeSet
  | S fuel' =>
      if typeSet_has typeSet namedType then typeSet
      else
        fold_left
          (fun typeSet reference =>
             match typeNamed all reference with
             | Some referenced => collectReferencedTypes fuel' all referenced typeSet
             | None => typeSet
             end)
          (referencedTypes namedType) (typeSet ++ [namedType])
  end.

(** The same for a reference. *)
Definition collectReference (fuel : nat) (all : list GraphQLNamedType)
    (typeSet : list GraphQLNamedType) (reference : string) : list GraphQLNamedType :=
  match typeNamed all reference with
  | Some referenced => collectReferencedTypes fuel all referenced typeSet
  | None => typeSet
  end.

(** The type map that the constructor builds: the types of the
    configuration, each followed by the types it refers to that the
    configuration does not list, then what the root types, the
    arguments of the directives and [__Schema] refer to besides. *)
Definition collectTypes (all : list GraphQLNamedType) (config : GraphQLSchema)
    : list GraphQLNamedType :=
  let fuel := S (length all) in
  let allReferencedTypes :=
    fold_left
      (fun typeSet type => collectReferencedTypes fuel all type (typeSet_delete typeSet type))
      (typeMap config) (typeMap config) in
  let allReferencedTypes :=
    fold_left (collectReference fuel all)
      (option_list (queryType config) ++ option_list (mutationType config) ++
       option_list (subscriptionType config))
      allReferencedTypes in
  let allReferencedTypes :=
    fold_left (collectReference fuel all)
      (directive ← directives config;
       (fun arg => snd (getNamedType (a_type arg))) <$> d_args directive)
      allReferencedTypes in
  collectReference fuel all allReferencedTypes "__Schema".

(** [new GraphQLSchema(config)], where the references of the
    configuration stand for the types of [all]. *)
Definition newGraphQLSchema (all : list GraphQLNamedType) (config : GraphQLSchema)
    : GraphQLSchema :=
  {| astNode := astNode config;
     directives := directives config;
     typeMap := collectTypes all config;
     queryType := queryType config;
     mutationType := mutationType config;
     subscriptionType := subscriptionType config;
     graphs := graphs config |}.

(** The two functions of graphql-js and of [../utilities/graphql] that
    turn text into structure; both may throw. *)
Class Parser := {
  DocumentNode : Type;
  buildASTSchema : DocumentNode -> Result GraphQLSchema;
  parseFieldSet : option Value -> Result FieldSet;
}.

(** ** [isExported] *)

(** [NamedSchemaElement = GraphQLDirective | GraphQLNamedType] *)
Inductive NamedSchemaElement :=
| DirectiveElement (d : GraphQLDirective)
| TypeElement (t : GraphQLNamedType).

Definition isDirective (element : NamedSchemaElement) : bool :=
  match element with DirectiveElement _ => true | TypeElement _ => false end.

Definition elementName (element : NamedSchemaElement) : string :=
  match element with
  | DirectiveElement d => d_name d
  | TypeElement t => t_name t
  end.

Definition isAssociatedWithFeature (element : NamedSchemaElement) (featureName : string) : bool :=
  (isDirective element && String.eqb (elementName element) featureName) ||
  startsWith (elementName element) (featureName +:+ "__").

Definition coreName := "core".
Definition joinName := "join".

Definition isExported (element : NamedSchemaElement) : bool :=
  negb (isAssociatedWithFeature element coreName || isAssociatedWithFeature element joinName).

(** The name is not one of a type of the [core] or [join] feature. *)
Definition isExportedName (name : string) : bool :=
  negb (startsWith name "core__" || startsWith name "join__").

(** The types that the elements of the API schema refer to: its types,
    the arguments of its directives, and the root types. *)
Definition apiReferences (schema : GraphQLSchema) : list string :=
  (type ← List.filter (fun t => isExported (TypeElement t)) (typeMap schema);
   referencedTypes type) ++
  (directive ← List.filter (fun d => isExported (DirectiveElement d)) (directives schema);
   (fun arg => snd (getNamedType (a_type arg))) <$> d_args directive) ++
  option_list (queryType schema) ++ option_list (mutationType schema) ++
  option_list (subscriptionType schema).

(** No element of the API schema refers to a type of the [core] or
    [join] feature. *)
Definition apiIsClosed (schema : GraphQLSchema) : Prop :=
  Forall (fun name => isExportedName name = true) (apiReferences schema).

(** ** [buildComposedSchema] *)

(** [graphMap.get(v)]: the keys of the map are strings. *)
Definition graphMap_get (graphMap : gmap string Graph) (v : option Value) : option Graph :=
  match v with
  | Some (VString s) => graphMap !! s
  | _ => None
  end.

(** The feature is neither of the two supported ones. *)
Definition isUnsupportedFeature (feature : option Value) : bool :=
  negb (strictEquals feature "https://specs.apollo.dev/core/v0.1" ||
        strictEquals feature "https://specs.apollo.dev/join/v0.1").

(** The error thrown for a [@core] application with these argument
    values. *)
Definition unsupportedFeatureError (schema : GraphQLSchema)
    (coreDirectiveArgs : list (string * Value)) : Exception :=
  GraphQLException
    {| message := "Unsupported core schema feature and/or version: " +:+
                  interpolateValue (argument "feature" coreDirectiveArgs);
       nodes := SchemaDefinitionNode <$> astNode schema;
       code := None |}.

(** A [@core] application that gives a [feature] other than the two
    supported ones. *)
Definition declaresUnsupportedFeature (node : DirectiveNode) : bool :=
  String.eqb (dn_name node) coreName &&
  match argument "feature" (dn_arguments node) with
  | Some valueNode => isUnsupportedFeature (Some (valueFromASTUntyped valueNode))
  | None => false
  end.

(** The value names one of the values of the enum [join__Graph]. *)
Definition namesGraphValue (graphEnumType : GraphQLNamedType) (v : option Value) : bool :=
  match v with
  | Some (VString s) =>
      existsb (fun value => String.eqb (v_name value) s) (t_values graphEnumType)
  | _ => false
  end.

Section BuildComposedSchema.
Context {P : Parser}.

(** The body of [for (const coreDirectiveArgs of coreDirectivesArgs)]. *)
Definition checkFeature (schema : GraphQLSchema)
    (coreDirectiveArgs : list (string * Value)) : Result unit :=
  let feature := argument "feature" coreDirectiveArgs in
  if negb (strictEquals feature "https://specs.apollo.dev/core/v0.1" ||
           strictEquals feature "https://specs.apollo.dev/join/v0.1")
  then Throw (GraphQLException
         {| message := "Unsupported core schema feature and/or version: " +:+
                       interpolateValue feature;
            nodes := SchemaDefinitionNode <$> astNode schema;
            code := None |})
  else Ok tt.

Definition getJoinDirective (schema : GraphQLSchema) (name : string) : Result GraphQLDirective :=
  let fullyQualifiedName := joinName +:+ "__" +:+ name in
  assert (getDirective schema fullyQualifiedName)
    ("Composed schema should define @" +:+ fullyQualifiedName +:+ " directive").

(** The body of [for (const graphValue of graphEnumType.getValues())]. *)
Definition addGraph (schema : GraphQLSchema) (graphEnumType : GraphQLNamedType)
    (graphDirective : GraphQLDirective)
    (graphMap : gmap string Graph) (graphValue : GraphQLEnumValue) : Result (gmap string Graph) :=
  let name := v_name graphValue in
  graphDirectiveArgs ←
    getArgumentValuesForDirective (typeMap schema) graphDirective (v_astNode graphValue);
  graphDirectiveArgs ← assert graphDirectiveArgs
    (t_name graphEnumType +:+ " value " +:+ name +:+
     " in composed schema should have a @" +:+ d_name graphDirective +:+ " directive");
  let graphName := argument "name" graphDirectiveArgs in
  let url := argument "url" graphDirectiveArgs in
  Ok (<[name := {| g_name := graphName; g_url := url |}]> graphMap).

(** The body of [for (const typeDirectiveArgs of typeDirectivesArgs)]. *)
Definition addKey (type : GraphQLNamedType) (typeDirective : GraphQLDirective)
    (graphMap : gmap string Graph) (typeMetadata : FederationTypeMetadata)
    (typeDirectiveArgs : list (string * Value)) : Result FederationTypeMetadata :=
  graph ← assert (graphMap_get graphMap (argument "graph" typeDirectiveArgs))
    ("GraphQL type " +:+ dquote +:+ t_name type +:+ dquote +:+
     " must provide a `graph` argument to the @" +:+ d_name typeDirective +:+ " directive");
  keyFields ← parseFieldSet (argument "key" typeDirectiveArgs);
  match typeMetadata with
  | FederationEntityTypeMetadata owner keys =>
      Ok (FederationEntityTypeMetadata owner (MultiMap_add (g_name graph) keyFields keys))
  | FederationValueTypeMetadata => Throw (TypeError "add")
  end.

(** [if (v) m = parseFieldSet(v)] *)
Definition parseFieldSetIfGiven (v : option Value) : Result (option FieldSet) :=
  if truthyValue v then fs ← parseFieldSet v; Ok (Some fs) else Ok None.

(** The body of [for (const fieldDef of Object.values(type.getFields()))]. *)
Definition processField (schema : GraphQLSchema) (type : GraphQLNamedType)
    (fieldDirective : GraphQLDirective)
    (graphMap : gmap string Graph) (fieldDef : GraphQLField) : Result GraphQLField :=
  fieldAstNode ← assert (f_astNode fieldDef)
    ("Field " +:+ dquote +:+ t_name type +:+ "." +:+ f_name fieldDef +:+ dquote +:+
     " should contain AST nodes");
  fieldDirectiveArgs ←
    getArgumentValuesForDirective (typeMap schema) fieldDirective fieldAstNode;
  match fieldDirectiveArgs with
  | None => Ok fieldDef
  | Some fieldDirectiveArgs =>
      let graphName := graphMap_get graphMap (argument "graph" fieldDirectiveArgs) ≫= g_name in
      requires ← parseFieldSetIfGiven (argument "requires" fieldDirectiveArgs);
      provides ← parseFieldSetIfGiven (argument "provides" fieldDirectiveArgs);
      Ok {| f_name := f_name fieldDef; f_type := f_type fieldDef;
            f_args := f_args fieldDef;
            f_astNode := f_astNode fieldDef;
            f_federation := Some {| graphName := graphName;
                                    requires := requires;
                                    provides := provides |} |}
  end.

(** The body of [for (const type of Object.values(schema.getTypeMap()))]. *)
Definition processType (schema : GraphQLSchema)
    (ownerDirective typeDirective fieldDirective : GraphQLDirective)
    (graphMap : gmap string Graph) (type : GraphQLNamedType) : Result GraphQLNamedType :=
  if isIntrospectionType type then Ok type else
  match t_kind type with
  | ObjectKind =>
      typeAstNode ← assert (t_astNode type)
        ("GraphQL type " +:+ dquote +:+ t_name type +:+ dquote +:+ " should contain AST nodes");
      ownerDirectiveArgs ←
        getArgumentValuesForDirective (typeMap schema) ownerDirective typeAstNode;
      typeMetadata ←
        match ownerDirectiveArgs with
        | Some ownerDirectiveArgs =>
            graph ← assert (graphMap_get graphMap (argument "graph" ownerDirectiveArgs))
              ("@" +:+ d_name ownerDirective +:+ " directive requires a `graph` argument");
            Ok (FederationEntityTypeMetadata (g_name graph) ∅)
        | None => Ok FederationValueTypeMetadata
        end;
      typeDirectivesArgs ←
        getArgumentValuesForRepeatableDirective (typeMap schema) typeDirective typeAstNode;
      _ ← assertTrue
        (isEntityTypeMetadata typeMetadata || Nat.eqb (length typeDirectivesArgs) 0)
        ("GraphQL type " +:+ dquote +:+ t_name type +:+ dquote +:+ " cannot have a @" +:+
         d_name typeDirective +:+ " directive without an @" +:+ d_name ownerDirective +:+
         " directive");
      typeMetadata ← forEachWith (addKey type typeDirective graphMap) typeDirectivesArgs typeMetadata;
      fields ← forEachUpdate (processField schema type fieldDirective graphMap) (t_fields type);
      Ok {| t_name := t_name type; t_kind := t_kind type; t_astNode := t_astNode type;
            t_fields := fields; t_interfaces := t_interfaces type;
            t_types := t_types type; t_values := t_values type;
            t_federation := Some typeMetadata |}
  | _ => Ok type
  end.

Definition isEnumType (type : option GraphQLNamedType) : option GraphQLNamedType :=
  match type with
  | Some t => match t_kind t with EnumKind => Some t | _ => None end
  | None => None
  end.

Definition buildComposedSchema (document : DocumentNode) : Result GraphQLSchema :=
  schema ← buildASTSchema document;
  coreDirective ← assert (getDirective schema coreName)
    "Expected core schema, but can't find @core directive";
  schemaDirectives ← directivesOf (astNode schema);
  coreDirectivesArgs ←
    getArgumentValuesForRepeatableDirective (typeMap schema) coreDirective schemaDirectives;
  _ ← forEach (checkFeature schema) coreDirectivesArgs;
  ownerDirective ← getJoinDirective schema "owner";
  typeDirective ← getJoinDirective schema "type";
  fieldDirective ← getJoinDirective schema "field";
  graphDirective ← getJoinDirective schema "graph";
  graphEnumType ← assert (isEnumType (getType schema (joinName +:+ "__Graph")))
    (joinName +:+ "__Graph should be an enum");
  graphMap ← forEachWith (addGraph schema graphEnumType graphDirective)
               (t_values graphEnumType) ∅;
  types ← forEachUpdate (processType schema ownerDirective typeDirective fieldDirective graphMap)
             (typeMap schema);
  Ok (newGraphQLSchema types
        {| astNode := astNode schema;
           directives := List.filter (fun d => isExported (DirectiveElement d))
                           (directives schema);
           typeMap := List.filter (fun t => isExported (TypeElement t)) types;
           queryType := queryType schema;
           mutationType := mutationType schema;
           subscriptionType := subscriptionType schema;
           graphs := Some graphMap |}).

End BuildComposedSchema.

End ComposedSchema.

(** * The supergraph of the specification and its rendering

    The composer and the supergraph printer are not among the sources;
    this part follows the specification's data model (section 3) and
    its description of the builder (section 4.3). *)
Module Supergraph.
Import ComposedSchema.

(** Modelled from the spec: a row of the graph table, which relates an
    enum value (the stable identifier) to a subgraph name and URL. *)
Record GraphEntry := {
  ge_enumValue : string;
  ge_name : string;
  ge_url : string;
}.

(** Modelled from the spec: the join metadata of an entity, its owner
    subgraph and the key field sets of each subgraph. *)
Record Entity := {
  e_owner : string;
  e_keys : list (string * list FieldSet);
}.

(** Modelled from the spec: a field of an object type of the
    supergraph, with its resolving subgraph and the optional
    [requires] and [provides] field sets. *)
Record SupergraphField := {
  sf_name : string;
  sf_type : GraphQLType;
  sf_graph : string;
  sf_requires : option FieldSet;
  sf_provides : option FieldSet;
}.

(** Modelled from the spec: a type of the supergraph schema.  Object
    types carry join metadata; an object type is an entity or a value
    type.  The other kinds carry their plain structure. *)
Inductive SupergraphType :=
| ObjectTypeDef (name : string) (entity : option Entity) (fields : list SupergraphField)
| OtherTypeDef (name : string) (kind : TypeKind) (fields : list (string * GraphQLType))
    (values : list string).

(** Modelled from the spec: the supergraph, a GraphQL schema plus join
    metadata. *)
Record Supergraph := {
  sg_directives : list GraphQLDirective;
  sg_types : list SupergraphType;
  sg_graphs : list GraphEntry;
}.

Definition typeName (t : SupergraphType) : string :=
  match t with
  | ObjectTypeDef n _ _ => n
  | OtherTypeDef n _ _ _ => n
  end.

(** ** Rendering field sets *)

(** Modelled from the spec: a field set is written in the GraphQL
    selection language, the selections separated by blanks and nested
    selections in braces. *)
Fixpoint printField (f : FieldNode) : string :=
  match f with
  | Field n sels =>
      match sels with
      | [] => n
      | _ => n +:+ " {" +:+
             (fix printAll (l : list FieldNode) : string :=
                match l with
                | [] => ""
                | x :: rest => " " +:+ printField x +:+ printAll rest
                end) sels +:+ " }"
      end
  end.

Fixpoint printFieldSet (fs : FieldSet) : string :=
  match fs with
  | [] => ""
  | [f] => printField f
  | f :: rest => printField f +:+ " " +:+ printFieldSet rest
  end.

(** ** The supergraph builder (specification, section 4.3) *)

(** The enum value that encodes a subgraph.  A subgraph that the table
    does not list is written by its own name. *)
Definition enumValueOf (table : list GraphEntry) (subgraph : string) : string :=
  match List.find (fun e => String.eqb (ge_name e) subgraph) table with
  | Some e => ge_enumValue e
  | None => subgraph
  end.

Definition coreDirectiveNode (feature : string) : DirectiveNode :=
  {| dn_name := "core"; dn_arguments := [("feature", StringValue feature)] |}.

Definition joinGraphNode (e : GraphEntry) : DirectiveNode :=
  {| dn_name := "join__graph";
     dn_arguments := [("name", StringValue (ge_name e)); ("url", StringValue (ge_url e))] |}.

Definition joinOwnerNode (table : list GraphEntry) (owner : string) : DirectiveNode :=
  {| dn_name := "join__owner";
     dn_arguments := [("graph", EnumValue (enumValueOf table owner))] |}.

Definition joinTypeNode (table : list GraphEntry) (subgraph : string) (key : FieldSet)
    : DirectiveNode :=
  {| dn_name := "join__type";
     dn_arguments := [("graph", EnumValue (enumValueOf table subgraph));
                      ("key", StringValue (printFieldSet key))] |}.

Definition optionalArgument (name : string) (fs : option FieldSet)
    : list (string * ValueNode) :=
  match fs with
  | Some fs => [(name, StringValue (printFieldSet fs))]
  | None => []
  end.

Definition joinFieldNode (table : list GraphEntry) (f : SupergraphField) : DirectiveNode :=
  {| dn_name := "join__field";
     dn_arguments := [("graph", EnumValue (enumValueOf table (sf_graph f)))] ++
                     optionalArgument "requires" (sf_requires f) ++
                     optionalArgument "provides" (sf_provides f) |}.


(** Modelled from the spec: [@join__field] is written "when the field's
    owning graph differs from the type's owner or when requires/provides
    are present". *)
Definition emitsJoinField (entity : option Entity) (f : SupergraphField) : bool :=
  match entity with
  | Some e => negb (String.eqb (sf_graph f) (e_owner e))
  | None => true
  end
  || bool_decide (is_Some (sf_requires f))
  || bool_decide (is_Some (sf_provides f)).

Definition buildField (table : list GraphEntry) (entity : option Entity)
    (f : SupergraphField) : GraphQLField :=
  {| f_name := sf_name f; f_type := sf_type f; f_args := [];
     f_astNode := Some (if emitsJoinField entity f then [joinFieldNode table f] else []);
     f_federation := None |}.

(** One [@join__type] per subgraph-key pair. *)
Definition joinTypeNodes (table : list GraphEntry) (keys : list (string * list FieldSet))
    : list DirectiveNode :=
  '(subgraph, fieldSets) ← keys; joinTypeNode table subgraph <$> fieldSets.

Definition entityNodes (table : list GraphEntry) (entity : option Entity) : list DirectiveNode :=
  match entity with
  | Some e => joinOwnerNode table (e_owner e) :: joinTypeNodes table (e_keys e)
  | None => []
  end.

Definition buildType (table : list GraphEntry) (t : SupergraphType) : GraphQLNamedType :=
  match t with
  | ObjectTypeDef name entity fields =>
      {| t_name := name; t_kind := ObjectKind;
         t_astNode := Some (entityNodes table entity);
         t_fields := buildField table entity <$> fields;
         t_interfaces := []; t_types := [];
         t_values := [];
         t_federation := None |}
  | OtherTypeDef name kind fields values =>
      {| t_name := name; t_kind := kind;
         t_astNode := Some [];
         t_fields := (fun '(n, ty) => {| f_name := n; f_type := ty; f_args := [];
                                         f_astNode := Some [];
                                         f_federation := None |}) <$> fields;
         t_interfaces := []; t_types := [];
         t_values := (fun v => {| v_name := v; v_astNode := [] |}) <$> values;
         t_federation := None |}
  end.

(** The enum [join__Graph], one value per subgraph, each carrying
    [@join__graph(name:, url:)]. *)
Definition joinGraphEnum (table : list GraphEntry) : GraphQLNamedType :=
  {| t_name := "join__Graph"; t_kind := EnumKind; t_astNode := Some [];
     t_fields := []; t_interfaces := []; t_types := [];
     t_values := (fun e => {| v_name := ge_enumValue e; v_astNode := [joinGraphNode e] |})
                   <$> table;
     t_federation := None |}.

(** [scalar join__FieldSet] *)
Definition joinFieldSetScalar : GraphQLNamedType :=
  {| t_name := "join__FieldSet"; t_kind := ScalarKind; t_astNode := Some [];
     t_fields := []; t_interfaces := []; t_types := []; t_values := [];
     t_federation := None |}.

Definition argumentOf (name : string) (type : GraphQLType) : GraphQLArgument :=
  {| a_name := name; a_type := type; a_defaultValue := None |}.

Definition graphType : GraphQLType := GraphQLNamed EnumKind "join__Graph".
Definition fieldSetType : GraphQLType := GraphQLNamed ScalarKind "join__FieldSet".
Definition stringType : GraphQLType := GraphQLNamed ScalarKind "String".

(** The definitions of the directives, as the [core] and [join]
    specifications (version 0.1) give them:
    [@core(feature: String!) repeatable],
    [@join__owner(graph: join__Graph!)],
    [@join__type(graph: join__Graph!, key: join__FieldSet) repeatable],
    [@join__field(graph: join__Graph, requires: join__FieldSet,
    provides: join__FieldSet)] and
    [@join__graph(name: String!, url: String!)]. *)
Definition coreDirectiveDef : GraphQLDirective :=
  {| d_name := "core"; d_isRepeatable := true;
     d_args := [argumentOf "feature" (GraphQLNonNull stringType)] |}.

Definition joinOwnerDef : GraphQLDirective :=
  {| d_name := "join__owner"; d_isRepeatable := false;
     d_args := [argumentOf "graph" (GraphQLNonNull graphType)] |}.

Definition joinTypeDef : GraphQLDirective :=
  {| d_name := "join__type"; d_isRepeatable := true;
     d_args := [argumentOf "graph" (GraphQLNonNull graphType);
                argumentOf "key" fieldSetType] |}.

Definition joinFieldDef : GraphQLDirective :=
  {| d_name := "join__field"; d_isRepeatable := false;
     d_args := [argumentOf "graph" graphType;
                argumentOf "requires" fieldSetType;
                argumentOf "provides" fieldSetType] |}.

Definition joinGraphDef : GraphQLDirective :=
  {| d_name := "join__graph"; d_isRepeatable := false;
     d_args := [argumentOf "name" (GraphQLNonNull stringType);
                argumentOf "url" (GraphQLNonNull stringType)] |}.

Definition joinDirectives : list GraphQLDirective :=
  [coreDirectiveDef; joinOwnerDef; joinTypeDef; joinFieldDef; joinGraphDef].

(** The root type of the conventional name, when the supergraph has a
    type of that name. *)
Definition rootType (S : Supergraph) (name : string) : option string :=
  if existsb (fun t => String.eqb (typeName t) name) (sg_types S) then Some name else None.

(** Modelled from the spec: the supergraph builder, whose source is not
    in the repository's files at hand.  The result is the SDL document as
    graphql-js reads it: the [@core] applications on the schema
    definition, the definitions of the [@core] and [@join__*]
    directives, the scalar [join__FieldSet] and the enum [join__Graph],
    and the types of the supergraph with their [@join__owner],
    [@join__type] and [@join__field] applications.  The built-in
    scalar types and the introspection types, which graphql-js adds to
    every type map and which the reader leaves as they are, are left
    out. *)
Definition build (S : Supergraph) : GraphQLSchema :=
  {| astNode := Some [ coreDirectiveNode "https://specs.apollo.dev/core/v0.1";
                       coreDirectiveNode "https://specs.apollo.dev/join/v0.1" ];
     directives := joinDirectives ++ sg_directives S;
     typeMap := joinFieldSetScalar :: joinGraphEnum (sg_graphs S) ::
                (buildType (sg_graphs S) <$> sg_types S);
     queryType := rootType S "Query";
     mutationType := rootType S "Mutation";
     subscriptionType := rootType S "Subscription";
     graphs := None |}.

(** ** Schema structure and join metadata, without the AST *)

Record FieldView := {
  fv_name : string;
  fv_type : GraphQLType;
  fv_federation : option FederationFieldMetadata;
}.

Record TypeView := {
  tv_name : string;
  tv_kind : TypeKind;
  tv_fields : list FieldView;
  tv_values : list string;
  tv_federation : option FederationTypeMetadata;
}.

Record SchemaView := {
  sv_directives : list GraphQLDirective;
  sv_types : list TypeView;
  sv_graphs : option (gmap string Graph);
}.

(** What a schema object holds besides its AST nodes. *)
Definition viewOfField (f : GraphQLField) : FieldView :=
  {| fv_name := f_name f; fv_type := f_type f; fv_federation := f_federation f |}.

Definition viewOfType (t : GraphQLNamedType) : TypeView :=
  {| tv_name := t_name t; tv_kind := t_kind t;
     tv_fields := viewOfField <$> t_fields t;
     tv_values := v_name <$> t_values t;
     tv_federation := t_federation t |}.

Definition viewOfSchema (schema : GraphQLSchema) : SchemaView :=
  {| sv_directives := directives schema;
     sv_types := viewOfType <$> typeMap schema;
     sv_graphs := graphs schema |}.

(** The join metadata of the supergraph in the shape the reader
    attaches it. *)
Definition graphOfEntry (e : GraphEntry) : string * Graph :=
  (ge_enumValue e,
   {| g_name := Some (VString (ge_name e)); g_url := Some (VString (ge_url e)) |}).

Definition graphTable (table : list GraphEntry) : gmap string Graph :=
  list_to_map (graphOfEntry <$> table).

Definition keysOfEntity (e : Entity) : gmap (option Value) (list FieldSet) :=
  list_to_map
    ((fun '(subgraph, fieldSets) => (Some (VString subgraph), fieldSets)) <$> e_keys e).

Definition typeMetadataOf (entity : option Entity) : FederationTypeMetadata :=
  match entity with
  | Some e => FederationEntityTypeMetadata (Some (VString (e_owner e))) (keysOfEntity e)
  | None => FederationValueTypeMetadata
  end.

Definition fieldMetadataOf (f : SupergraphField) : FederationFieldMetadata :=
  {| graphName := Some (VString (sf_graph f));
     requires := sf_requires f;
     provides := sf_provides f |}.

(** The view of a supergraph; [carries entity f] tells whether the
    field [f] of a type with join metadata [entity] has its metadata
    shown. *)
Definition viewOfSupergraphType (carries : option Entity -> SupergraphField -> bool)
    (t : SupergraphType) : TypeView :=
  match t with
  | ObjectTypeDef name entity fields =>
      {| tv_name := name; tv_kind := ObjectKind;
         tv_fields := (fun f => {| fv_name := sf_name f; fv_type := sf_type f;
                                   fv_federation := if carries entity f
                                                    then Some (fieldMetadataOf f)
                                                    else None |}) <$> fields;
         tv_values := [];
         tv_federation := Some (typeMetadataOf entity) |}
  | OtherTypeDef name kind fields values =>
      {| tv_name := name; tv_kind := kind;
         tv_fields := (fun '(n, ty) => {| fv_name := n; fv_type := ty;
                                          fv_federation := None |}) <$> fields;
         tv_values := values;
         tv_federation := None |}
  end.

Definition viewWith (carries : option Entity -> SupergraphField -> bool)
    (S : Supergraph) : SchemaView :=
  {| sv_directives := sg_directives S;
     sv_types := viewOfSupergraphType carries <$> sg_types S;
     sv_graphs := Some (graphTable (sg_graphs S)) |}.

(** The supergraph as the specification's data model has it: every
    field of an object type has a resolving subgraph. *)
Definition viewOfSupergraph : Supergraph -> SchemaView :=
  viewWith (fun _ _ => true).


(** ** Metadata equality *)




(** ** Composed supergraphs *)

Definition subgraphNames (S : Supergraph) : list string := ge_name <$> sg_graphs S.

(** The type refers to a type of the API schema. *)
Definition refersToExported (type : GraphQLType) : Prop :=
  isExportedName (snd (getNamedType type)) = true.

Definition composedEntity (S : Supergraph) (e : Entity) : Prop :=
  e_owner e ∈ subgraphNames S /\
  NoDup (fst <$> e_keys e) /\
  Forall (fun '(subgraph, fieldSets) => subgraph ∈ subgraphNames S /\ fieldSets <> [])
         (e_keys e).

Definition composedType (S : Supergraph) (t : SupergraphType) : Prop :=
  isExported (TypeElement (buildType (sg_graphs S) t)) = true /\
  match t with
  | ObjectTypeDef name entity fields =>
      isIntrospectionType (buildType (sg_graphs S) t) = false /\
      from_option (composedEntity S) True entity /\
      Forall (fun f => sf_graph f ∈ subgraphNames S /\ refersToExported (sf_type f)) fields
  | OtherTypeDef _ kind fields _ =>
      kind <> ObjectKind /\ Forall (fun f => refersToExported (snd f)) fields
  end.

(** What composition guarantees of a supergraph: the graph table is a
    bijection, every subgraph a type or field names is in the table,
    every subgraph listed for an entity has a key, the types have
    distinct names, and no element of the schema bears a name of the
    [core] or [join] feature or refers to a type of these features. *)
Record Composed (S : Supergraph) : Prop := {
  composed_enumValues : NoDup (ge_enumValue <$> sg_graphs S);
  composed_names : NoDup (subgraphNames S);
  composed_directives :
    Forall (fun d => isExported (DirectiveElement d) = true /\
                     Forall (fun arg => refersToExported (a_type arg)) (d_args d))
           (sg_directives S);
  composed_typeNames : NoDup (typeName <$> sg_types S);
  composed_types : Forall (composedType S) (sg_types S);
}.

(** The field sets a supergraph mentions. *)
Definition fieldSetsOfField (f : SupergraphField) : list FieldSet :=
  option_list (sf_requires f) ++ option_list (sf_provides f).

Definition fieldSetsOfType (t : SupergraphType) : list FieldSet :=
  match t with
  | ObjectTypeDef _ entity fields =>
      from_option (fun e => mjoin (snd <$> e_keys e)) [] entity ++
      mjoin (fieldSetsOfField <$> fields)
  | OtherTypeDef _ _ _ _ => []
  end.

Definition fieldSetsOf (S : Supergraph) : list FieldSet :=
  mjoin (fieldSetsOfType <$> sg_types S).

(** The parser reads back a field set from its rendering. *)
Definition Readable {P : Parser} (fs : FieldSet) : Prop :=
  parseFieldSet (Some (VString (printFieldSet fs))) = Ok fs /\ printFieldSet fs <> "".

End Supergraph.

(** * The [providesFieldsMissingExternal] validation pass

    Of this pass the sources hold the tests only; the pass follows the
    specification's table of validation passes. *)
Module Provides.
Import ComposedSchema Supergraph.

(** Modelled from the spec: a field declaration of a subgraph with its
    federation annotations. *)
Record FieldDecl := {
  fd_name : string;
  fd_type : GraphQLType;
  fd_external : bool;
  fd_requires : option FieldSet;
  fd_provides : option FieldSet;
}.

(** Modelled from the spec: the TypeDef record of a subgraph's type
    model. *)
Record TypeDef := {
  td_kind : TypeKind;
  td_fields : list FieldDecl;
  td_keys : list FieldSet;
  td_isExtension : bool;
}.

(** Modelled from the spec: a subgraph, its name, its URL and its
    mapping from type names to TypeDef records. *)
Record Subgraph := {
  sub_name : string;
  sub_url : string;
  sub_types : list (string * TypeDef);
}.

Definition findSubgraph (serviceList : list Subgraph) (name : string) : option Subgraph :=
  List.find (fun s => String.eqb (sub_name s) name) serviceList.

(** The field [typeName.fieldName] is declared [@external] in the
    subgraph [serviceName]. *)
Definition isExternalIn (serviceList : list Subgraph)
    (serviceName typeName fieldName : string) : bool :=
  match findSubgraph serviceList serviceName with
  | Some s =>
      match PostComposition.property typeName (sub_types s) with
      | Some td =>
          existsb (fun fd => String.eqb (fd_name fd) fieldName && fd_external fd) (td_fields td)
      | None => false
      end
  | None => false
  end.

Definition ProvidesError := GraphQLError FieldNode.

(** The error for a provided field that is not external, with the
    message the tests of the pass expect. *)
Definition missingExternal (serviceName typeName field returnType : string)
    (selection : FieldNode) : ProvidesError :=
  errorWithCode "PROVIDES_FIELDS_MISSING_EXTERNAL"
    (logServiceAndType serviceName typeName (Some field) +:+
     "provides the field `" +:+ fieldName selection +:+ "` and requires " +:+
     returnType +:+ "." +:+ fieldName selection +:+ " to be marked as @external.")
    (Some selection).

Definition checkProvidedField (serviceList : list Subgraph) (typeName : string)
    (f : SupergraphField) (selection : FieldNode) : list ProvidesError :=
  let returnType := snd (getNamedType (sf_type f)) in
  if isExternalIn serviceList (sf_graph f) returnType (fieldName selection)
  then []
  else [missingExternal (sf_graph f) typeName (sf_name f) returnType selection].

Definition checkProvides (serviceList : list Subgraph) (typeName : string)
    (f : SupergraphField) : list ProvidesError :=
  selection ← default [] (sf_provides f);
  checkProvidedField serviceList typeName f selection.

Definition checkProvidesOfType (serviceList : list Subgraph) (t : SupergraphType)
    : list ProvidesError :=
  match t with
  | ObjectTypeDef typeName _ fields => f ← fields; checkProvides serviceList typeName f
  | OtherTypeDef _ _ _ _ => []
  end.

(** Modelled from the spec: the pass [providesFieldsMissingExternal],
    whose source is not in the repository's files at hand: "every field
    mentioned in [@provides] is [@external] on the referenced type in
    the providing subgraph".  The providing subgraph is the one that
    resolves the field carrying [@provides]; the referenced type is the
    named type the field returns. *)
Definition providesFieldsMissingExternal (schema : Supergraph)
    (serviceList : list Subgraph) : list ProvidesError :=
  t ← sg_types schema; checkProvidesOfType serviceList t.

(** A field mentioned in a [@provides] of the composed schema: the
    object type and field that carry the directive, and the selection. *)
Definition providedFieldIn (schema : Supergraph) (typeName : string)
    (f : SupergraphField) (selection : FieldNode) : Prop :=
  exists entity fields fs,
    ObjectTypeDef typeName entity fields ∈ sg_types schema /\
    f ∈ fields /\ sf_provides f = Some fs /\ selection ∈ fs.

End Provides.

(** * Key field sets reduced to their root fields *)
Module KeySelections.
Import PostComposition.

(** The root field of a selection, its sub-selections dropped. *)
Definition rootOnly (f : FieldNode) : FieldNode := Field (fieldName f) [].

Definition rootOnlySets (selectionSets : list (list FieldNode)) : list (list FieldNode) :=
  (fun selectionSet : list FieldNode => rootOnly <$> selectionSet) <$> selectionSets.

Definition rootOnlyEntry (entry : string * option (list (list FieldNode)))
    : string * option (list (list FieldNode)) :=
  (fst entry, rootOnlySets <$> snd entry).

Definition rootOnlyType (t : GraphQLNamedType) : GraphQLNamedType :=
  {| kind := kind t;
     getFields := getFields t;
     getFederationMetadata :=
       (fun metadata => {| serviceName := serviceName metadata;
                           keys := (fun ks : KeyDirectivesMap => rootOnlyEntry <$> ks)
                                     <$> keys metadata |})
         <$> getFederationMetadata t |}.

(** The schema with every [@key] selection set reduced to its root
    fields. *)
Definition rootOnlyKeys (schema : GraphQLSchema) : GraphQLSchema :=
  {| getTypeMap := (fun entry => (fst entry, rootOnlyType (snd entry))) <$> getTypeMap schema |}.

Definition rootOnlyOccurrence (o : KeyFieldOccurrence) : KeyFieldOccurrence :=
  {| occ_typeName := occ_typeName o; occ_fields := occ_fields o;
     occ_serviceName := occ_serviceName o;
     occ_selectionSet := rootOnly <$> occ_selectionSet o;
     occ_field := rootOnly (occ_field o) |}.

(** What an error says, without the node it points at. *)
Definition codeAndMessage {Node} (e : GraphQLError Node) : option string * string :=
  (code e, message e).

End KeySelections.

(** * Schema objects without their federation metadata *)
Module SchemaShape.
Import ComposedSchema.

Definition eraseFieldFederation (f : GraphQLField) : GraphQLField :=
  {| f_name := f_name f; f_type := f_type f; f_args := f_args f;
     f_astNode := f_astNode f;
     f_federation := None |}.

(** A type as graphql-js built it: its name, kind, AST node, fields,
    interfaces, members and values, with [extensions.federation] left
    out on the type and on its fields. *)
Definition eraseFederation (t : GraphQLNamedType) : GraphQLNamedType :=
  {| t_name := t_name t; t_kind := t_kind t; t_astNode := t_astNode t;
     t_fields := eraseFieldFederation <$> t_fields t;
     t_interfaces := t_interfaces t; t_types := t_types t;
     t_values := t_values t;
     t_federation := None |}.

(** The coerced arguments of a [@join__type] application as the keys
    loop resolves them: the name of its graph and its parsed key. *)
Definition resolvesTo {P : Parser} (graphMap : gmap string Graph)
    (args : list (string * Value)) (key : option Value * FieldSet) : Prop :=
  exists graph,
    graphMap_get graphMap (argument "graph" args) = Some graph /\
    fst key = g_name graph /\
    parseFieldSet (argument "key" args) = Ok (snd key).

(** The keys recorded under a graph name. *)
Definition keysOf (keys : gmap (option Value) (list FieldSet)) (graph : option Value)
    : list FieldSet :=
  default [] (keys !! graph).

(** The argument is declared with the enum [join__Graph], or with its
    non-null type. *)
Definition isGraphType (type : GraphQLType) : bool :=
  match getNullableType type with
  | GraphQLNamed EnumKind name => String.eqb name "join__Graph"
  | _ => false
  end.

(** The error of graphql-js for an argument whose value its type does
    not have. *)
Definition invalidValueError (name : string) (valueNode : ValueNode) : Exception :=
  coercionError
    ("Argument " +:+ dquote +:+ name +:+ dquote +:+ " has invalid value " +:+
     printValue valueNode +:+ ".")
    (ValueErrorNode valueNode).

(** The first argument of the directive is [graph], declared with the
    enum [join__Graph]. *)
Definition takesGraphFirst (directiveDef : GraphQLDirective) : Prop :=
  exists argDef rest,
    d_args directiveDef = argDef :: rest /\
    a_name argDef = "graph" /\ isGraphType (a_type argDef) = true.

(** The application gives [graph] an enum value that [join__Graph]
    does not have. *)
Definition givesUnknownGraph (graphEnumType : GraphQLNamedType) (node : DirectiveNode)
    (value : string) : Prop :=
  argument "graph" (dn_arguments node) = Some (EnumValue value) /\
  existsb (fun enumValue => String.eqb (v_name enumValue) value) (t_values graphEnumType)
  = false.

(** The first application of the directive on the node. *)
Definition applicationOf (directiveDef : GraphQLDirective) (node : list DirectiveNode)
    : option DirectiveNode :=
  List.find (fun d => String.eqb (dn_name d) (d_name directiveDef)) node.

(** The applications of the directive on the node. *)
Definition applicationsOf (directiveDef : GraphQLDirective) (node : list DirectiveNode)
    : list DirectiveNode :=
  List.filter (fun d => String.eqb (dn_name d) (d_name directiveDef)) node.

(** What coercion throws: a [GraphQLError] about an argument, which
    points at the directive application or at the value of the
    argument, or the failed invariant of an argument type that is no
    input type. *)
Definition isCoercionException (e : Exception) : Prop :=
  (exists msg node, e = coercionError msg (DirectiveErrorNode node)) \/
  (exists msg valueNode, e = coercionError msg (ValueErrorNode valueNode)) \/
  (exists msg, e = InvariantError msg).

(** The names of the types of [all] that the set does not have. *)
Definition uncollected (all typeSet : list GraphQLNamedType) : list string :=
  remove_dups
    (List.filter (fun name => negb (existsb (String.eqb name) (t_name <$> typeSet)))
       (t_name <$> all)).

(** The message of a [GraphQLError]. *)
Definition message_of (e : Exception) : option string :=
  match e with
  | GraphQLException error => Some (message error)
  | _ => None
  end.

End SchemaShape.

(** * gateway-js: [RemoteGraphQLDataSource] *)
Module RemoteDataSource.

(** What the class takes from its environment: the [Headers] of
    apollo-server-env, the values a request carries along, what foreign
    code throws, the state of the network and of the hooks, and
    [createSHA('sha256').update(s).digest('hex')]. *)
Class Env := {
  Headers : Type;
  newHeaders : Headers;
  headers_set : string -> string -> Headers -> Headers;
  headers_get : string -> Headers -> option string;
  Variables : Type;
  Data : Type;
  Foreign : Type;
  World : Type;
  sha256 : string -> string;
}.

Section DataSource.
Context {E : Env}.

(** [request.http] *)
Record HttpRequest := {
  method : string;
  h_url : string;
  headers : Headers;
}.

Inductive ExtensionValue :=
| PersistedQuery (version : nat) (sha256Hash : string)
| OtherExtension (value : string).

Record GraphQLRequest := {
  query : JSValue;
  operationName : JSValue;
  variables : option Variables;
  extensions : option (list (string * ExtensionValue));
  http : option HttpRequest;
}.

Definition withQuery (q : JSValue) (r : GraphQLRequest) : GraphQLRequest :=
  {| query := q; operationName := operationName r; variables := variables r;
     extensions := extensions r; http := http r |}.

Definition withExtensions (x : option (list (string * ExtensionValue))) (r : GraphQLRequest)
    : GraphQLRequest :=
  {| query := query r; operationName := operationName r; variables := variables r;
     extensions := x; http := http r |}.

Definition withHttp (h : option HttpRequest) (r : GraphQLRequest) : GraphQLRequest :=
  {| query := query r; operationName := operationName r; variables := variables r;
     extensions := extensions r; http := h |}.

(** [{...obj, [key]: value}] *)
Fixpoint spreadWith {A} (obj : list (string * A)) (key : string) (value : A)
    : list (string * A) :=
  match obj with
  | [] => [(key, value)]
  | (k, v) :: rest =>
      if String.eqb k key then (k, value) :: rest else (k, v) :: spreadWith rest key value
  end.

Record FormattedError := {
  fe_message : string;
}.

(** A body that was parsed: an object with the fields of a GraphQL
    response, or anything else (a text, a JSON value that is no
    object) with the text a template literal shows for it. *)
Record ResponseObject := {
  ro_errors : option (list FormattedError);
  ro_data : option Data;
}.

Inductive ParsedBody :=
| ObjectBody (o : ResponseObject)
| OtherBody (shown : string).

(** What the class throws: an [Error], one of the errors of
    apollo-server-errors with the response in its extensions, or
    something foreign code threw. *)
Inductive ErrorClass := ApolloErrorClass | AuthenticationErrorClass | ForbiddenErrorClass.

Record ErrorResponse := {
  er_url : string;
  er_status : nat;
  er_statusText : string;
  er_body : ParsedBody;
}.

Inductive Exception :=
| Error (msg : string)
| ApolloError (class : ErrorClass) (msg : string) (response : ErrorResponse)
| Thrown (x : Foreign).

(** The [Response] of a fetch: [json()] may reject. *)
Record Response := {
  ok : bool;
  status : nat;
  statusText : string;
  r_url : string;
  r_headers : Headers;
  json : Exception + ParsedBody;
  text : string;
}.

Record GraphQLResponse := {
  errors : option (list FormattedError);
  data : option Data;
  r_http : option Response;
}.

(** The arguments of a call of the fetcher: [http.url] and
    [{...http, body: requestBody}]. *)
Record FetchCall := {
  fc_url : string;
  fc_method : string;
  fc_headers : Headers;
  fc_body : option string;
}.

(** The state an asynchronous method runs in: the world, and the calls
    of the fetcher made so far. *)
Record State := {
  world : World;
  fetched : list FetchCall;
}.

Definition Effect (A : Type) : Type := World -> (Exception + A) * World.

Definition M (A : Type) : Type := State -> (Exception + A) * State.

Definition ret {A} (a : A) : M A := fun st => (inr a, st).

Definition throw {A} (e : Exception) : M A := fun st => (inl e, st).

(** [await] *)
Definition bind {A B} (m : M A) (k : A -> M B) : M B :=
  fun st =>
    match m st with
    | (inr a, st') => k a st'
    | (inl e, st') => (inl e, st')
    end.

(** [try { m } catch (error) { handler(error) }] *)
Definition tryCatch {A} (m : M A) (handler : Exception -> M A) : M A :=
  fun st =>
    match m st with
    | (inr a, st') => (inr a, st')
    | (inl e, st') => handler e st'
    end.

(** A hook or foreign call, which acts on the world only. *)
Definition lift {A} (f : Effect A) : M A :=
  fun st =>
    let '(r, w) := f (world st) in
    (r, {| world := w; fetched := fetched st |}).

(** [JSON.stringify] and [rewriteURIForGET] of [../utilities/http],
    which returns [{ parseError, newURI }]. *)
Class Codec := {
  stringify : GraphQLRequest -> string;
  rewriteURIForGET : string -> GraphQLRequest -> option Exception * JSValue;
}.

(** An instance of the class: its fields and the hooks a subclass or
    the constructor's [config] may give. *)
Record RemoteGraphQLDataSource := {
  url : string;
  apq : bool;
  useGETForHashedQueries : bool;
  fetcher : FetchCall -> Effect Response;
  willSendRequest : option (GraphQLRequest -> Effect GraphQLRequest);
  didReceiveResponse : option (GraphQLResponse -> GraphQLRequest -> Effect GraphQLResponse);
  didEncounterError : Exception -> Effect unit;
}.

(** [didEncounterError] as the class defines it: [throw error]. *)
Definition defaultDidEncounterError (error : Exception) : Effect unit :=
  fun w => (inl error, w).

Context {C : Codec}.

(** [this.fetcher(http.url, {...http, body})] *)
Definition fetch (this : RemoteGraphQLDataSource) (call : FetchCall) : M Response :=
  fun st =>
    let '(r, w) := fetcher this call (world st) in
    (r, {| world := w; fetched := fetched st ++ [call] |}).

Definition parseBody (fetchResponse : Response) : M ParsedBody :=
  let contentType := headers_get "Content-Type" (r_headers fetchResponse) in
  if truthy contentType && startsWith (default "" contentType) "application/json"
  then match json fetchResponse with
       | inr body => ret body
       | inl e => throw e
       end
  else ret (OtherBody (text fetchResponse)).

Definition errorFromResponse (response : Response) : M Exception :=
  let message := pretty (status response) +:+ ": " +:+ statusText response in
  let class :=
    if Nat.eqb (status response) 401 then AuthenticationErrorClass
    else if Nat.eqb (status response) 403 then ForbiddenErrorClass
    else ApolloErrorClass in
  bind (parseBody response) (fun body =>
  ret (ApolloError class message
         {| er_url := r_url response; er_status := status response;
            er_statusText := statusText response; er_body := body |})).

(** What [sendRequest] gives the fetcher for a request and its [http]:
    the body is the request without [http], for a POST only. *)
Definition fetchCall (request : GraphQLRequest) (http : HttpRequest) : FetchCall :=
  let requestWithoutHttp := withHttp None request in
  let requestBody :=
    if String.eqb (method http) "POST"
    then Some (stringify requestWithoutHttp)
    else None in
  {| fc_url := h_url http; fc_method := method http;
     fc_headers := headers http; fc_body := requestBody |}.

Definition sendRequest (this : RemoteGraphQLDataSource) (request : GraphQLRequest)
    : M GraphQLResponse :=
  match http request with
  | None => throw (Error "Internal error: Only 'http' requests are supported.")
  | Some http =>
      tryCatch
        (bind (fetch this (fetchCall request http))
           (fun fetchResponse =>
         if negb (ok fetchResponse)
         then bind (errorFromResponse fetchResponse) throw
         else
           bind (parseBody fetchResponse) (fun responseBody =>
           match responseBody with
           | ObjectBody o =>
               ret {| errors := ro_errors o; data := ro_data o;
                      r_http := Some fetchResponse |}
           | OtherBody shown =>
               throw (Error ("Expected JSON response body, but received: " +:+ shown))
           end)))
        (fun error =>
           bind (lift (didEncounterError this error)) (fun _ => throw error))
  end.

(** [!response.errors || !response.errors.find(e => e.message ===
    'PersistedQueryNotFound')] *)
Definition persistedQueryNotFound (response : GraphQLResponse) : bool :=
  match errors response with
  | Some errs => existsb (fun e => String.eqb (fe_message e) "PersistedQueryNotFound") errs
  | None => false
  end.

(** The request of the [useGETForHashedQueries] branches: the URI
    rewritten for GET, or the exception of the branch. *)
Definition rewrittenForGET (this : RemoteGraphQLDataSource) (httpRequest : HttpRequest)
    (request : GraphQLRequest) : M GraphQLRequest :=
  let '(parseError, newURI) := rewriteURIForGET (url this) request in
  match parseError with
  | Some e => throw e
  | None =>
      match newURI with
      | Some uri =>
          if truthy newURI
          then ret (withHttp (Some {| method := "GET"; h_url := uri;
                                      headers := headers httpRequest |}) request)
          else throw (Error "Failed to generate persisted query URI from request.")
      | None => throw (Error "Failed to generate persisted query URI from request.")
      end
  end.

Definition respond (this : RemoteGraphQLDataSource) (response : GraphQLResponse)
    (request : GraphQLRequest) : M GraphQLResponse :=
  match didReceiveResponse this with
  | Some hook => lift (hook response request)
  | None => ret response
  end.

(** The request as [process] sets it up before any hook runs: the
    incoming headers are kept, the content type is set. *)
Definition prepare (this : RemoteGraphQLDataSource) (request : GraphQLRequest)
    : GraphQLRequest :=
  let headers' :=
    match http request with
    | Some h => headers h
    | None => newHeaders
    end in
  let headers' := headers_set "Content-Type" "application/json" headers' in
  withHttp (Some {| method := "POST"; h_url := url this; headers := headers' |}) request.

(** [if (this.willSendRequest) await this.willSendRequest(...)]: the
    hook may change the request. *)
Definition announce (this : RemoteGraphQLDataSource) (request : GraphQLRequest)
    : M GraphQLRequest :=
  match willSendRequest this with
  | Some hook => lift (hook request)
  | None => ret request
  end.

Definition process (this : RemoteGraphQLDataSource) (request : GraphQLRequest)
    : M GraphQLResponse :=
  bind (announce this (prepare this request)) (fun request =>
  if negb (truthy (query request)) then throw (Error "Missing query") else
  let apqHash := sha256 (default "" (query request)) in
  let requestWithoutQuery := withQuery None request in
  match http request with
  | None => throw (Error "Missing http on GraphQL request")
  | Some httpRequest =>
      if apq this then
        let requestWithoutQuery :=
          withExtensions
            (Some (spreadWith (default [] (extensions request)) "persistedQuery"
                     (PersistedQuery 1 apqHash)))
            requestWithoutQuery in
        bind (if useGETForHashedQueries this
              then rewrittenForGET this httpRequest requestWithoutQuery
              else ret (withHttp (Some {| method := "GET"; h_url := url this;
                                          headers := headers httpRequest |})
                          requestWithoutQuery)) (fun requestWithoutQuery =>
        bind (sendRequest this requestWithoutQuery) (fun apqOptimisticResponse =>
        if negb (persistedQueryNotFound apqOptimisticResponse)
        then respond this apqOptimisticResponse requestWithoutQuery
        else
          let requestWithQuery := withQuery (query request) requestWithoutQuery in
          bind (if useGETForHashedQueries this
                then rewrittenForGET this httpRequest requestWithQuery
                else ret (withHttp (Some {| method := "POST"; h_url := url this;
                                            headers := headers httpRequest |})
                            requestWithQuery)) (fun requestWithQuery =>
          bind (sendRequest this requestWithQuery) (fun response =>
          respond this response requestWithQuery))))
      else
        let requestWithQuery := withQuery (query request) requestWithoutQuery in
        bind (sendRequest this requestWithQuery) (fun response =>
        respond this response requestWithQuery)
  end).

End DataSource.
End RemoteDataSource.

(** * Sample inputs *)
Module Samples.
Import PostComposition.

(** Service lists as lists of service names; no AST to point at. *)
Definition plainUtils : Utils :=
  {| ServiceList := list string;
     TypeNode := unit;
     ASTNode := unit;
     findTypeNodeInServiceList := fun _ _ _ => tt;
     isDirectiveDefinitionNode := fun _ => false;
     findSelectionSetOnNode := fun _ _ _ => None;
     printFieldSet := fun _ => "" |}.

Definition objectType (service : string) (fields : list (string * GraphQLType))
    (keySets : list (list FieldNode)) : GraphQLNamedType :=
  {| kind := ObjectKind;
     getFields := (fun '(n, t) => (n, {| f_name := n; f_type := t |})) <$> fields;
     getFederationMetadata :=
       Some {| serviceName := Some service; keys := Some [(service, Some keySets)] |} |}.

Definition plainType (k : TypeKind) : GraphQLNamedType :=
  {| kind := k; getFields := []; getFederationMetadata := None |}.

(** [type Product @key(fields: "category") { category: Category }]
    where [Category] is a union (scenario E of the specification). *)
Definition scenarioE : GraphQLSchema :=
  {| getTypeMap :=
       [ ("Product", objectType "products"
                       [("category", GraphQLNamed UnionKind "Category")]
                       [[Field "category" []]]);
         ("Category", plainType UnionKind) ] |}.

(** [type Product @key(fields: "tags") { tags: [String] }] *)
Definition listKey : GraphQLSchema :=
  {| getTypeMap :=
       [ ("Product", objectType "products"
                       [("tags", GraphQLList (GraphQLNamed ScalarKind "String"))]
                       [[Field "tags" []]]);
         ("String", plainType ScalarKind) ] |}.

Definition listKeyOccurrence : KeyFieldOccurrence :=
  {| occ_typeName := "Product";
     occ_fields := [("tags", {| f_name := "tags";
                                f_type := GraphQLList (GraphQLNamed ScalarKind "String") |})];
     occ_serviceName := "products";
     occ_selectionSet := [Field "tags" []];
     occ_field := Field "tags" [] |}.

(** [type Product @key(fields: "sku") { upc: String }] *)
Definition missingKey : GraphQLSchema :=
  {| getTypeMap :=
       [ ("Product", objectType "products"
                       [("upc", GraphQLNamed ScalarKind "String")]
                       [[Field "sku" []]]);
         ("String", plainType ScalarKind) ] |}.

(** Two types with three offending key fields among five:
    [type Product @key(fields: "upc category") @key(fields: "sku")
       { upc: String category: Category! }] and
    [type Review @key(fields: "id node") { id: ID! node: Node }]. *)
Definition severalViolations : GraphQLSchema :=
  {| getTypeMap :=
       [ ("Product", objectType "products"
                       [("upc", GraphQLNamed ScalarKind "String");
                        ("category", GraphQLNonNull (GraphQLNamed UnionKind "Category"))]
                       [[Field "upc" []; Field "category" []]; [Field "sku" []]]);
         ("Category", plainType UnionKind);
         ("Review", objectType "reviews"
                      [("id", GraphQLNonNull (GraphQLNamed ScalarKind "ID"));
                       ("node", GraphQLNamed InterfaceKind "Node")]
                      [[Field "id" []; Field "node" []]]);
         ("Node", plainType InterfaceKind) ] |}.

(** ** A parser for the samples *)
Import ComposedSchema Supergraph Provides.

(** The blank-separated words of a string; [word] is the word being
    read. *)
Fixpoint wordsFrom (s : string) (word : string) : list string :=
  match s with
  | EmptyString => if String.eqb word "" then [] else [word]
  | String c rest =>
      if Ascii.eqb c " "%char
      then (if String.eqb word "" then wordsFrom rest ""
            else word :: wordsFrom rest "")
      else wordsFrom rest (word +:+ String c EmptyString)
  end.

(** Field sets without nested selections: the names in the text of
    the value. *)
Definition parseFlatFieldSet (source : option Value) : Result FieldSet :=
  match wordsFrom (interpolateValue source) "" with
  | [] => Throw (GraphQLException
            {| message := "Syntax Error: Expected Name, found " +:+ dquote +:+ "}" +:+
                          dquote +:+ ".";
               nodes := None; code := None |})
  | names => Ok ((fun n => Field n []) <$> names)
  end.

(** Documents given as the schema graphql-js builds from them. *)
Definition sampleParser : Parser :=
  {| DocumentNode := GraphQLSchema;
     buildASTSchema := Ok;
     parseFieldSet := parseFlatFieldSet |}.

(** ** A supergraph of three subgraphs *)

Definition named (k : TypeKind) (n : string) : GraphQLType := GraphQLNamed k n.

Definition plainField (n : string) (t : GraphQLType) (graph : string) : SupergraphField :=
  {| sf_name := n; sf_type := t; sf_graph := graph;
     sf_requires := None; sf_provides := None |}.

(** [directive @deprecated(reason: String = "No longer supported")] *)
Definition deprecatedDirective : GraphQLDirective :=
  {| d_name := "deprecated"; d_isRepeatable := false;
     d_args := [ {| a_name := "reason"; a_type := named ScalarKind "String";
                    a_defaultValue := Some (VString "No longer supported") |} ] |}.

Definition sampleSupergraph : Supergraph :=
  {| sg_directives := [ deprecatedDirective ];
     sg_graphs :=
       [ {| ge_enumValue := "ACCOUNTS"; ge_name := "accounts"; ge_url := "http://accounts" |};
         {| ge_enumValue := "PRODUCTS"; ge_name := "products"; ge_url := "http://products" |};
         {| ge_enumValue := "REVIEWS"; ge_name := "reviews"; ge_url := "http://reviews" |} ];
     sg_types :=
       [ ObjectTypeDef "Query" None
           [ plainField "topProducts" (GraphQLList (named ObjectKind "Product")) "products" ];
         ObjectTypeDef "Product"
           (Some {| e_owner := "products";
                    e_keys := [ ("products", [[Field "upc" []]; [Field "sku" []; Field "brand" []]]);
                                ("reviews", [[Field "upc" []]]) ] |})
           [ plainField "upc" (GraphQLNonNull (named ScalarKind "ID")) "products";
             plainField "sku" (named ScalarKind "String") "products";
             plainField "brand" (named ScalarKind "String") "products";
             plainField "weight" (named ScalarKind "Int") "products";
             plainField "reviews" (GraphQLList (named ObjectKind "Review")) "reviews";
             {| sf_name := "shippingEstimate"; sf_type := named ScalarKind "Int";
                sf_graph := "products";
                sf_requires := Some [Field "weight" []]; sf_provides := None |} ];
         ObjectTypeDef "Review"
           (Some {| e_owner := "reviews"; e_keys := [ ("reviews", [[Field "id" []]]) ] |})
           [ plainField "id" (GraphQLNonNull (named ScalarKind "ID")) "reviews";
             {| sf_name := "author"; sf_type := named ObjectKind "User";
                sf_graph := "reviews";
                sf_requires := None; sf_provides := Some [Field "username" []] |} ];
         ObjectTypeDef "User"
           (Some {| e_owner := "accounts";
                    e_keys := [ ("accounts", [[Field "id" []]]); ("reviews", [[Field "id" []]]) ] |})
           [ plainField "id" (GraphQLNonNull (named ScalarKind "ID")) "accounts";
             plainField "username" (named ScalarKind "String") "accounts" ];
         OtherTypeDef "Category" EnumKind [] ["BOOK"; "FURNITURE"];
         OtherTypeDef "Node" InterfaceKind [("id", GraphQLNonNull (named ScalarKind "ID"))] [] ] |}.

(** A supergraph in which [@join__field] is written on every field. *)
Definition annotatedSupergraph : Supergraph :=
  {| sg_directives := [];
     sg_graphs :=
       [ {| ge_enumValue := "PRODUCTS"; ge_name := "products"; ge_url := "http://products" |};
         {| ge_enumValue := "REVIEWS"; ge_name := "reviews"; ge_url := "http://reviews" |} ];
     sg_types :=
       [ ObjectTypeDef "Query" None
           [ plainField "topProducts" (GraphQLList (named ObjectKind "Product")) "products" ];
         ObjectTypeDef "Product"
           (Some {| e_owner := "products"; e_keys := [ ("products", [[Field "upc" []]]) ] |})
           [ plainField "reviewCount" (named ScalarKind "Int") "reviews" ] ] |}.

(** A schema with another schema definition. *)
Definition withDefinition (definition : option (list DirectiveNode)) (schema : GraphQLSchema)
    : GraphQLSchema :=
  {| astNode := definition;
     directives := directives schema;
     typeMap := typeMap schema;
     queryType := queryType schema;
     mutationType := mutationType schema;
     subscriptionType := subscriptionType schema;
     graphs := graphs schema |}.

(** The third feature of [unsupportedFeatureDocument]. *)
Definition tagFeature : DirectiveNode :=
  coreDirectiveNode "https://specs.apollo.dev/tag/v0.1".

(** The SDL of [sampleSupergraph] with a third [@core] feature. *)
Definition unsupportedFeatureDocument : GraphQLSchema :=
  withDefinition
    (Some [ coreDirectiveNode "https://specs.apollo.dev/core/v0.1";
            coreDirectiveNode "https://specs.apollo.dev/join/v0.1";
            tagFeature ])
    (build sampleSupergraph).

(** The SDL of [sampleSupergraph] without its schema definition. *)
Definition noSchemaDefinition : GraphQLSchema :=
  withDefinition None (build sampleSupergraph).

(** Composed schemas of one object type. *)
Definition typeWith (name : string) (node : list DirectiveNode) (fields : list GraphQLField)
    : GraphQLNamedType :=
  {| t_name := name; t_kind := ObjectKind; t_astNode := Some node;
     t_fields := fields; t_interfaces := []; t_types := []; t_values := [];
     t_federation := None |}.

Definition fieldOf (name : string) (type : GraphQLType) (node : list DirectiveNode)
    : GraphQLField :=
  {| f_name := name; f_type := type; f_args := []; f_astNode := Some node;
     f_federation := None |}.

Definition fieldWith (name : string) (node : list DirectiveNode) : GraphQLField :=
  fieldOf name (named ScalarKind "String") node.

Definition documentOf (definitions : list GraphQLDirective) (type : GraphQLNamedType)
    : GraphQLSchema :=
  {| astNode := Some [ coreDirectiveNode "https://specs.apollo.dev/core/v0.1";
                       coreDirectiveNode "https://specs.apollo.dev/join/v0.1" ];
     directives := definitions;
     typeMap := [ joinFieldSetScalar; joinGraphEnum (sg_graphs sampleSupergraph); type ];
     queryType := None; mutationType := None; subscriptionType := None;
     graphs := None |}.

(** With the directive definitions of the [join] specification. *)
Definition documentWith : GraphQLNamedType -> GraphQLSchema := documentOf joinDirectives.

Definition directiveNode (name : string) (args : list (string * ValueNode)) : DirectiveNode :=
  {| dn_name := name; dn_arguments := args |}.

(** Documents in which one directive gives [graph] the enum value
    [INVENTORY], which [join__Graph] does not have. *)
Definition unknownOwnerNode : DirectiveNode :=
  directiveNode "join__owner" [("graph", EnumValue "INVENTORY")].

Definition unknownTypeNode : DirectiveNode :=
  directiveNode "join__type" [("graph", EnumValue "INVENTORY"); ("key", StringValue "upc")].

Definition unknownFieldNode : DirectiveNode :=
  directiveNode "join__field"
    [("graph", EnumValue "INVENTORY"); ("requires", StringValue "upc sku")].

Definition productsOwnerNode : DirectiveNode :=
  directiveNode "join__owner" [("graph", EnumValue "PRODUCTS")].

Definition productsTypeNode : DirectiveNode :=
  directiveNode "join__type" [("graph", EnumValue "PRODUCTS"); ("key", StringValue "upc")].

Definition unknownOwnerType : GraphQLNamedType :=
  typeWith "Product" [unknownOwnerNode] [fieldWith "upc" []].

Definition unknownTypeType : GraphQLNamedType :=
  typeWith "Product" [productsOwnerNode; unknownTypeNode] [fieldWith "upc" []].

Definition inStock : GraphQLField := fieldWith "inStock" [unknownFieldNode].

Definition unknownFieldType : GraphQLNamedType :=
  typeWith "Product" [productsOwnerNode; productsTypeNode] [fieldWith "upc" []; inStock].

Definition unknownOwnerGraph : GraphQLSchema := documentWith unknownOwnerType.
Definition unknownTypeGraph : GraphQLSchema := documentWith unknownTypeType.
Definition unknownFieldGraph : GraphQLSchema := documentWith unknownFieldType.

(** Directive definitions that declare [graph] as a [String]:
    [@join__owner(graph: String!)],
    [@join__type(graph: String!, key: join__FieldSet) repeatable] and
    [@join__field(graph: String, requires: join__FieldSet,
    provides: join__FieldSet)]. *)
Definition looseOwnerDef : GraphQLDirective :=
  {| d_name := "join__owner"; d_isRepeatable := false;
     d_args := [argumentOf "graph" (GraphQLNonNull stringType)] |}.

Definition looseTypeDef : GraphQLDirective :=
  {| d_name := "join__type"; d_isRepeatable := true;
     d_args := [argumentOf "graph" (GraphQLNonNull stringType);
                argumentOf "key" fieldSetType] |}.

Definition looseFieldDef : GraphQLDirective :=
  {| d_name := "join__field"; d_isRepeatable := false;
     d_args := [argumentOf "graph" stringType;
                argumentOf "requires" fieldSetType;
                argumentOf "provides" fieldSetType] |}.

Definition looseDirectives : list GraphQLDirective :=
  [coreDirectiveDef; looseOwnerDef; looseTypeDef; looseFieldDef; joinGraphDef].

(** The same applications with the graph given as a string. *)
Definition looseOwnerType : GraphQLNamedType :=
  typeWith "Product" [directiveNode "join__owner" [("graph", StringValue "INVENTORY")]]
    [fieldWith "upc" []].

Definition looseTypeType : GraphQLNamedType :=
  typeWith "Product"
    [directiveNode "join__owner" [("graph", StringValue "PRODUCTS")];
     directiveNode "join__type" [("graph", StringValue "INVENTORY"); ("key", StringValue "upc")]]
    [fieldWith "upc" []].

Definition looseInStock : GraphQLField :=
  fieldWith "inStock"
    [directiveNode "join__field"
       [("graph", StringValue "INVENTORY"); ("requires", StringValue "upc sku")]].

Definition looseFieldType : GraphQLNamedType :=
  typeWith "Product"
    [directiveNode "join__owner" [("graph", StringValue "PRODUCTS")];
     directiveNode "join__type" [("graph", StringValue "PRODUCTS"); ("key", StringValue "upc")]]
    [fieldWith "upc" []; looseInStock].

Definition looseOwnerGraph : GraphQLSchema := documentOf looseDirectives looseOwnerType.
Definition looseTypeGraph : GraphQLSchema := documentOf looseDirectives looseTypeType.
Definition looseFieldGraph : GraphQLSchema := documentOf looseDirectives looseFieldType.

(** [type Query { g: join__Graph }] in a composed schema: a type of
    the API schema that refers to a type of the [join] feature. *)
Definition leakingType : GraphQLNamedType :=
  typeWith "Query" [] [fieldOf "g" graphType []].

Definition leakingDocument : GraphQLSchema :=
  {| astNode := astNode (documentWith leakingType);
     directives := joinDirectives;
     typeMap := typeMap (documentWith leakingType);
     queryType := Some "Query"; mutationType := None; subscriptionType := None;
     graphs := None |}.

(** The graph enum and the graph map of the sample supergraph, and the
    [@join__*] directive definitions. *)
Definition sampleGraphEnum : GraphQLNamedType := joinGraphEnum (sg_graphs sampleSupergraph).
Definition sampleGraphMap : gmap string Graph := graphTable (sg_graphs sampleSupergraph).

(** The type [Product] of a sample document. *)
Definition productOf (document : GraphQLSchema) : GraphQLNamedType :=
  default (joinGraphEnum []) (getType document "Product").

(** ** The inputs of the tests of [providesFieldsMissingExternal] *)

Definition declared (n : string) (t : GraphQLType) (external : bool)
    (provided : option FieldSet) : FieldDecl :=
  {| fd_name := n; fd_type := t; fd_external := external;
     fd_requires := None; fd_provides := provided |}.

Definition keyedType (extension : bool) (key : string) (fields : list FieldDecl) : TypeDef :=
  {| td_kind := ObjectKind; td_fields := fields; td_keys := [[Field key []]];
     td_isExtension := extension |}.

Definition productInServiceA : string * TypeDef :=
  ("Product", keyedType false "sku"
     [ declared "sku" (GraphQLNonNull (named ScalarKind "String")) false None;
       declared "upc" (GraphQLNonNull (named ScalarKind "String")) false None;
       declared "id" (GraphQLNonNull (named ScalarKind "ID")) false None ]).

(** The test "does not warn with proper @provides usage". *)
Definition properProvidesServices : list Subgraph :=
  [ {| sub_name := "serviceA"; sub_url := ""; sub_types := [ productInServiceA ] |};
    {| sub_name := "serviceB"; sub_url := "";
       sub_types :=
         [ ("User", keyedType false "id"
              [ declared "id" (GraphQLNonNull (named ScalarKind "ID")) false None;
                declared "username" (named ScalarKind "String") false None ]) ] |};
    {| sub_name := "serviceC"; sub_url := "";
       sub_types :=
         [ ("Review", keyedType false "id"
              [ declared "id" (GraphQLNonNull (named ScalarKind "ID")) false None;
                declared "product" (named ObjectKind "Product") false (Some [Field "id" []]);
                declared "author" (named ObjectKind "User") false (Some [Field "username" []]) ]);
           ("Product", keyedType true "sku"
              [ declared "sku" (GraphQLNonNull (named ScalarKind "String")) true None;
                declared "id" (GraphQLNonNull (named ScalarKind "ID")) true None;
                declared "price" (GraphQLNonNull (named ScalarKind "Int")) false None ]);
           ("User", keyedType true "id"
              [ declared "id" (GraphQLNonNull (named ScalarKind "ID")) true None;
                declared "username" (named ScalarKind "String") true None ]) ] |} ].

Definition providing (n : string) (t : GraphQLType) (graph : string) (fs : FieldSet)
    : SupergraphField :=
  {| sf_name := n; sf_type := t; sf_graph := graph;
     sf_requires := None; sf_provides := Some fs |}.

Definition composedProduct (extending : string) : SupergraphType :=
  ObjectTypeDef "Product"
    (Some {| e_owner := "serviceA";
             e_keys := [ ("serviceA", [[Field "sku" []]]); (extending, [[Field "sku" []]]) ] |})
    [ plainField "sku" (GraphQLNonNull (named ScalarKind "String")) "serviceA";
      plainField "upc" (GraphQLNonNull (named ScalarKind "String")) "serviceA";
      plainField "id" (GraphQLNonNull (named ScalarKind "ID")) "serviceA";
      plainField "price" (GraphQLNonNull (named ScalarKind "Int")) extending ].

Definition graphEntry (n : string) : GraphEntry :=
  {| ge_enumValue := n; ge_name := n; ge_url := "" |}.

Definition properProvidesSchema : Supergraph :=
  {| sg_directives := [];
     sg_graphs := graphEntry <$> ["serviceA"; "serviceB"; "serviceC"];
     sg_types :=
       [ composedProduct "serviceC";
         ObjectTypeDef "User"
           (Some {| e_owner := "serviceB";
                    e_keys := [ ("serviceB", [[Field "id" []]]); ("serviceC", [[Field "id" []]]) ] |})
           [ plainField "id" (GraphQLNonNull (named ScalarKind "ID")) "serviceB";
             plainField "username" (named ScalarKind "String") "serviceB" ];
         ObjectTypeDef "Review"
           (Some {| e_owner := "serviceC"; e_keys := [ ("serviceC", [[Field "id" []]]) ] |})
           [ plainField "id" (GraphQLNonNull (named ScalarKind "ID")) "serviceC";
             providing "product" (named ObjectKind "Product") "serviceC" [Field "id" []];
             providing "author" (named ObjectKind "User") "serviceC" [Field "username" []] ] ] |}.

(** The test "warns when there is a @provides with no matching
    @external field". *)
Definition missingExternalServices : list Subgraph :=
  [ {| sub_name := "serviceA"; sub_url := ""; sub_types := [ productInServiceA ] |};
    {| sub_name := "serviceB"; sub_url := "";
       sub_types :=
         [ ("Review", keyedType false "id"
              [ declared "id" (GraphQLNonNull (named ScalarKind "ID")) false None;
                declared "product" (named ObjectKind "Product") false (Some [Field "id" []]) ]);
           ("Product", keyedType true "sku"
              [ declared "sku" (GraphQLNonNull (named ScalarKind "String")) true None;
                declared "price" (GraphQLNonNull (named ScalarKind "Int")) false None ]) ] |} ].

Definition reviewProduct : SupergraphField :=
  providing "product" (named ObjectKind "Product") "serviceB" [Field "id" []].

Definition missingExternalSchema : Supergraph :=
  {| sg_directives := [];
     sg_graphs := graphEntry <$> ["serviceA"; "serviceB"];
     sg_types :=
       [ composedProduct "serviceB";
         ObjectTypeDef "Review"
           (Some {| e_owner := "serviceB"; e_keys := [ ("serviceB", [[Field "id" []]]) ] |})
           [ plainField "id" (GraphQLNonNull (named ScalarKind "ID")) "serviceB";
             reviewProduct ] ] |}.

End Samples.

(** * Further sample inputs *)
Module MoreSamples.
Import PostComposition.

(** [type Product @key(fields: "upc") @key(fields: "sku brand { id }")
      { upc: String! sku: ID brand: Brand }]
    with the object type [Brand]. *)
Definition validKeys : GraphQLSchema :=
  {| getTypeMap :=
       [ ("Product", Samples.objectType "products"
                       [("upc", GraphQLNonNull (GraphQLNamed ScalarKind "String"));
                        ("sku", GraphQLNamed ScalarKind "ID");
                        ("brand", GraphQLNamed ObjectKind "Brand")]
                       [[Field "upc" []];
                        [Field "sku" []; Field "brand" [Field "id" []]]]);
         ("Brand", Samples.plainType ObjectKind) ] |}.

End MoreSamples.

(** * A sample data source *)
Module SampleDataSource.
Import RemoteDataSource.

(** Headers as a list of pairs, the value set last first; the world
    counts the calls of the fetcher. *)
Definition sampleEnv : Env :=
  {| Headers := list (string * string);
     newHeaders := [];
     headers_set := fun name value hs => (name, value) :: hs;
     headers_get := fun name hs =>
       snd <$> List.find (fun entry => String.eqb (fst entry) name) hs;
     Variables := string;
     Data := string;
     Foreign := string;
     World := nat;
     sha256 := fun text => "sha256 of " +:+ text |}.

#[local] Existing Instance sampleEnv.

Definition sampleCodec : Codec :=
  {| stringify := fun request =>
       "query: " +:+ default "undefined" (query request) +:+
       (match extensions request with
        | Some ((_, PersistedQuery _ hash) :: _) => ", hash: " +:+ hash
        | _ => ""
        end);
     rewriteURIForGET := fun uri request =>
       (None, Some (uri +:+ "?query=" +:+ default "" (query request))) |}.

#[local] Existing Instance sampleCodec.

Definition jsonResponse (uri : string) (isOk : bool) (code : nat) (reason : string)
    (body : ParsedBody) : Response :=
  {| ok := isOk; status := code; statusText := reason; r_url := uri;
     r_headers := [("Content-Type", "application/json")];
     json := inr body; text := "" |}.

(** A service that knows no persisted query: a call without a body is
    answered by [PersistedQueryNotFound], a call with one by data. *)
Definition sampleFetcher (call : FetchCall) : Effect Response :=
  fun calls =>
    (inr (jsonResponse (fc_url call) true 200 "OK"
            (ObjectBody
               match fc_body call with
               | None =>
                   {| ro_errors := Some [{| fe_message := "PersistedQueryNotFound" |}];
                      ro_data := None |}
               | Some _ => {| ro_errors := None; ro_data := Some "me" |}
               end)),
     S calls).

(** A service that answers [401 Unauthorized] with a JSON body. *)
Definition unauthorizedFetcher (call : FetchCall) : Effect Response :=
  fun calls =>
    (inr (jsonResponse (fc_url call) false 401 "Unauthorized"
            (ObjectBody {| ro_errors := None; ro_data := None |})),
     S calls).

Definition sampleSource (withApq : bool) (fetch : FetchCall -> Effect Response)
    : RemoteGraphQLDataSource :=
  {| url := "https://accounts.example/graphql";
     apq := withApq;
     useGETForHashedQueries := false;
     fetcher := fetch;
     willSendRequest := None;
     didReceiveResponse := None;
     didEncounterError := defaultDidEncounterError |}.

Definition sampleRequest (operation : JSValue) : GraphQLRequest :=
  {| query := operation; operationName := None; variables := None;
     extensions := None; http := None |}.

Definition start : State := {| world := 0; fetched := [] |}.

End SampleDataSource.

(** * Properties *)

(** Closed side conditions on the sample inputs. *)
Ltac closed :=
  repeat match goal with
         | |- _ /\ _ => split
         | |- True => exact I
         | |- Forall _ _ => constructor
         | |- NoDup _ => constructor
         | |- _ ∈ _ => apply (bool_decide_unpack _); vm_compute; exact I
         | |- _ ∉ _ => apply (bool_decide_unpack _); vm_compute; exact I
         | |- _ = _ => reflexivity
         | |- _ <> _ => discriminate
         | |- from_option _ _ _ => progress cbn
         end.

(** The cases of a membership in a list that is written out. *)
Ltac members H :=
  repeat (apply elem_of_cons in H as [H | H]);
  [.. | apply elem_of_nil in H; contradiction].

(** ** The gateway configuration predicates *)
Section ConfigProperties.
Import Config.

(** C10. The classification of gateway configurations is total: every
    configuration is static or dynamic.  A configuration with none of
    the distinguishing properties (no [localServiceList], [csdl],
    [serviceList], [experimental_updateServiceDefinitions] or
    [experimental_updateCsdl], and no non-null
    [experimental_schemaConfigDeliveryEndpoint]) is a managed
    configuration, and hence dynamic. *)
Theorem config_classification_total :
  (forall config, isStaticConfig config || isDynamicConfig config = true) /\
  (forall config, noDistinguishingProperty config ->
     isManagedConfig config = true /\ isDynamicConfig config = true).
Proof.
  split.
  - intros config.
    unfold isStaticConfig, isDynamicConfig, isManagedConfig.
    destruct (isLocalConfig config), (isCsdlConfig config),
      (isRemoteConfig config), (isManuallyManagedConfig config),
      (isPrecomposedManagedConfig config); reflexivity.
  - intros config (Hlocal & Hcsdl & Hremote & Hdefs & Hupd & Hendpoint).
    assert (Hmanaged : isManagedConfig config = true).
    { unfold isManagedConfig, isRemoteConfig, isLocalConfig, isCsdlConfig,
        isManuallyManagedConfig.
      rewrite Hlocal, Hcsdl, Hremote, Hdefs, Hupd. simpl. apply orb_true_r. }
    split; [exact Hmanaged |].
    unfold isDynamicConfig. rewrite Hmanaged.
    destruct (isRemoteConfig config); reflexivity.
Qed.

(** The empty configuration [{}] is managed and dynamic, and not static. *)
Lemma config_classification_total_witness :
  noDistinguishingProperty emptyConfig /\
  isManagedConfig emptyConfig = true /\ isDynamicConfig emptyConfig = true /\
  isStaticConfig emptyConfig = false.
Proof.
  assert (H : noDistinguishingProperty emptyConfig).
  { unfold noDistinguishingProperty, emptyConfig; simpl. tauto. }
  split; [exact H |].
  destruct (proj2 config_classification_total emptyConfig H) as [Hm Hd].
  split; [exact Hm |]. split; [exact Hd | reflexivity].
Defined.

End ConfigProperties.

(** ** The validator [keyFieldsSelectInvalidType] *)
Section KeyValidationProperties.
Import PostComposition.
Context {U : Utils}.

Lemma list_bind_bind {A B C} (f : A -> list B) (g : B -> list C) (l : list A) :
  (l ≫= f) ≫= g = l ≫= (fun x => f x ≫= g).
Proof.
  induction l as [|x l IH]; [reflexivity |].
  rewrite !bind_cons, bind_app, IH. reflexivity.
Qed.

(** A loop that only ever pushes onto [errors] returns the errors it
    started from followed by what each iteration reports. *)
Lemma fold_left_collects {A B} (step : list B -> A -> list B) (report : A -> list B) :
  (forall acc x, step acc x = acc ++ report x) ->
  forall l acc, fold_left step l acc = acc ++ (l ≫= report).
Proof.
  intros Hstep l. induction l as [|x l IH]; intros acc; cbn [fold_left].
  - symmetry. apply app_nil_r.
  - rewrite IH, Hstep, bind_cons, app_assoc. reflexivity.
Qed.

Lemma checkField_collects serviceList typeName fields serviceName selectionSet errors field :
  checkField serviceList typeName fields serviceName selectionSet errors field =
  errors ++ checkField serviceList typeName fields serviceName selectionSet [] field.
Proof.
  unfold checkField, push.
  destruct (property (fieldName field) fields) as [matching|]; [| reflexivity].
  destruct (interfaceOrNonNullInterface (f_type matching)),
    (unionOrNonNullUnion (f_type matching)); simpl;
    rewrite ?app_nil_r, <- ?app_assoc; reflexivity.
Qed.

Lemma checkService_collects serviceList typeName fields errors serviceName selectionSets :
  checkService serviceList typeName fields errors (serviceName, selectionSets) =
  errors ++
  (default [] selectionSets ≫= fun selectionSet =>
     selectionSet ≫= checkField serviceList typeName fields serviceName selectionSet []).
Proof.
  unfold checkService.
  apply fold_left_collects. intros acc selectionSet.
  apply fold_left_collects. intros acc' field.
  apply checkField_collects.
Qed.

Lemma checkType_collects serviceList errors entry :
  checkType serviceList errors entry =
  errors ++ (occurrencesOfType entry ≫= reportOf serviceList).
Proof.
  destruct entry as [typeName namedType].
  unfold checkType, occurrencesOfType. simpl.
  destruct (kind namedType); try (symmetry; apply app_nil_r).
  destruct (getFederationMetadata namedType) as [metadata|]; simpl;
    [| symmetry; apply app_nil_r].
  destruct (keys metadata) as [ks|]; simpl; [| symmetry; apply app_nil_r].
  rewrite (fold_left_collects _
    (fun entry => default [] (snd entry) ≫= fun selectionSet =>
       selectionSet ≫= checkField serviceList typeName (getFields namedType)
                          (fst entry) selectionSet [])).
  2:{ intros acc [serviceName selectionSets]. apply checkService_collects. }
  f_equal. rewrite list_bind_bind.
  apply list_bind_ext; [| reflexivity]. intros [serviceName selectionSets]. simpl.
  rewrite list_bind_bind.
  apply list_bind_ext; [| reflexivity]. intros selectionSet.
  rewrite list_bind_bind.
  apply list_bind_ext; [| reflexivity]. intros field.
  rewrite bind_singleton. reflexivity.
Qed.

(** The validator returns, in order, what its loop body reports for
    each occurrence of a key field. *)
Lemma keyFieldsSelectInvalidType_collects schema serviceList :
  keyFieldsSelectInvalidType schema serviceList =
  keyFieldOccurrences schema ≫= reportOf serviceList.
Proof.
  unfold keyFieldsSelectInvalidType, keyFieldOccurrences.
  rewrite (fold_left_collects _ (fun entry => occurrencesOfType entry ≫= reportOf serviceList)).
  - rewrite list_bind_bind. reflexivity.
  - intros acc entry. apply checkType_collects.
Qed.

(** A selected field of a key of a service on an object type of the
    schema is an occurrence. *)
Lemma keyFieldOccurrence_intro schema typeName namedType metadata ks serviceName
    selectionSets selectionSet field :
  (typeName, namedType) ∈ getTypeMap schema ->
  kind namedType = ObjectKind ->
  getFederationMetadata namedType = Some metadata ->
  keys metadata = Some ks ->
  (serviceName, Some selectionSets) ∈ ks ->
  selectionSet ∈ selectionSets ->
  field ∈ selectionSet ->
  {| occ_typeName := typeName; occ_fields := getFields namedType;
     occ_serviceName := serviceName; occ_selectionSet := selectionSet;
     occ_field := field |} ∈ keyFieldOccurrences schema.
Proof.
  intros Htype Hkind Hmeta Hkeys Hservice Hset Hfield.
  unfold keyFieldOccurrences. apply list_elem_of_bind.
  exists (typeName, namedType). split; [| exact Htype].
  unfold occurrencesOfType. simpl. rewrite Hkind, Hmeta. simpl. rewrite Hkeys.
  apply list_elem_of_bind. exists (serviceName, Some selectionSets).
  split; [| exact Hservice]. simpl.
  apply list_elem_of_bind. exists selectionSet. split; [| exact Hset].
  apply list_elem_of_bind. exists field. split; [| exact Hfield].
  apply list_elem_of_singleton. reflexivity.
Qed.

Lemma nullable_interface t :
  interfaceOrNonNullInterface t = isInterfaceType (getNullableType t).
Proof. destruct t as [[] ?| ? | []]; reflexivity. Qed.

Lemma nullable_union t :
  unionOrNonNullUnion t = isUnionType (getNullableType t).
Proof. destruct t as [[] ?| ? | []]; reflexivity. Qed.

Lemma interface_not_union t :
  isInterfaceType t = true -> isUnionType t = false.
Proof. destruct t as [[] ?| ? | ?]; simpl; congruence. Qed.

Lemma reportOf_code serviceList o e :
  e ∈ reportOf serviceList o ->
  code e = Some "KEY_FIELDS_SELECT_INVALID_TYPE" /\
  nodes e = selectionSetNodeOf serviceList o.
Proof.
  unfold reportOf, checkField, selectionSetNodeOf, push.
  destruct (property (fieldName (occ_field o)) (occ_fields o)) as [matching|].
  - destruct (interfaceOrNonNullInterface (f_type matching)),
      (unionOrNonNullUnion (f_type matching)); simpl;
      intros H; set_unfold in H; destruct_or?; subst; try contradiction; auto.
  - simpl. intros H. set_unfold in H. destruct_or?; subst; try contradiction; auto.
Qed.

(** Every error of the pass carries the code of the pass. *)
Lemma keyFieldsSelectInvalidType_code schema serviceList e :
  e ∈ keyFieldsSelectInvalidType schema serviceList ->
  code e = Some "KEY_FIELDS_SELECT_INVALID_TYPE".
Proof.
  rewrite keyFieldsSelectInvalidType_collects.
  intros (o & He & _)%list_elem_of_bind.
  apply (reportOf_code _ _ _ He).
Qed.

Lemma reportOf_offending serviceList o :
  offending o = true ->
  exists e, reportOf serviceList o = [e].
Proof.
  unfold offending, selectsMissingField, selectsFieldOf, selectedField,
    reportOf, checkField, push.
  destruct (property (fieldName (occ_field o)) (occ_fields o)) as [matching|];
    [| intros _; eexists; reflexivity].
  rewrite nullable_interface, nullable_union. simpl.
  destruct (isInterfaceType (getNullableType (f_type matching))) eqn:Hi.
  - rewrite (interface_not_union _ Hi). intros _. eexists; reflexivity.
  - destruct (isUnionType (getNullableType (f_type matching))); [| discriminate].
    intros _. eexists; reflexivity.
Qed.

Lemma reportOf_not_offending serviceList o :
  offending o = false -> reportOf serviceList o = [].
Proof.
  unfold offending, selectsMissingField, selectsFieldOf, selectedField,
    reportOf, checkField, push.
  destruct (property (fieldName (occ_field o)) (occ_fields o)) as [matching|];
    [| discriminate].
  rewrite nullable_interface, nullable_union. simpl.
  destruct (isInterfaceType (getNullableType (f_type matching))); [discriminate |].
  destruct (isUnionType (getNullableType (f_type matching))); [discriminate |].
  reflexivity.
Qed.

Lemma length_reports serviceList (l : list KeyFieldOccurrence) :
  length (l ≫= reportOf serviceList) = length (List.filter offending l).
Proof.
  induction l as [|o l IH]; [reflexivity |].
  rewrite bind_cons, length_app, IH. cbn [List.filter].
  destruct (offending o) eqn:Ho.
  - destruct (reportOf_offending serviceList o Ho) as [e ->]. reflexivity.
  - rewrite (reportOf_not_offending serviceList o Ho). reflexivity.
Qed.

(** C3. A [@key] field set that selects a list-typed field is to be
    reported with [KEY_FIELDS_SELECT_INVALID_TYPE] (the validator's own
    documentation: "The fields argument can not have root fields that
    result in a list").  The validator has no check for list types: for
    [type Product @key(fields: "tags") { tags: [String] }] it returns no
    error, and it reports nothing for any occurrence that selects a
    list-typed field. *)
Theorem list_key_field_is_not_reported :
  Samples.listKeyOccurrence ∈ keyFieldOccurrences Samples.listKey /\
  selectsFieldOf isListType Samples.listKeyOccurrence = true /\
  keyFieldsSelectInvalidType (U := Samples.plainUtils) Samples.listKey ["products"] = [] /\
  (forall serviceList o,
     selectsFieldOf isListType o = true -> reportOf serviceList o = []).
Proof.
  split; [apply list_elem_of_here |].
  split; [reflexivity |]. split; [reflexivity |].
  intros serviceList o. unfold selectsFieldOf, selectedField, reportOf, checkField.
  destruct (property (fieldName (occ_field o)) (occ_fields o)) as [matching|];
    [| discriminate].
  rewrite nullable_interface, nullable_union.
  destruct (getNullableType (f_type matching)) as [[] ?| ? | ?]; simpl;
    try discriminate; reflexivity.
Qed.

(** C4 (as amended). When a [@key] field set of an object type selects
    a field name that the composed type does not have, the pass reports
    an error for it, and that error carries the code of the pass,
    [KEY_FIELDS_SELECT_INVALID_TYPE]. *)
Theorem missing_key_field_is_reported schema serviceList typeName namedType metadata ks
    serviceName selectionSets selectionSet field :
  (typeName, namedType) ∈ getTypeMap schema ->
  kind namedType = ObjectKind ->
  getFederationMetadata namedType = Some metadata ->
  keys metadata = Some ks ->
  (serviceName, Some selectionSets) ∈ ks ->
  selectionSet ∈ selectionSets ->
  field ∈ selectionSet ->
  property (fieldName field) (getFields namedType) = None ->
  exists e,
    e ∈ keyFieldsSelectInvalidType schema serviceList /\
    code e = Some "KEY_FIELDS_SELECT_INVALID_TYPE" /\
    message e =
      logServiceAndType serviceName typeName None +:+ "A @key selects " +:+
      fieldName field +:+ ", but " +:+ typeName +:+ "." +:+ fieldName field +:+
      " could not be found".
Proof.
  intros Htype Hkind Hmeta Hkeys Hservice Hset Hfield Hmissing.
  pose proof (keyFieldOccurrence_intro _ _ _ _ _ _ _ _ _
                Htype Hkind Hmeta Hkeys Hservice Hset Hfield) as Hocc.
  rewrite keyFieldsSelectInvalidType_collects.
  eexists. split.
  - apply list_elem_of_bind. eexists. split; [| exact Hocc].
    unfold reportOf, checkField, push. simpl. rewrite Hmissing.
    apply list_elem_of_here.
  - split; reflexivity.
Qed.

(** C5. When a [@key] field set of an object type selects a field
    whose type, directly or under a non-null wrapper, is a union type or
    an interface type, the pass reports an error with code
    [KEY_FIELDS_SELECT_INVALID_TYPE] for that key field. *)
Theorem key_on_union_or_interface_is_reported schema serviceList typeName namedType
    metadata ks serviceName selectionSets selectionSet field matchingField :
  (typeName, namedType) ∈ getTypeMap schema ->
  kind namedType = ObjectKind ->
  getFederationMetadata namedType = Some metadata ->
  keys metadata = Some ks ->
  (serviceName, Some selectionSets) ∈ ks ->
  selectionSet ∈ selectionSets ->
  field ∈ selectionSet ->
  property (fieldName field) (getFields namedType) = Some matchingField ->
  isUnionType (getNullableType (f_type matchingField)) = true \/
  isInterfaceType (getNullableType (f_type matchingField)) = true ->
  exists e,
    e ∈ keyFieldsSelectInvalidType schema serviceList /\
    code e = Some "KEY_FIELDS_SELECT_INVALID_TYPE" /\
    message e =
      logServiceAndType serviceName typeName None +:+ "A @key selects " +:+
      typeName +:+ "." +:+ fieldName field +:+
      (if isUnionType (getNullableType (f_type matchingField))
       then ", which is a union type. Keys cannot select union types."
       else ", which is an interface type. Keys cannot select interfaces.").
Proof.
  intros Htype Hkind Hmeta Hkeys Hservice Hset Hfield Hmatching Hkinds.
  pose proof (keyFieldOccurrence_intro _ _ _ _ _ _ _ _ _
                Htype Hkind Hmeta Hkeys Hservice Hset Hfield) as Hocc.
  rewrite keyFieldsSelectInvalidType_collects.
  destruct (isUnionType (getNullableType (f_type matchingField))) eqn:Hunion.
  - eexists. split.
    + apply list_elem_of_bind. eexists. split; [| exact Hocc].
      unfold reportOf, checkField, push. simpl. rewrite Hmatching.
      rewrite (nullable_union (f_type matchingField)), Hunion.
      apply elem_of_app. right. apply list_elem_of_here.
    + split; reflexivity.
  - destruct Hkinds as [Hu | Hinterface]; [discriminate |].
    eexists. split.
    + apply list_elem_of_bind. eexists. split; [| exact Hocc].
      unfold reportOf, checkField, push. simpl. rewrite Hmatching.
      rewrite (nullable_union (f_type matchingField)), Hunion.
      rewrite (nullable_interface (f_type matchingField)), Hinterface.
      apply list_elem_of_here.
    + split; reflexivity.
Qed.

(** C8. The pass aggregates: it returns, in order, what is reported
    for each occurrence of a key field across all types, services and
    key selection sets; an offending occurrence (a missing field, or a
    field of interface or union type) is reported by exactly one error
    with code [KEY_FIELDS_SELECT_INVALID_TYPE], any other occurrence by
    none; so there are as many errors as offending occurrences. *)
Theorem key_validation_aggregates schema serviceList :
  keyFieldsSelectInvalidType schema serviceList =
    keyFieldOccurrences schema ≫= reportOf serviceList /\
  (forall o, offending o = true ->
     exists e, reportOf serviceList o = [e] /\
               code e = Some "KEY_FIELDS_SELECT_INVALID_TYPE" /\
               nodes e = selectionSetNodeOf serviceList o) /\
  (forall o, offending o = false -> reportOf serviceList o = []) /\
  length (keyFieldsSelectInvalidType schema serviceList) =
    length (List.filter offending (keyFieldOccurrences schema)).
Proof.
  split; [apply keyFieldsSelectInvalidType_collects |].
  split.
  { intros o Ho. destruct (reportOf_offending serviceList o Ho) as [e He].
    exists e. split; [exact He |].
    apply (reportOf_code serviceList o). rewrite He. apply list_elem_of_here. }
  split; [apply reportOf_not_offending |].
  rewrite keyFieldsSelectInvalidType_collects. apply length_reports.
Qed.

End KeyValidationProperties.

(** *** The validator on the sample inputs *)
Section KeyValidationSamples.
Import PostComposition.

Lemma missing_key_field_is_reported_witness :
  exists e,
    e ∈ keyFieldsSelectInvalidType (U := Samples.plainUtils) Samples.missingKey ["products"] /\
    code e = Some "KEY_FIELDS_SELECT_INVALID_TYPE" /\
    message e =
      "[products] Product -> A @key selects sku, but Product.sku could not be found".
Proof.
  refine (missing_key_field_is_reported (U := Samples.plainUtils)
            Samples.missingKey ["products"] "Product" _ _ _ "products" _
            [Field "sku" []] (Field "sku" []) _ _ _ _ _ _ _ _).
  - apply list_elem_of_here.
  - reflexivity.
  - reflexivity.
  - reflexivity.
  - apply list_elem_of_here.
  - apply list_elem_of_here.
  - apply list_elem_of_here.
  - reflexivity.
Defined.

(** C4 (counterexample).  For
    [type Product @key(fields: "sku") { upc: String }] the key selects
    [sku], which the composed type does not have, and no error of the
    pass carries the code [KEY_FIELDS_MISSING_ON_BASE]. *)
Lemma missing_key_field_code_counterexample :
  PostComposition.property "sku"
    (from_option getFields [] (PostComposition.property "Product" (getTypeMap Samples.missingKey)))
    = None /\
  keyFieldsSelectInvalidType (U := Samples.plainUtils) Samples.missingKey ["products"] =
    [ errorWithCode "KEY_FIELDS_SELECT_INVALID_TYPE"
        "[products] Product -> A @key selects sku, but Product.sku could not be found"
        None ] /\
  ~ exists e,
      e ∈ keyFieldsSelectInvalidType (U := Samples.plainUtils) Samples.missingKey ["products"] /\
      code e = Some "KEY_FIELDS_MISSING_ON_BASE".
Proof.
  split; [reflexivity |]. split; [reflexivity |].
  intros (e & He & Hcode).
  apply keyFieldsSelectInvalidType_code in He. congruence.
Qed.

(** Scenario E of the specification: a key on the union-typed field
    [category] is rejected with [KEY_FIELDS_SELECT_INVALID_TYPE]. *)
Lemma key_on_union_or_interface_is_reported_witness :
  exists e,
    e ∈ keyFieldsSelectInvalidType (U := Samples.plainUtils) Samples.scenarioE ["products"] /\
    code e = Some "KEY_FIELDS_SELECT_INVALID_TYPE" /\
    message e =
      "[products] Product -> A @key selects Product.category, which is a union type. Keys cannot select union types.".
Proof.
  refine (key_on_union_or_interface_is_reported (U := Samples.plainUtils)
            Samples.scenarioE ["products"] "Product" _ _ _ "products" _
            [Field "category" []] (Field "category" [])
            {| f_name := "category"; f_type := GraphQLNamed UnionKind "Category" |}
            _ _ _ _ _ _ _ _ _).
  - apply list_elem_of_here.
  - reflexivity.
  - reflexivity.
  - reflexivity.
  - apply list_elem_of_here.
  - apply list_elem_of_here.
  - apply list_elem_of_here.
  - reflexivity.
  - left. reflexivity.
Defined.

(** Two types, two services, three key selection sets, five selected
    fields, three of them offending: three errors. *)
Lemma key_validation_aggregates_witness :
  length (keyFieldOccurrences Samples.severalViolations) = 5 /\
  length (keyFieldsSelectInvalidType (U := Samples.plainUtils)
            Samples.severalViolations ["products"; "reviews"]) = 3.
Proof.
  split; [reflexivity |].
  rewrite (proj2 (proj2 (proj2
    (key_validation_aggregates (U := Samples.plainUtils)
       Samples.severalViolations ["products"; "reviews"])))).
  reflexivity.
Defined.

End KeyValidationSamples.

(** ** The pass [providesFieldsMissingExternal] *)
Section ProvidesProperties.
Import ComposedSchema Supergraph Provides.

Lemma checkProvidedField_external serviceList typeName f selection :
  isExternalIn serviceList (sf_graph f) (snd (getNamedType (sf_type f)))
    (fieldName selection) = true ->
  checkProvidedField serviceList typeName f selection = [].
Proof. unfold checkProvidedField. intros ->. reflexivity. Qed.

Lemma bind_nil_all {A B} (f : A -> list B) (l : list A) :
  (forall x, x ∈ l -> f x = []) -> l ≫= f = [].
Proof.
  induction l as [|x l IH]; intros Hall; [reflexivity |].
  rewrite bind_cons, (Hall x), IH; [reflexivity | | apply list_elem_of_here].
  intros y Hy. apply Hall. apply list_elem_of_further, Hy.
Qed.

(** C6. The pass returns an error with code
    [PROVIDES_FIELDS_MISSING_EXTERNAL] for each field mentioned in a
    [@provides] field set whose field on the referenced return type is
    not marked [@external] in the providing subgraph, and it returns the
    empty list when every field mentioned in every [@provides] is
    [@external] on the referenced type in that subgraph. *)
Theorem provides_fields_missing_external_reported schema serviceList :
  (forall typeName f selection,
     providedFieldIn schema typeName f selection ->
     isExternalIn serviceList (sf_graph f) (snd (getNamedType (sf_type f)))
       (fieldName selection) = false ->
     exists e,
       e ∈ providesFieldsMissingExternal schema serviceList /\
       code e = Some "PROVIDES_FIELDS_MISSING_EXTERNAL" /\
       nodes e = Some selection /\
       e = missingExternal (sf_graph f) typeName (sf_name f)
             (snd (getNamedType (sf_type f))) selection) /\
  ((forall typeName f selection,
      providedFieldIn schema typeName f selection ->
      isExternalIn serviceList (sf_graph f) (snd (getNamedType (sf_type f)))
        (fieldName selection) = true) ->
   providesFieldsMissingExternal schema serviceList = []).
Proof.
  split.
  - intros typeName f selection (entity & fields & fs & Htype & Hf & Hprovides & Hsel) Hext.
    eexists. split; [| repeat split; reflexivity].
    unfold providesFieldsMissingExternal. apply list_elem_of_bind.
    eexists. split; [| exact Htype]. simpl.
    apply list_elem_of_bind. exists f. split; [| exact Hf].
    unfold checkProvides. rewrite Hprovides. simpl.
    apply list_elem_of_bind. exists selection. split; [| exact Hsel].
    unfold checkProvidedField. rewrite Hext. apply list_elem_of_here.
  - intros Hall. unfold providesFieldsMissingExternal.
    apply bind_nil_all. intros t Ht.
    destruct t as [typeName entity fields | ]; [| reflexivity]. simpl.
    apply bind_nil_all. intros f Hf. unfold checkProvides.
    destruct (sf_provides f) as [fs|] eqn:Hprovides; [| reflexivity]. simpl.
    apply bind_nil_all. intros selection Hsel.
    apply checkProvidedField_external, (Hall typeName).
    exists entity, fields, fs. auto.
Qed.

(** The two tests of the pass: proper [@provides] usage gives no
    error; [Review.product @provides(fields: "id")] without an external
    [Product.id] in [serviceB] gives the error of the test's snapshot. *)
Lemma provides_fields_missing_external_reported_witness :
  providesFieldsMissingExternal Samples.properProvidesSchema
    Samples.properProvidesServices = [] /\
  exists e,
    e ∈ providesFieldsMissingExternal Samples.missingExternalSchema
          Samples.missingExternalServices /\
    code e = Some "PROVIDES_FIELDS_MISSING_EXTERNAL" /\
    message e = "[serviceB] Review.product -> provides the field `id` and requires Product.id to be marked as @external.".
Proof.
  split.
  - apply (proj2 (provides_fields_missing_external_reported
                    Samples.properProvidesSchema Samples.properProvidesServices)).
    intros typeName f selection (entity & fields & fs & Htype & Hf & Hprovides & Hsel).
    simpl in Htype. members Htype; inversion Htype; subst; clear Htype;
      members Hf; subst; simpl in Hprovides; try discriminate;
      inversion Hprovides; subst; clear Hprovides;
      members Hsel; subst; reflexivity.
  - destruct (proj1 (provides_fields_missing_external_reported
                       Samples.missingExternalSchema Samples.missingExternalServices)
                "Review" Samples.reviewProduct (Field "id" []))
      as (e & He & Hcode & _ & Hmsg).
    + eexists _, _, _. split; [apply list_elem_of_further, list_elem_of_here |].
      split; [apply list_elem_of_further, list_elem_of_here |].
      split; [reflexivity | apply list_elem_of_here].
    + reflexivity.
    + exists e. split; [exact He |]. split; [exact Hcode |]. rewrite Hmsg. reflexivity.
Defined.

(** The pass on the inputs of its two tests. *)
Example provides_tests :
  providesFieldsMissingExternal Samples.properProvidesSchema
    Samples.properProvidesServices = [] /\
  providesFieldsMissingExternal Samples.missingExternalSchema
    Samples.missingExternalServices =
  [ errorWithCode "PROVIDES_FIELDS_MISSING_EXTERNAL"
      "[serviceB] Review.product -> provides the field `id` and requires Product.id to be marked as @external."
      (Some (Field "id" [])) ].
Proof. split; reflexivity. Qed.

End ProvidesProperties.

(** ** [buildComposedSchema] *)
Section ComposedSchemaProperties.
Import ComposedSchema SchemaShape.
Context {P : Parser}.

(** *** The exception monad and the loops *)

Lemma bind_Ok {A B} (m : Result A) (f : A -> Result B) (b : B) :
  m ≫= f = Ok b <-> exists a, m = Ok a /\ f a = Ok b.
Proof.
  destruct m as [a | e]; simpl; split.
  - intros H. exists a. auto.
  - intros (a' & Ha & H). injection Ha as ->. exact H.
  - discriminate.
  - intros (a' & Ha & _). discriminate.
Qed.

Lemma bind_Throw {A B} (m : Result A) (f : A -> Result B) (e : Exception) :
  m ≫= f = Throw e <-> m = Throw e \/ exists a, m = Ok a /\ f a = Throw e.
Proof.
  destruct m as [a | e']; simpl; split.
  - intros H. right. exists a. auto.
  - intros [H | (a' & Ha & H)]; [discriminate |]. injection Ha as ->. exact H.
  - intros [= <-]. left. reflexivity.
  - intros [[= <-] | (a' & Ha & _)]; [reflexivity | discriminate].
Qed.


Lemma forEach_Ok {A} (body : A -> Result unit) (l : list A) :
  (forall x, x ∈ l -> body x = Ok tt) -> forEach body l = Ok tt.
Proof.
  induction l as [|x l IH]; intros Hall; [reflexivity |]. simpl.
  rewrite (Hall x) by apply list_elem_of_here. simpl.
  apply IH. intros y Hy. apply Hall, list_elem_of_further, Hy.
Qed.

Lemma forEach_Ok_inv {A} (body : A -> Result unit) (l : list A) :
  forEach body l = Ok tt -> forall x, x ∈ l -> body x = Ok tt.
Proof.
  induction l as [| y l IH]; intros H x Hx; [by apply elem_of_nil in Hx |].
  simpl in H. apply bind_Ok in H as ([] & Hy & H).
  apply elem_of_cons in Hx as [-> | Hx]; [exact Hy | apply (IH H x Hx)].
Qed.

(** A loop that meets an iteration that throws, throws: the exception
    is that of some iteration. *)
Lemma forEach_Throw {A} (body : A -> Result unit) (l : list A) x e0 :
  x ∈ l -> body x = Throw e0 ->
  exists y e, y ∈ l /\ body y = Throw e /\ forEach body l = Throw e.
Proof.
  induction l as [|z l IH]; intros Hx Hbody; [by apply elem_of_nil in Hx |].
  simpl. destruct (body z) as [[] | e] eqn:Hz.
  - apply elem_of_cons in Hx as [-> | Hx]; [congruence |].
    destruct (IH Hx Hbody) as (y & e & Hy & Hthrow & Hloop).
    exists y, e. split; [apply list_elem_of_further, Hy | auto].
  - exists z, e. split; [apply list_elem_of_here | auto].
Qed.

Lemma forEach_Throw_inv {A} (body : A -> Result unit) (l : list A) e :
  forEach body l = Throw e -> exists x, x ∈ l /\ body x = Throw e.
Proof.
  induction l as [| y l IH]; [discriminate |]. simpl. intros H.
  apply bind_Throw in H as [H | ([] & _ & H)].
  - exists y. split; [apply list_elem_of_here | exact H].
  - destruct (IH H) as (x & Hx & Hthrow).
    exists x. split; [apply list_elem_of_further, Hx | exact Hthrow].
Qed.

Lemma forEachWith_app {A S} (body : S -> A -> Result S) (l1 l2 : list A) (s : S) :
  forEachWith body (l1 ++ l2) s = forEachWith body l1 s ≫= forEachWith body l2.
Proof.
  revert s. induction l1 as [|x l1 IH]; intros s; [reflexivity |].
  simpl. destruct (body s x) as [s' | e]; simpl; [apply IH | reflexivity].
Qed.

(** A loop that throws does so in an iteration, on a state that the
    iterations before it kept within the invariant. *)
Lemma forEachWith_Throw_inv {A S} (body : S -> A -> Result S) (I : S -> Prop)
    (l : list A) e :
  (forall s x s', I s -> body s x = Ok s' -> I s') ->
  forall s, I s -> forEachWith body l s = Throw e ->
  exists s' x, I s' /\ x ∈ l /\ body s' x = Throw e.
Proof.
  intros Hstep. induction l as [| y l IH]; intros s Hs H; [discriminate |].
  simpl in H. apply bind_Throw in H as [H | (s1 & Hy & H)].
  - exists s, y. split; [exact Hs |]. split; [apply list_elem_of_here | exact H].
  - destruct (IH s1 (Hstep _ _ _ Hs Hy) H) as (s' & x & Hs' & Hx & Hthrow).
    exists s', x. split; [exact Hs' |]. split; [apply list_elem_of_further, Hx | exact Hthrow].
Qed.

Lemma forEachUpdate_app {A} (body : A -> Result A) (l1 l2 : list A) :
  forEachUpdate body (l1 ++ l2) =
  l1' ← forEachUpdate body l1; l2' ← forEachUpdate body l2; Ok (l1' ++ l2').
Proof.
  induction l1 as [|x l1 IH]; simpl.
  - destruct (forEachUpdate body l2); reflexivity.
  - destruct (body x) as [x' | e]; simpl; [| reflexivity].
    rewrite IH. destruct (forEachUpdate body l1); simpl; [| reflexivity].
    destruct (forEachUpdate body l2); reflexivity.
Qed.

Lemma forEachUpdate_Ok {A} (body : A -> Result A) (l l' : list A) :
  forEachUpdate body l = Ok l' <-> Forall2 (fun x x' => body x = Ok x') l l'.
Proof.
  revert l'. induction l as [|x l IH]; intros l'; simpl.
  - split; [intros [= <-]; constructor | intros H; inversion H; reflexivity].
  - split.
    + intros (x' & Hx & (rest & Hrest & [= <-])%bind_Ok)%bind_Ok.
      constructor; [exact Hx | apply IH, Hrest].
    + intros H. inversion H as [| ? x' ? rest Hx Hrest]; subst.
      rewrite Hx. simpl. apply IH in Hrest. rewrite Hrest. reflexivity.
Qed.

(** The exception of the first element that fails surfaces. *)
Lemma forEachUpdate_Throw {A} (body : A -> Result A) (before after : list A) x e :
  Forall (fun y => exists y', body y = Ok y') before ->
  body x = Throw e ->
  forEachUpdate body (before ++ x :: after) = Throw e.
Proof.
  intros Hbefore Hx. induction Hbefore as [| y before (y' & Hy) _ IH]; simpl.
  - rewrite Hx. reflexivity.
  - rewrite Hy. simpl. rewrite IH. reflexivity.
Qed.

Lemma forEachUpdate_Throw_inv {A} (body : A -> Result A) (l : list A) e :
  forEachUpdate body l = Throw e -> exists x, x ∈ l /\ body x = Throw e.
Proof.
  induction l as [| y l IH]; [discriminate |]. simpl. intros H.
  apply bind_Throw in H as [H | (y' & _ & H)].
  - exists y. split; [apply list_elem_of_here | exact H].
  - apply bind_Throw in H as [H | (rest & _ & H)]; [| discriminate].
    destruct (IH H) as (x & Hx & Hthrow).
    exists x. split; [apply list_elem_of_further, Hx | exact Hthrow].
Qed.

Lemma mapResult_Ok {A B} (f : A -> Result B) (l : list A) (ys : list B) :
  mapResult f l = Ok ys <-> Forall2 (fun x y => f x = Ok y) l ys.
Proof.
  revert ys. induction l as [|x l IH]; intros ys; simpl.
  - split; [intros [= <-]; constructor | intros H; inversion H; reflexivity].
  - split.
    + intros (y & Hx & (rest & Hrest & [= <-])%bind_Ok)%bind_Ok.
      constructor; [exact Hx | apply IH, Hrest].
    + intros H. inversion H as [| ? y ? rest Hx Hrest]; subst.
      rewrite Hx. simpl. apply IH in Hrest. rewrite Hrest. reflexivity.
Qed.

Lemma mapResult_fmap {A B} (f : A -> Result B) (g : A -> B) (l : list A) :
  Forall (fun x => f x = Ok (g x)) l -> mapResult f l = Ok (g <$> l).
Proof.
  induction 1 as [| x l Hx _ IH]; [reflexivity |].
  cbn [mapResult]. rewrite Hx, IH. reflexivity.
Qed.

Lemma mapResult_Throw {A B} (f : A -> Result B) (before after : list A) x e :
  Forall (fun y => exists y', f y = Ok y') before ->
  f x = Throw e ->
  mapResult f (before ++ x :: after) = Throw e.
Proof.
  intros Hbefore Hx. induction Hbefore as [| y before (y' & Hy) _ IH]; simpl.
  - rewrite Hx. reflexivity.
  - rewrite Hy. simpl. rewrite IH. reflexivity.
Qed.

Lemma mapResult_Throw_inv {A B} (f : A -> Result B) (l : list A) e :
  mapResult f l = Throw e -> exists x, x ∈ l /\ f x = Throw e.
Proof.
  induction l as [| y l IH]; [discriminate |]. simpl. intros H.
  apply bind_Throw in H as [H | (y' & _ & H)].
  - exists y. split; [apply list_elem_of_here | exact H].
  - apply bind_Throw in H as [H | (rest & _ & H)]; [| discriminate].
    destruct (IH H) as (x & Hx & Hthrow).
    exists x. split; [apply list_elem_of_further, Hx | exact Hthrow].
Qed.

Lemma mapResult_elem {A B} (f : A -> Result B) (l : list A) (ys : list B) :
  mapResult f l = Ok ys ->
  (forall y, y ∈ ys -> exists x, x ∈ l /\ f x = Ok y) /\
  (forall x, x ∈ l -> exists y, y ∈ ys /\ f x = Ok y).
Proof.
  intros H%mapResult_Ok.
  induction H as [| x y l ys Hx _ [IH1 IH2]].
  - split; intros ? []%elem_of_nil.
  - split.
    + intros y' [-> | Hy]%elem_of_cons.
      * exists x. split; [apply list_elem_of_here | exact Hx].
      * destruct (IH1 y' Hy) as (x' & Hx' & Hf).
        exists x'. split; [apply list_elem_of_further, Hx' | exact Hf].
    + intros x' [-> | Hx']%elem_of_cons.
      * exists y. split; [apply list_elem_of_here | exact Hx].
      * destruct (IH2 x' Hx') as (y' & Hy' & Hf).
        exists y'. split; [apply list_elem_of_further, Hy' | exact Hf].
Qed.

Lemma assert_Throw {A} (condition : option A) msg e :
  assert condition msg = Throw e -> e = AssertionError msg.
Proof. destruct condition; [discriminate | intros [= <-]; reflexivity]. Qed.

Lemma assert_Ok {A} (condition : option A) msg a :
  assert condition msg = Ok a -> condition = Some a.
Proof. destruct condition; [intros [= ->]; reflexivity | discriminate]. Qed.

Lemma filter_all {A} (f : A -> bool) (l : list A) :
  Forall (fun x => f x = true) l -> List.filter f l = l.
Proof.
  induction 1 as [| x l Hx _ IH]; [reflexivity |].
  simpl. rewrite Hx, IH. reflexivity.
Qed.

(** *** Looking up directives and names *)

Lemma getDirective_name schema name d :
  getDirective schema name = Some d -> d_name d = name.
Proof.
  unfold getDirective. intros H. apply find_some in H as [_ H].
  apply String.eqb_eq, H.
Qed.

Lemma getJoinDirective_name schema name d :
  getJoinDirective schema name = Ok d -> d_name d = joinName +:+ "__" +:+ name.
Proof.
  unfold getJoinDirective, assert.
  destruct (getDirective schema _) as [d' |] eqn:Hd; [| discriminate].
  intros [= <-]. apply (getDirective_name _ _ _ Hd).
Qed.

Lemma getJoinDirective_defined schema name d :
  getJoinDirective schema name = Ok d ->
  getDirective schema (joinName +:+ "__" +:+ name) = Some d.
Proof.
  unfold getJoinDirective, assert.
  destruct (getDirective schema _); [intros [= ->]; reflexivity | discriminate].
Qed.

Lemma getJoinDirective_Throw schema name e :
  getJoinDirective schema name = Throw e -> exists msg, e = AssertionError msg.
Proof. unfold getJoinDirective. intros H%assert_Throw. eauto. Qed.

Lemma isEnumType_Some type enum :
  isEnumType type = Some enum -> type = Some enum /\ t_kind enum = EnumKind.
Proof.
  unfold isEnumType. destruct type as [t |]; [| discriminate].
  destruct (t_kind t) eqn:Hkind; try discriminate. intros [= <-]. auto.
Qed.

Lemma typeNamed_Some types name t :
  typeNamed types name = Some t -> t ∈ types /\ t_name t = name.
Proof.
  unfold typeNamed. intros [Hin Hname]%find_some.
  split; [apply list_elem_of_In, Hin | apply String.eqb_eq, Hname].
Qed.

Lemma isExported_type_name t :
  isExported (TypeElement t) = isExportedName (t_name t).
Proof. reflexivity. Qed.

Lemma isExported_type t :
  isExported (TypeElement t) = true ->
  startsWith (t_name t) "core__" = false /\ startsWith (t_name t) "join__" = false.
Proof.
  unfold isExported, isAssociatedWithFeature. simpl.
  intros H. apply negb_true_iff, orb_false_iff in H. exact H.
Qed.

Lemma isExported_directive d :
  isExported (DirectiveElement d) = true ->
  d_name d <> "core" /\ d_name d <> "join" /\
  startsWith (d_name d) "core__" = false /\ startsWith (d_name d) "join__" = false.
Proof.
  unfold isExported, isAssociatedWithFeature. simpl.
  intros H. apply negb_true_iff, orb_false_iff in H as [Hcore Hjoin].
  apply orb_false_iff in Hcore as [Hcore Hcore'], Hjoin as [Hjoin Hjoin'].
  apply String.eqb_neq in Hcore, Hjoin. auto.
Qed.

(** *** Argument coercion *)

Lemma argument_snoc {A} (name k : string) (v : A) (args : list (string * A)) :
  argument name (args ++ [(k, v)]) =
  if String.eqb k name then Some v else argument name args.
Proof.
  induction args as [| [k' v'] args IH]; simpl.
  - reflexivity.
  - rewrite IH. destruct (String.eqb k name); [reflexivity |].
    destruct (argument name args); reflexivity.
Qed.

(** A value that is coerced to a string is the text of its literal. *)
Lemma valueFromAST_string types valueNode type s :
  valueFromAST types valueNode type = Ok (Some (VString s)) ->
  valueFromASTUntyped valueNode = VString s.
Proof.
  induction type as [kind name | itemType IH | ofType IH]; simpl.
  - destruct valueNode as [| value | value | value]; simpl; try discriminate.
    all: destruct kind; simpl; try discriminate.
    all: repeat match goal with
           | |- context [if ?c then _ else _] => destruct c
           end; congruence.
  - destruct (isNullValue valueNode); [discriminate |].
    destruct (valueFromAST types valueNode itemType) as [[v |] | e]; discriminate.
  - destruct (isNullValue valueNode); [discriminate | exact IH].
Qed.

Lemma valueFromAST_Throw types valueNode type e :
  valueFromAST types valueNode type = Throw e -> exists msg, e = InvariantError msg.
Proof.
  induction type as [kind name | itemType IH | ofType IH]; simpl.
  - destruct (isNullValue valueNode); [discriminate |].
    destruct kind; try discriminate; intros [= <-]; eauto.
  - destruct (isNullValue valueNode); [discriminate |].
    destruct (valueFromAST types valueNode itemType) as [v | e']; [discriminate |].
    intros [= <-]. apply IH. reflexivity.
  - destruct (isNullValue valueNode); [discriminate | exact IH].
Qed.

Lemma coerceArgument_Throw types node coercedValues argDef e :
  coerceArgument types node coercedValues argDef = Throw e -> isCoercionException e.
Proof.
  unfold coerceArgument.
  destruct (argument (a_name argDef) (dn_arguments node)) as [valueNode |].
  - destruct (isNullValue valueNode && isNonNullType (a_type argDef)).
    + intros [= <-]. right. left. eauto.
    + destruct (valueFromAST types valueNode (a_type argDef)) as [[v |] | e'] eqn:Hvalue;
        simpl; [discriminate | intros [= <-]; right; left; eauto |].
      intros [= <-]. right. right. apply (valueFromAST_Throw _ _ _ _ Hvalue).
  - destruct (a_defaultValue argDef); [discriminate |].
    destruct (isNonNullType (a_type argDef)); [| discriminate].
    intros [= <-]. left. eauto.
Qed.

Lemma getArgumentValues_Throw types def node e :
  getArgumentValues types def node = Throw e -> isCoercionException e.
Proof.
  unfold getArgumentValues. intros H.
  destruct (forEachWith_Throw_inv (coerceArgument types node) (fun _ => True) _ _
              (fun _ _ _ _ _ => I) [] I H) as (s & argDef & _ & _ & Hthrow).
  apply (coerceArgument_Throw _ _ _ _ _ Hthrow).
Qed.

(** A coerced argument that is a string is the text of the literal the
    application gives, when it gives one. *)
Lemma getArgumentValues_string types def node args name s valueNode :
  getArgumentValues types def node = Ok args ->
  argument name args = Some (VString s) ->
  argument name (dn_arguments node) = Some valueNode ->
  valueFromASTUntyped valueNode = VString s.
Proof.
  unfold getArgumentValues. intros Hargs Hname Hnode.
  assert (Hgen : forall argDefs coercedValues,
            (argument name coercedValues = Some (VString s) ->
             valueFromASTUntyped valueNode = VString s) ->
            forEachWith (coerceArgument types node) argDefs coercedValues = Ok args ->
            valueFromASTUntyped valueNode = VString s).
  { induction argDefs as [| argDef argDefs IH]; intros coercedValues Hacc H.
    - injection H as ->. apply Hacc, Hname.
    - simpl in H. apply bind_Ok in H as (coercedValues' & Hstep & H).
      apply (IH coercedValues'); [| exact H].
      unfold coerceArgument in Hstep.
      destruct (argument (a_name argDef) (dn_arguments node)) as [literal |] eqn:Hliteral.
      + destruct (isNullValue literal && isNonNullType (a_type argDef)); [discriminate |].
        destruct (valueFromAST types literal (a_type argDef)) as [[v |] | e'] eqn:Hvalue;
          simpl in Hstep; try discriminate.
        injection Hstep as <-. rewrite argument_snoc.
        destruct (String.eqb (a_name argDef) name) eqn:Hsame; [| exact Hacc].
        apply String.eqb_eq in Hsame. rewrite Hsame, Hnode in Hliteral.
        injection Hliteral as <-. intros [= ->].
        apply (valueFromAST_string _ _ _ _ Hvalue).
      + destruct (a_defaultValue argDef) as [defaultValue |].
        * injection Hstep as <-. rewrite argument_snoc.
          destruct (String.eqb (a_name argDef) name) eqn:Hsame; [| exact Hacc].
          apply String.eqb_eq in Hsame. rewrite Hsame, Hnode in Hliteral. discriminate.
        * destruct (isNonNullType (a_type argDef)); [discriminate |].
          injection Hstep as <-. exact Hacc. }
  apply (Hgen (d_args def) []); [discriminate | exact Hargs].
Qed.

(** An argument declared with the enum [join__Graph] does not take an
    enum value that the enum does not have. *)
Lemma getArgumentValues_unknown_graph types def graphEnumType node value :
  typeNamed types "join__Graph" = Some graphEnumType ->
  takesGraphFirst def ->
  givesUnknownGraph graphEnumType node value ->
  getArgumentValues types def node = Throw (invalidValueError "graph" (EnumValue value)).
Proof.
  intros Henum (argDef & rest & Hargs & Hname & Htype) [Hnode Hunknown].
  unfold getArgumentValues. rewrite Hargs. cbn [forEachWith].
  assert (Hstep : coerceArgument types node [] argDef
                  = Throw (invalidValueError "graph" (EnumValue value))).
  { unfold coerceArgument. rewrite Hname, Hnode. cbn [isNullValue andb].
    assert (Hinvalid : valueFromAST types (EnumValue value) (a_type argDef) = Ok None).
    { unfold isGraphType in Htype.
      destruct (a_type argDef) as [kind name | itemType | ofType]; cbn in Htype.
      - destruct kind; try discriminate. apply String.eqb_eq in Htype. subst name.
        cbn. rewrite Henum. cbn. rewrite Hunknown. reflexivity.
      - discriminate.
      - destruct ofType as [kind name | |]; try discriminate.
        destruct kind; try discriminate. apply String.eqb_eq in Htype. subst name.
        cbn. rewrite Henum. cbn. rewrite Hunknown. reflexivity. }
    rewrite Hinvalid. reflexivity. }
  rewrite Hstep. reflexivity.
Qed.

Lemma getArgumentValuesForDirective_Throw types def node e :
  getArgumentValuesForDirective types def node = Throw e ->
  (d_isRepeatable def = true /\
   e = AssertionError "Use getArgumentValuesForRepeatableDirective for repeatable directives") \/
  (d_isRepeatable def = false /\
   exists directiveNode,
     applicationOf def node = Some directiveNode /\
     getArgumentValues types def directiveNode = Throw e).
Proof.
  unfold getArgumentValuesForDirective, applicationOf.
  destruct (d_isRepeatable def); cbn.
  - intros [= <-]. left. auto.
  - destruct (List.find _ node) as [directiveNode |]; [| discriminate].
    destruct (getArgumentValues types def directiveNode) as [args | e'] eqn:Hargs;
      [discriminate |].
    intros [= <-]. right. eauto.
Qed.

Lemma getArgumentValuesForDirective_Ok types def node result :
  getArgumentValuesForDirective types def node = Ok result ->
  d_isRepeatable def = false /\
  match applicationOf def node with
  | Some directiveNode =>
      exists args, result = Some args /\ getArgumentValues types def directiveNode = Ok args
  | None => result = None
  end.
Proof.
  unfold getArgumentValuesForDirective, applicationOf.
  destruct (d_isRepeatable def); cbn; [discriminate |].
  destruct (List.find _ node) as [directiveNode |].
  - destruct (getArgumentValues types def directiveNode) as [args | e']; [| discriminate].
    intros [= <-]. eauto.
  - intros [= <-]. auto.
Qed.

Lemma getArgumentValuesForDirective_eq types def node :
  d_isRepeatable def = false ->
  getArgumentValuesForDirective types def node =
  match applicationOf def node with
  | Some directiveNode => fmap (M := Result) Some (getArgumentValues types def directiveNode)
  | None => Ok None
  end.
Proof.
  intros Hsingle. unfold getArgumentValuesForDirective, applicationOf.
  rewrite Hsingle. reflexivity.
Qed.

Lemma getArgumentValuesForRepeatableDirective_Throw types def node e :
  getArgumentValuesForRepeatableDirective types def node = Throw e ->
  exists directiveNode,
    directiveNode ∈ applicationsOf def node /\
    getArgumentValues types def directiveNode = Throw e.
Proof. apply mapResult_Throw_inv. Qed.

(** *** What reading leaves as it is *)

Lemma processField_shape schema type fieldDirective graphMap fieldDef fieldDef' :
  processField schema type fieldDirective graphMap fieldDef = Ok fieldDef' ->
  eraseFieldFederation fieldDef' = eraseFieldFederation fieldDef.
Proof.
  unfold processField. intros H. apply bind_Ok in H as (node & _ & H).
  apply bind_Ok in H as ([args |] & _ & H); [| injection H as <-; reflexivity].
  apply bind_Ok in H as (requires & _ & H). apply bind_Ok in H as (provides & _ & H).
  injection H as <-. reflexivity.
Qed.

Lemma processFields_shape schema type fieldDirective graphMap fields fields' :
  forEachUpdate (processField schema type fieldDirective graphMap) fields = Ok fields' ->
  eraseFieldFederation <$> fields' = eraseFieldFederation <$> fields.
Proof.
  intros H%forEachUpdate_Ok. induction H as [| f f' fields fields' Hf _ IH]; [reflexivity |].
  rewrite !fmap_cons, IH, (processField_shape _ _ _ _ _ _ Hf). reflexivity.
Qed.

Lemma processType_shape schema ownerDirective typeDirective fieldDirective graphMap type type' :
  processType schema ownerDirective typeDirective fieldDirective graphMap type = Ok type' ->
  eraseFederation type' = eraseFederation type.
Proof.
  unfold processType. destruct (isIntrospectionType type); [intros [= <-]; reflexivity |].
  destruct (t_kind type) eqn:Hkind; try (intros [= <-]; reflexivity).
  intros H. apply bind_Ok in H as (node & _ & H).
  apply bind_Ok in H as (ownerArgs & _ & H).
  apply bind_Ok in H as (metadata & _ & H).
  apply bind_Ok in H as (typeArgs & _ & H). apply bind_Ok in H as ([] & _ & H).
  apply bind_Ok in H as (metadata' & _ & H). apply bind_Ok in H as (fields & Hfields & H).
  injection H as <-. unfold eraseFederation. cbn.
  rewrite (processFields_shape _ _ _ _ _ _ Hfields), Hkind. reflexivity.
Qed.

Lemma eraseFederation_name t t' :
  eraseFederation t' = eraseFederation t -> t_name t' = t_name t.
Proof. intros H. apply (f_equal t_name) in H. exact H. Qed.

Lemma isExported_shape t t' :
  eraseFederation t' = eraseFederation t ->
  isExported (TypeElement t') = isExported (TypeElement t).
Proof.
  intros H%eraseFederation_name. rewrite !isExported_type_name, H. reflexivity.
Qed.

Lemma referencedTypes_erase t : referencedTypes (eraseFederation t) = referencedTypes t.
Proof.
  unfold referencedTypes, eraseFederation. cbn.
  destruct (t_kind t); try reflexivity.
  - f_equal. induction (t_fields t) as [| f fields IH]; [reflexivity |].
    rewrite fmap_cons, !bind_cons, IH. reflexivity.
  - f_equal. induction (t_fields t) as [| f fields IH]; [reflexivity |].
    rewrite fmap_cons, !bind_cons, IH. reflexivity.
  - rewrite <- list_fmap_compose. reflexivity.
Qed.

Lemma referencedTypes_shape t t' :
  eraseFederation t' = eraseFederation t -> referencedTypes t' = referencedTypes t.
Proof.
  intros H. rewrite <- (referencedTypes_erase t'), H. apply referencedTypes_erase.
Qed.

(** The types that were processed, against those of the schema. *)
Lemma processTypes_shape schema ownerDirective typeDirective fieldDirective graphMap
    types types' :
  forEachUpdate (processType schema ownerDirective typeDirective fieldDirective graphMap)
    types = Ok types' ->
  eraseFederation <$> types' = eraseFederation <$> types.
Proof.
  intros H%forEachUpdate_Ok. induction H as [| t t' types types' Ht _ IH]; [reflexivity |].
  rewrite !fmap_cons, IH, (processType_shape _ _ _ _ _ _ _ Ht). reflexivity.
Qed.

Lemma shape_filter (types types' : list GraphQLNamedType) :
  eraseFederation <$> types' = eraseFederation <$> types ->
  eraseFederation <$> List.filter (fun t => isExported (TypeElement t)) types' =
  eraseFederation <$> List.filter (fun t => isExported (TypeElement t)) types.
Proof.
  revert types. induction types' as [| t' types' IH]; intros [| t types] H;
    try discriminate; [reflexivity |].
  rewrite !fmap_cons in H.
  pose proof (f_equal head H) as Ht. pose proof (f_equal tail H) as Hrest.
  cbn [head tail] in Ht, Hrest. apply (inj Some) in Ht.
  cbn [List.filter]. rewrite (isExported_shape _ _ Ht).
  destruct (isExported (TypeElement t)); [| apply IH, Hrest].
  rewrite !fmap_cons, Ht, (IH _ Hrest). reflexivity.
Qed.

Lemma shape_elem (types types' : list GraphQLNamedType) t' :
  eraseFederation <$> types' = eraseFederation <$> types ->
  t' ∈ types' -> exists t, t ∈ types /\ eraseFederation t' = eraseFederation t.
Proof.
  intros H Ht'. apply (list_elem_of_fmap_2 eraseFederation) in Ht'.
  rewrite H in Ht'. apply list_elem_of_fmap in Ht' as (t & Heq & Ht). eauto.
Qed.

(** *** The type map of the schema that is constructed *)

Lemma typeSet_has_elem typeSet t :
  typeSet_has typeSet t = true <-> t_name t ∈ t_name <$> typeSet.
Proof.
  unfold typeSet_has. rewrite existsb_exists, list_elem_of_fmap. split.
  - intros (u & Hu & Hname). apply String.eqb_eq in Hname.
    exists u. split; [symmetry; exact Hname | apply list_elem_of_In, Hu].
  - intros (u & Hname & Hu). exists u.
    split; [apply list_elem_of_In, Hu | apply String.eqb_eq; symmetry; exact Hname].
Qed.

Lemma collectReferencedTypes_has fuel all t typeSet :
  typeSet_has typeSet t = true -> collectReferencedTypes fuel all t typeSet = typeSet.
Proof. intros H. destruct fuel; [reflexivity |]. simpl. rewrite H. reflexivity. Qed.

(** **** The recursion of [collectReferencedTypes] ends *)

Lemma uncollected_elem all typeSet name :
  name ∈ uncollected all typeSet <->
  name ∈ t_name <$> all /\ name ∉ t_name <$> typeSet.
Proof.
  unfold uncollected. rewrite elem_of_remove_dups, list_elem_of_In, filter_In.
  rewrite <- list_elem_of_In, negb_true_iff, <- not_true_iff_false, existsb_exists.
  split; intros [Hall Hnew]; (split; [exact Hall |]).
  - intros Hin. apply Hnew. exists name.
    split; [apply list_elem_of_In, Hin | apply String.eqb_refl].
  - intros (n & Hn & Heq). apply String.eqb_eq in Heq. subst n.
    apply Hnew, list_elem_of_In, Hn.
Qed.

Lemma uncollected_mono all typeSet typeSet' :
  (forall name, name ∈ t_name <$> typeSet -> name ∈ t_name <$> typeSet') ->
  length (uncollected all typeSet') <= length (uncollected all typeSet).
Proof.
  intros Hsubset. apply submseteq_length, NoDup_submseteq; [apply NoDup_remove_dups |].
  intros name [Hall Hnew]%uncollected_elem. apply uncollected_elem.
  split; [exact Hall |]. intros Hin. apply Hnew, Hsubset, Hin.
Qed.

Lemma uncollected_add all typeSet typeSet' t :
  t_name t ∈ t_name <$> all ->
  t_name t ∉ t_name <$> typeSet ->
  (forall name, name ∈ t_name <$> (typeSet ++ [t]) -> name ∈ t_name <$> typeSet') ->
  length (uncollected all typeSet') < length (uncollected all typeSet).
Proof.
  intros Hall Hnew Hsubset.
  assert (Hle : length (t_name t :: uncollected all typeSet')
                <= length (uncollected all typeSet)).
  { apply submseteq_length, NoDup_submseteq.
    - apply NoDup_cons. split; [| apply NoDup_remove_dups].
      intros [_ Hmissing]%uncollected_elem. apply Hmissing, Hsubset.
      rewrite fmap_app, elem_of_app. right. apply list_elem_of_here.
    - intros name [-> | [Hin Hmissing]%uncollected_elem]%elem_of_cons;
        apply uncollected_elem; [auto |].
      split; [exact Hin |]. intros Hname. apply Hmissing, Hsubset.
      rewrite fmap_app, elem_of_app. left. exact Hname. }
  simpl in Hle. lia.
Qed.

(** Collecting only adds to the set. *)
Lemma collectReferencedTypes_grows fuel all :
  forall t typeSet name,
  name ∈ t_name <$> typeSet ->
  name ∈ t_name <$> collectReferencedTypes fuel all t typeSet.
Proof.
  induction fuel as [| fuel IH]; intros t typeSet name Hname; [exact Hname |].
  simpl. destruct (typeSet_has typeSet t); [exact Hname |].
  assert (Hstart : name ∈ t_name <$> (typeSet ++ [t])).
  { rewrite fmap_app, elem_of_app. left. exact Hname. }
  revert Hstart. generalize (typeSet ++ [t]).
  induction (referencedTypes t) as [| reference references IHr]; intros s Hs; [exact Hs |].
  cbn [fold_left]. apply IHr.
  destruct (typeNamed all reference); [apply IH, Hs | exact Hs].
Qed.

(** The depth of the recursion is at most the number of the types of
    [all] that the set does not have: with that much fuel, more fuel
    changes nothing. *)
Lemma collectReferencedTypes_fuel all fuel :
  forall fuel' t typeSet,
  t_name t ∈ t_name <$> all ->
  length (uncollected all typeSet) < fuel ->
  fuel <= fuel' ->
  collectReferencedTypes fuel' all t typeSet = collectReferencedTypes fuel all t typeSet.
Proof.
  induction fuel as [| fuel IH]; intros fuel' t typeSet Hall Hmissing Hfuel; [lia |].
  destruct fuel' as [| fuel']; [lia |]. simpl.
  destruct (typeSet_has typeSet t) eqn:Hhas; [reflexivity |].
  assert (Hnew : t_name t ∉ t_name <$> typeSet).
  { rewrite <- typeSet_has_elem, Hhas. discriminate. }
  assert (Hgen : forall references s,
            (forall name, name ∈ t_name <$> (typeSet ++ [t]) -> name ∈ t_name <$> s) ->
            fold_left
              (fun typeSet reference =>
                 match typeNamed all reference with
                 | Some referenced => collectReferencedTypes fuel' all referenced typeSet
                 | None => typeSet
                 end) references s =
            fold_left
              (fun typeSet reference =>
                 match typeNamed all reference with
                 | Some referenced => collectReferencedTypes fuel all referenced typeSet
                 | None => typeSet
                 end) references s).
  { induction references as [| reference references IHr]; intros s Hs; [reflexivity |].
    cbn [fold_left].
    destruct (typeNamed all reference) as [referenced |] eqn:Hreferenced; [| apply IHr, Hs].
    apply typeNamed_Some in Hreferenced as [Hin _].
    rewrite (IH fuel' referenced s).
    - apply IHr. intros name Hname. apply collectReferencedTypes_grows, Hs, Hname.
    - apply list_elem_of_fmap_2, Hin.
    - pose proof (uncollected_add all typeSet s t Hall Hnew Hs). lia.
    - lia. }
  apply Hgen. auto.
Qed.

(** The fuel that the constructor is given is enough. *)
Lemma collectReferencedTypes_enough all fuel t typeSet :
  t_name t ∈ t_name <$> all ->
  length all < fuel ->
  collectReferencedTypes fuel all t typeSet
  = collectReferencedTypes (S (length all)) all t typeSet.
Proof.
  intros Hall Hfuel. apply collectReferencedTypes_fuel; [exact Hall | | lia].
  assert (Hle : length (uncollected all typeSet) <= length all); [| lia].
  unfold uncollected. rewrite <- (length_fmap t_name all).
  etransitivity; [apply submseteq_length, NoDup_submseteq; [apply NoDup_remove_dups |] |].
  - intros name [Hin _]%uncollected_elem. exact Hin.
  - reflexivity.
Qed.

Section Collected.
Variable all : list GraphQLNamedType.

Local Abbreviation exported := (fun t : GraphQLNamedType => isExportedName (t_name t) = true).

(** Exported types refer to exported types only. *)
Hypothesis closed :
  forall t name, t ∈ all -> exported t -> name ∈ referencedTypes t ->
                 isExportedName name = true.

(** From an exported type only exported types are collected. *)
Lemma collectReferencedTypes_exported fuel :
  forall t typeSet,
  t ∈ all -> exported t -> Forall exported typeSet ->
  Forall exported (collectReferencedTypes fuel all t typeSet).
Proof.
  induction fuel as [| fuel IH]; intros t typeSet Ht Hexported Hset; [exact Hset |].
  simpl. destruct (typeSet_has typeSet t); [exact Hset |].
  assert (Hrefs : forall name, name ∈ referencedTypes t -> isExportedName name = true)
    by (intros name; apply (closed t name Ht Hexported)).
  assert (Hstart : Forall exported (typeSet ++ [t])).
  { apply Forall_app. split; [exact Hset | constructor; [exact Hexported | constructor]]. }
  revert Hrefs Hstart. generalize (typeSet ++ [t]).
  induction (referencedTypes t) as [| name names IHnames]; intros set Hrefs Hstart;
    [exact Hstart |].
  cbn [fold_left]. apply IHnames.
  - intros n Hn. apply Hrefs, list_elem_of_further, Hn.
  - destruct (typeNamed all name) as [r |] eqn:Hr; [| exact Hstart].
    apply typeNamed_Some in Hr as [Hin Hname]. apply IH; [exact Hin | | exact Hstart].
    rewrite Hname. apply Hrefs, list_elem_of_here.
Qed.

Lemma collectReference_exported fuel typeSet name :
  isExportedName name = true -> Forall exported typeSet ->
  Forall exported (collectReference fuel all typeSet name).
Proof.
  intros Hname Hset. unfold collectReference.
  destruct (typeNamed all name) as [r |] eqn:Hr; [| exact Hset].
  apply typeNamed_Some in Hr as [Hin Hr].
  apply collectReferencedTypes_exported; [exact Hin | rewrite Hr; exact Hname | exact Hset].
Qed.

Lemma collectReferences_exported fuel names :
  forall typeSet,
  Forall (fun name => isExportedName name = true) names -> Forall exported typeSet ->
  Forall exported (fold_left (collectReference fuel all) names typeSet).
Proof.
  induction names as [| name names IH]; intros typeSet Hnames Hset; [exact Hset |].
  apply Forall_cons in Hnames as [Hname Hnames]. cbn [fold_left].
  apply IH; [exact Hnames | apply collectReference_exported; assumption].
Qed.

Lemma typeSet_delete_exported typeSet t :
  Forall exported typeSet -> Forall exported (typeSet_delete typeSet t).
Proof.
  intros H. apply List.Forall_forall. intros u [Hu _]%filter_In.
  apply (proj1 (List.Forall_forall _ _) H u Hu).
Qed.

(** When the types of the configuration are exported types of [all],
    and the root types and the arguments of its directives refer to
    exported types, every type of the type map is exported. *)
Lemma collectTypes_exported config :
  Forall (fun t => t ∈ all /\ exported t) (typeMap config) ->
  Forall (fun name => isExportedName name = true)
    (option_list (queryType config) ++ option_list (mutationType config) ++
     option_list (subscriptionType config)) ->
  Forall (fun name => isExportedName name = true)
    (directive ← directives config;
     (fun arg => snd (getNamedType (a_type arg))) <$> d_args directive) ->
  Forall exported (collectTypes all config).
Proof.
  intros Htypes Hroots Hdirectives. unfold collectTypes.
  apply collectReference_exported; [reflexivity |].
  apply collectReferences_exported; [exact Hdirectives |].
  apply collectReferences_exported; [exact Hroots |].
  assert (Hstart : Forall exported (typeMap config)).
  { apply (Forall_impl _ _ _ Htypes). intros t [_ H]. exact H. }
  assert (Hgen : forall types typeSet,
            Forall (fun t => t ∈ all /\ exported t) types -> Forall exported typeSet ->
            Forall exported
              (fold_left
                 (fun typeSet type =>
                    collectReferencedTypes (S (length all)) all type
                      (typeSet_delete typeSet type))
                 types typeSet)).
  { intros types typeSet Hall. revert typeSet.
    induction Hall as [| t types [Hin Hexported] _ IH]; intros typeSet Hset; [exact Hset |].
    cbn [fold_left]. apply IH.
    apply collectReferencedTypes_exported; [exact Hin | exact Hexported |].
    apply typeSet_delete_exported, Hset. }
  apply Hgen; assumption.
Qed.

End Collected.

(** A type whose references the set has is added alone. *)
Lemma collectReferencedTypes_alone fuel all t typeSet :
  typeSet_has typeSet t = false ->
  (forall name r, name ∈ referencedTypes t -> typeNamed all name = Some r ->
                  typeSet_has (typeSet ++ [t]) r = true) ->
  collectReferencedTypes (S fuel) all t typeSet = typeSet ++ [t].
Proof.
  intros Hnew Hrefs. simpl. rewrite Hnew.
  induction (referencedTypes t) as [| name names IH]; [reflexivity |].
  cbn [fold_left].
  destruct (typeNamed all name) as [r |] eqn:Hr.
  - rewrite collectReferencedTypes_has by (apply (Hrefs name r); [apply list_elem_of_here | exact Hr]).
    apply IH. intros n r' Hn. apply Hrefs, list_elem_of_further, Hn.
  - apply IH. intros n r' Hn. apply Hrefs, list_elem_of_further, Hn.
Qed.

Lemma collectReferences_known fuel all names typeSet :
  (forall name r, name ∈ names -> typeNamed all name = Some r -> typeSet_has typeSet r = true) ->
  fold_left (collectReference fuel all) names typeSet = typeSet.
Proof.
  induction names as [| name names IH]; intros Hknown; [reflexivity |].
  cbn [fold_left]. unfold collectReference at 2.
  destruct (typeNamed all name) as [r |] eqn:Hr.
  - rewrite collectReferencedTypes_has by (apply (Hknown name r); [apply list_elem_of_here | exact Hr]).
    apply IH. intros n r' Hn. apply Hknown, list_elem_of_further, Hn.
  - apply IH. intros n r' Hn. apply Hknown, list_elem_of_further, Hn.
Qed.

Lemma typeSet_delete_head t typeSet :
  t_name t ∉ t_name <$> typeSet -> typeSet_delete (t :: typeSet) t = typeSet.
Proof.
  intros Hfresh. unfold typeSet_delete. cbn [List.filter].
  rewrite String.eqb_refl. cbn [negb]. apply filter_all, List.Forall_forall.
  intros u Hu. apply negb_true_iff, String.eqb_neq. intros Heq. apply Hfresh.
  rewrite <- Heq. apply list_elem_of_fmap_2, list_elem_of_In, Hu.
Qed.

(** When the types of the configuration have distinct names and every
    reference stands for one of them, the constructor keeps the types
    of the configuration, in their order. *)
Lemma collectTypes_closed all config :
  NoDup (t_name <$> typeMap config) ->
  (forall name r,
     name ∈ (t ← typeMap config; referencedTypes t) ++
            (option_list (queryType config) ++ option_list (mutationType config) ++
             option_list (subscriptionType config)) ++
            (directive ← directives config;
             (fun arg => snd (getNamedType (a_type arg))) <$> d_args directive) ++
            ["__Schema"] ->
     typeNamed all name = Some r -> typeSet_has (typeMap config) r = true) ->
  collectTypes all config = typeMap config.
Proof.
  intros Hnodup Hknown. unfold collectTypes.
  assert (Hloop : fold_left
            (fun typeSet type =>
               collectReferencedTypes (S (length all)) all type (typeSet_delete typeSet type))
            (typeMap config) (typeMap config) = typeMap config).
  { assert (Hgen : forall done todo,
              typeMap config = done ++ todo ->
              fold_left
                (fun typeSet type =>
                   collectReferencedTypes (S (length all)) all type
                     (typeSet_delete typeSet type))
                todo (todo ++ done) = typeMap config).
    { intros done todo. revert done.
      induction todo as [| t todo IH]; intros done Hsplit.
      - rewrite app_nil_r in Hsplit. symmetry. exact Hsplit.
      - cbn [fold_left]. rewrite <- app_comm_cons.
        assert (Hfresh : t_name t ∉ t_name <$> (todo ++ done)).
        { rewrite Hsplit, fmap_app, fmap_cons in Hnodup.
          apply NoDup_app in Hnodup as (_ & Hdisjoint & Hrest).
          apply NoDup_cons in Hrest as [Hrest _].
          rewrite fmap_app. intros [Hin | Hin]%elem_of_app; [contradiction |].
          apply (Hdisjoint _ Hin), list_elem_of_here. }
        rewrite (typeSet_delete_head _ _ Hfresh).
        rewrite collectReferencedTypes_alone.
        + rewrite <- app_assoc. apply (IH (done ++ [t])).
          rewrite <- app_assoc. exact Hsplit.
        + apply not_true_iff_false. rewrite typeSet_has_elem. exact Hfresh.
        + intros name r Hname Hr.
          assert (Hhas : typeSet_has (typeMap config) r = true).
          { apply (Hknown name r); [| exact Hr].
            apply elem_of_app. left. apply list_elem_of_bind. exists t.
            split; [exact Hname |]. rewrite Hsplit. apply elem_of_app. right.
            apply list_elem_of_here. }
          apply typeSet_has_elem in Hhas. apply typeSet_has_elem.
          rewrite Hsplit in Hhas. rewrite !fmap_app, !elem_of_app in *.
          rewrite fmap_cons, elem_of_cons in Hhas. rewrite fmap_cons, elem_of_cons, elem_of_nil.
          tauto. }
    rewrite <- (Hgen [] (typeMap config) eq_refl) at 3. rewrite app_nil_r. reflexivity. }
  rewrite Hloop.
  rewrite (collectReferences_known _ _ (option_list _ ++ _) (typeMap config)).
  2:{ intros name r Hname. apply Hknown. rewrite !elem_of_app in *. tauto. }
  rewrite (collectReferences_known _ _ _ (typeMap config)).
  2:{ intros name r Hname. apply Hknown. rewrite !elem_of_app. tauto. }
  unfold collectReference.
  destruct (typeNamed all "__Schema") as [r |] eqn:Hr; [| reflexivity].
  apply collectReferencedTypes_has, (Hknown "__Schema" r); [| exact Hr].
  rewrite !elem_of_app. do 3 right. apply list_elem_of_here.
Qed.

Lemma references_shape (types types' : list GraphQLNamedType) :
  eraseFederation <$> types' = eraseFederation <$> types ->
  (t ← types'; referencedTypes t) = (t ← types; referencedTypes t).
Proof.
  revert types. induction types' as [| t' types' IH]; intros [| t types] H;
    try discriminate; [reflexivity |].
  rewrite !fmap_cons in H.
  pose proof (f_equal head H) as Ht. pose proof (f_equal tail H) as Hrest.
  cbn [head tail] in Ht, Hrest. apply (inj Some) in Ht.
  rewrite !bind_cons, (referencedTypes_shape _ _ Ht), (IH _ Hrest). reflexivity.
Qed.

Lemma names_shape (types types' : list GraphQLNamedType) :
  eraseFederation <$> types' = eraseFederation <$> types ->
  t_name <$> types' = t_name <$> types.
Proof.
  intros H. apply (f_equal (fmap t_name)) in H.
  rewrite <- !list_fmap_compose in H. exact H.
Qed.

Lemma NoDup_filter_names (f : GraphQLNamedType -> bool) types :
  NoDup (t_name <$> types) -> NoDup (t_name <$> List.filter f types).
Proof.
  induction types as [| t types IH]; [intros _; constructor |].
  rewrite fmap_cons. intros [Hfresh Hnodup]%NoDup_cons.
  cbn [List.filter]. destruct (f t); [| apply IH, Hnodup].
  rewrite fmap_cons. apply NoDup_cons. split; [| apply IH, Hnodup].
  intros Hin. apply Hfresh. apply list_elem_of_fmap in Hin as (u & Hname & Hu).
  apply list_elem_of_In, filter_In in Hu as [Hu _].
  rewrite Hname. apply list_elem_of_fmap_2, list_elem_of_In, Hu.
Qed.

(** When the types of the schema have distinct names and no element
    of the API schema refers to a type of the [core] or [join]
    feature, the constructor keeps the types it is given. *)
Lemma collectTypes_api schema types node graphMap :
  eraseFederation <$> types = eraseFederation <$> typeMap schema ->
  NoDup (t_name <$> typeMap schema) ->
  apiIsClosed schema ->
  collectTypes types
    {| astNode := node;
       directives := List.filter (fun d => isExported (DirectiveElement d)) (directives schema);
       typeMap := List.filter (fun t => isExported (TypeElement t)) types;
       queryType := queryType schema;
       mutationType := mutationType schema;
       subscriptionType := subscriptionType schema;
       graphs := graphMap |}
  = List.filter (fun t => isExported (TypeElement t)) types.
Proof.
  intros Hshape Hnodup Hclosed.
  rewrite (collectTypes_closed types); cbn [typeMap directives queryType mutationType
                                             subscriptionType]; [reflexivity | |].
  - rewrite (names_shape _ _ (shape_filter _ _ Hshape)). apply NoDup_filter_names, Hnodup.
  - intros name r Hname [Hr Hrname]%typeNamed_Some.
    assert (Hexported : isExportedName name = true).
    { rewrite (references_shape _ _ (shape_filter _ _ Hshape)) in Hname.
      unfold apiIsClosed, apiReferences in Hclosed.
      rewrite List.Forall_forall in Hclosed.
      rewrite !elem_of_app in Hname.
      destruct Hname as [Hname | [Hname | [Hname | Hname]]].
      - apply Hclosed, list_elem_of_In. rewrite !elem_of_app. auto.
      - apply Hclosed, list_elem_of_In. rewrite !elem_of_app. auto.
      - apply Hclosed, list_elem_of_In. rewrite !elem_of_app. auto.
      - apply list_elem_of_singleton in Hname. subst name. reflexivity. }
    apply typeSet_has_elem, list_elem_of_fmap_2, list_elem_of_In, filter_In.
    split; [apply list_elem_of_In, Hr |].
    rewrite isExported_type_name, Hrname. exact Hexported.
Qed.

(** *** What a document that is read went through *)

Lemma buildComposedSchema_Ok_inv document result :
  buildComposedSchema document = Ok result ->
  exists schema coreDirective schemaDirectives coreDirectivesArgs
         ownerDirective typeDirective fieldDirective graphDirective
         graphEnumType graphMap types,
    buildASTSchema document = Ok schema /\
    getDirective schema coreName = Some coreDirective /\
    astNode schema = Some schemaDirectives /\
    getArgumentValuesForRepeatableDirective (typeMap schema) coreDirective schemaDirectives
      = Ok coreDirectivesArgs /\
    forEach (checkFeature schema) coreDirectivesArgs = Ok tt /\
    getJoinDirective schema "owner" = Ok ownerDirective /\
    getJoinDirective schema "type" = Ok typeDirective /\
    getJoinDirective schema "field" = Ok fieldDirective /\
    getJoinDirective schema "graph" = Ok graphDirective /\
    isEnumType (getType schema (joinName +:+ "__Graph")) = Some graphEnumType /\
    forEachWith (addGraph schema graphEnumType graphDirective) (t_values graphEnumType) ∅
      = Ok graphMap /\
    forEachUpdate (processType schema ownerDirective typeDirective fieldDirective graphMap)
      (typeMap schema) = Ok types /\
    result =
      newGraphQLSchema types
        {| astNode := astNode schema;
           directives := List.filter (fun d => isExported (DirectiveElement d))
                           (directives schema);
           typeMap := List.filter (fun t => isExported (TypeElement t)) types;
           queryType := queryType schema;
           mutationType := mutationType schema;
           subscriptionType := subscriptionType schema;
           graphs := Some graphMap |}.
Proof.
  unfold buildComposedSchema. intros H.
  apply bind_Ok in H as (schema & Hschema & H).
  apply bind_Ok in H as (coreDirective & Hcore%assert_Ok & H).
  apply bind_Ok in H as (schemaDirectives & Hdefinition & H).
  apply bind_Ok in H as (coreDirectivesArgs & Hargs & H).
  apply bind_Ok in H as ([] & Hfeatures & H).
  apply bind_Ok in H as (ownerDirective & Howner & H).
  apply bind_Ok in H as (typeDirective & Htype & H).
  apply bind_Ok in H as (fieldDirective & Hfield & H).
  apply bind_Ok in H as (graphDirective & Hgraph & H).
  apply bind_Ok in H as (graphEnumType & Henum%assert_Ok & H).
  apply bind_Ok in H as (graphMap & Hmap & H).
  apply bind_Ok in H as (types & Htypes & H).
  injection H as <-.
  exists schema, coreDirective, schemaDirectives, coreDirectivesArgs,
    ownerDirective, typeDirective, fieldDirective, graphDirective, graphEnumType,
    graphMap, types.
  unfold directivesOf in Hdefinition.
  destruct (astNode schema) as [node |]; [| discriminate]. injection Hdefinition as ->.
  auto 14.
Qed.

(** *** The API schema *)

(** C7 (as amended). The schema [buildComposedSchema] returns holds no
    directive named [core] or [join] or whose name starts with
    [core__] or [join__].  When no type and no directive of the API
    schema, and no root type, refers to a type of the [core] or [join]
    feature, it holds no named type whose name starts with [core__] or
    [join__] either. *)
Theorem api_schema_hides_core_and_join document schema result :
  buildASTSchema document = Ok schema ->
  buildComposedSchema document = Ok result ->
  Forall (fun d => d_name d <> "core" /\ d_name d <> "join" /\
                   startsWith (d_name d) "core__" = false /\
                   startsWith (d_name d) "join__" = false) (directives result) /\
  (apiIsClosed schema ->
   Forall (fun t => startsWith (t_name t) "core__" = false /\
                    startsWith (t_name t) "join__" = false) (typeMap result)).
Proof.
  intros Hschema H. apply buildComposedSchema_Ok_inv in H
    as (schema' & coreDirective & schemaDirectives & coreDirectivesArgs &
        ownerDirective & typeDirective & fieldDirective & graphDirective &
        graphEnumType & graphMap & types &
        Hschema' & _ & _ & _ & _ & _ & _ & _ & _ & _ & _ & Htypes & ->).
  rewrite Hschema in Hschema'. injection Hschema' as <-.
  apply processTypes_shape in Htypes.
  split.
  - apply List.Forall_forall. intros d [_ Hd]%filter_In. apply isExported_directive, Hd.
  - intros Hclosed. unfold apiIsClosed, apiReferences in Hclosed.
    apply Forall_app in Hclosed as [Hreferences Hclosed].
    apply Forall_app in Hclosed as [Hdirectives Hroots].
    cbn [typeMap newGraphQLSchema].
    eapply Forall_impl.
    + apply (collectTypes_exported types).
      * intros t name Ht Hexported Hname.
        destruct (shape_elem _ _ _ Htypes Ht) as (t0 & Ht0 & Hshape).
        rewrite (referencedTypes_shape _ _ Hshape) in Hname.
        apply (proj1 (List.Forall_forall _ _) Hreferences name).
        apply list_elem_of_In, list_elem_of_bind. exists t0. split; [exact Hname |].
        apply list_elem_of_In, filter_In. split; [apply list_elem_of_In, Ht0 |].
        rewrite <- (isExported_shape _ _ Hshape). exact Hexported.
      * cbn [typeMap]. apply List.Forall_forall. intros t [Ht Hexported]%filter_In.
        split; [apply list_elem_of_In, Ht | exact Hexported].
      * exact Hroots.
      * exact Hdirectives.
    + intros t Hexported. apply isExported_type. exact Hexported.
Qed.

(** *** The feature check *)

Lemma checkFeature_eq schema args :
  checkFeature schema args =
  if isUnsupportedFeature (argument "feature" args)
  then Throw (unsupportedFeatureError schema args)
  else Ok tt.
Proof. reflexivity. Qed.

(** An application that gives an unsupported feature is coerced, if
    it is, to an unsupported feature. *)
Lemma declaresUnsupportedFeature_coerced types coreDirective node args :
  declaresUnsupportedFeature node = true ->
  getArgumentValues types coreDirective node = Ok args ->
  isUnsupportedFeature (argument "feature" args) = true.
Proof.
  unfold declaresUnsupportedFeature. intros [_ Hfeature]%andb_true_iff Hargs.
  destruct (argument "feature" (dn_arguments node)) as [valueNode |] eqn:Hnode;
    [| discriminate].
  unfold isUnsupportedFeature in *.
  destruct (argument "feature" args) as [[| s | b | items] |] eqn:Hcoerced; try reflexivity.
  rewrite (getArgumentValues_string _ _ _ _ _ _ _ Hargs Hcoerced Hnode) in Hfeature.
  exact Hfeature.
Qed.

Lemma applicationsOf_elem directiveDef (definition : list DirectiveNode) node :
  node ∈ applicationsOf directiveDef definition <->
  node ∈ definition /\ dn_name node = d_name directiveDef.
Proof.
  unfold applicationsOf. rewrite list_elem_of_In, filter_In, <- list_elem_of_In.
  rewrite String.eqb_eq. reflexivity.
Qed.

(** C2 (as amended). When some [@core] application on the schema
    definition gives a feature other than
    [https://specs.apollo.dev/core/v0.1] and
    [https://specs.apollo.dev/join/v0.1], [buildComposedSchema] fails:
    with the failed assertion "Expected core schema, but can't find
    @core directive" when the schema does not define [@core]; with the
    error of graphql-js for an argument when a [@core] application does
    not fit the definition of [@core]; and otherwise with a
    [GraphQLError] whose message is "Unsupported core schema feature
    and/or version: " followed by the unsupported feature of an
    application, which points at the schema definition and carries no
    error code.  When every [@core] application is coerced to one of
    the two features, the feature check passes.  When [@core] is
    defined with the one argument [feature: String!] and every
    application gives a string, the error is the one for the feature
    of an application that gives an unsupported one, and when every
    application gives one of the two features, the applications are
    coerced and the feature check passes. *)
Theorem unsupported_feature_fails_ingest document schema definition :
  buildASTSchema document = Ok schema ->
  astNode schema = Some definition ->
  ((exists node, node ∈ definition /\ declaresUnsupportedFeature node = true) ->
   exists e,
     buildComposedSchema document = Throw e /\
     ((getDirective schema coreName = None /\
       e = AssertionError "Expected core schema, but can't find @core directive") \/
      (exists coreDirective node,
         getDirective schema coreName = Some coreDirective /\
         node ∈ applicationsOf coreDirective definition /\
         getArgumentValues (typeMap schema) coreDirective node = Throw e /\
         isCoercionException e) \/
      (exists coreDirective node args,
         getDirective schema coreName = Some coreDirective /\
         node ∈ applicationsOf coreDirective definition /\
         getArgumentValues (typeMap schema) coreDirective node = Ok args /\
         isUnsupportedFeature (argument "feature" args) = true /\
         e = unsupportedFeatureError schema args))) /\
  (forall coreDirective coreDirectivesArgs,
     getDirective schema coreName = Some coreDirective ->
     getArgumentValuesForRepeatableDirective (typeMap schema) coreDirective definition
       = Ok coreDirectivesArgs ->
     (forall args, args ∈ coreDirectivesArgs ->
                   isUnsupportedFeature (argument "feature" args) = false) ->
     forEach (checkFeature schema) coreDirectivesArgs = Ok tt) /\
  (forall coreDirective,
     getDirective schema coreName = Some coreDirective ->
     d_args coreDirective =
       [ {| a_name := "feature"; a_type := GraphQLNonNull (GraphQLNamed ScalarKind "String");
            a_defaultValue := None |} ] ->
     Forall (fun node => exists s, argument "feature" (dn_arguments node) = Some (StringValue s))
       (applicationsOf coreDirective definition) ->
     (exists node, node ∈ definition /\ declaresUnsupportedFeature node = true) ->
     exists node s,
       node ∈ definition /\ declaresUnsupportedFeature node = true /\
       argument "feature" (dn_arguments node) = Some (StringValue s) /\
       buildComposedSchema document =
       Throw (GraphQLException
                {| message := "Unsupported core schema feature and/or version: " +:+ s;
                   nodes := Some (SchemaDefinitionNode definition);
                   code := None |})) /\
  (forall coreDirective,
     getDirective schema coreName = Some coreDirective ->
     d_args coreDirective =
       [ {| a_name := "feature"; a_type := GraphQLNonNull (GraphQLNamed ScalarKind "String");
            a_defaultValue := None |} ] ->
     Forall (fun node =>
               exists s, argument "feature" (dn_arguments node) = Some (StringValue s) /\
                         (s = "https://specs.apollo.dev/core/v0.1" \/
                          s = "https://specs.apollo.dev/join/v0.1"))
       (applicationsOf coreDirective definition) ->
     exists coreDirectivesArgs,
       getArgumentValuesForRepeatableDirective (typeMap schema) coreDirective definition
         = Ok coreDirectivesArgs /\
       forEach (checkFeature schema) coreDirectivesArgs = Ok tt).
Proof.
  intros Hschema Hdefinition.
  assert (Hstring : forall coreDirective node s,
            d_args coreDirective =
              [ {| a_name := "feature";
                   a_type := GraphQLNonNull (GraphQLNamed ScalarKind "String");
                   a_defaultValue := None |} ] ->
            argument "feature" (dn_arguments node) = Some (StringValue s) ->
            getArgumentValues (typeMap schema) coreDirective node
            = Ok [("feature", VString s)]).
  { intros coreDirective node s Hdeclared Hs.
    unfold getArgumentValues. rewrite Hdeclared. cbn [forEachWith].
    unfold coerceArgument. cbn [a_name a_type]. rewrite Hs. reflexivity. }
  assert (Hthrows : forall coreDirective,
            getDirective schema coreName = Some coreDirective ->
            (exists node, node ∈ definition /\ declaresUnsupportedFeature node = true) ->
            exists e,
              buildComposedSchema document = Throw e /\
              ((exists node,
                  node ∈ applicationsOf coreDirective definition /\
                  getArgumentValues (typeMap schema) coreDirective node = Throw e /\
                  isCoercionException e) \/
               (exists node args,
                  node ∈ applicationsOf coreDirective definition /\
                  getArgumentValues (typeMap schema) coreDirective node = Ok args /\
                  isUnsupportedFeature (argument "feature" args) = true /\
                  e = unsupportedFeatureError schema args))).
  { intros coreDirective Hcore (node & Hnode & Hunsupported).
    pose proof (getDirective_name _ _ _ Hcore) as Hname.
    unfold buildComposedSchema. rewrite Hschema. cbn [mbind Result_bind].
    rewrite Hcore, Hdefinition. cbn [assert directivesOf mbind Result_bind].
    destruct (getArgumentValuesForRepeatableDirective (typeMap schema) coreDirective
                definition) as [coreDirectivesArgs | e] eqn:Hargs; cbn [mbind Result_bind].
    - assert (Happlied : node ∈ applicationsOf coreDirective definition).
      { apply applicationsOf_elem. split; [exact Hnode |]. rewrite Hname.
        unfold declaresUnsupportedFeature in Hunsupported.
        apply andb_true_iff in Hunsupported as [H _]. apply String.eqb_eq, H. }
      destruct (proj2 (mapResult_elem _ _ _ Hargs) node Happlied) as (args & Hin & Hcoerced).
      destruct (forEach_Throw (checkFeature schema) coreDirectivesArgs args
                  (unsupportedFeatureError schema args) Hin)
        as (args' & e & Hin' & Hthrow & Hloop).
      { rewrite checkFeature_eq,
          (declaresUnsupportedFeature_coerced _ _ _ _ Hunsupported Hcoerced). reflexivity. }
      exists e. rewrite Hloop. split; [reflexivity |]. right.
      destruct (proj1 (mapResult_elem _ _ _ Hargs) args' Hin') as (node' & Happlied' & Hcoerced').
      exists node', args'. rewrite checkFeature_eq in Hthrow.
      destruct (isUnsupportedFeature (argument "feature" args')); [| discriminate].
      injection Hthrow as <-. auto.
    - exists e. split; [reflexivity |]. left.
      destruct (getArgumentValuesForRepeatableDirective_Throw _ _ _ _ Hargs)
        as (node' & Happlied' & Hthrow).
      exists node'. split; [exact Happlied' |]. split; [exact Hthrow |].
      apply (getArgumentValues_Throw _ _ _ _ Hthrow). }
  split; [| split; [| split]].
  - intros Hunsupported.
    destruct (getDirective schema coreName) as [coreDirective |] eqn:Hcore.
    + destruct (Hthrows coreDirective eq_refl Hunsupported) as (e & He & Hcases).
      exists e. split; [exact He |]. right.
      destruct Hcases as [(node & H) | (node & args & H)]; [left | right]; eauto.
    + exists (AssertionError "Expected core schema, but can't find @core directive").
      split; [| left; auto].
      unfold buildComposedSchema. rewrite Hschema. cbn [mbind Result_bind].
      rewrite Hcore. reflexivity.
  - intros coreDirective coreDirectivesArgs _ _ Hall. apply forEach_Ok.
    intros args Hargs. rewrite checkFeature_eq, (Hall args Hargs). reflexivity.
  - intros coreDirective Hcore Hdeclared Hstrings Hunsupported.
    assert (Hcoerced : forall node,
              node ∈ applicationsOf coreDirective definition ->
              exists s, argument "feature" (dn_arguments node) = Some (StringValue s) /\
                        getArgumentValues (typeMap schema) coreDirective node
                        = Ok [("feature", VString s)]).
    { intros node Hnode.
      destruct (proj1 (List.Forall_forall _ _) Hstrings node (proj1 (list_elem_of_In _ _) Hnode))
        as (s & Hs).
      exists s. split; [exact Hs | apply (Hstring _ _ _ Hdeclared Hs)]. }
    destruct (Hthrows coreDirective Hcore Hunsupported) as (e & He & Hcases).
    destruct Hcases as [(node & Happlied & Hthrow & _) | (node & args & Happlied & Hargs & Hfeature & ->)].
    + destruct (Hcoerced node Happlied) as (s & _ & Hok). congruence.
    + destruct (Hcoerced node Happlied) as (s & Hs & Hok).
      rewrite Hok in Hargs. injection Hargs as <-.
      exists node, s. apply applicationsOf_elem in Happlied as [Hnode Hname].
      split; [exact Hnode |]. split; [| split; [exact Hs |]].
      * unfold declaresUnsupportedFeature. rewrite Hs, Hname, (getDirective_name _ _ _ Hcore).
        exact Hfeature.
      * rewrite He. unfold unsupportedFeatureError. rewrite Hdefinition. reflexivity.
  - intros coreDirective Hcore Hdeclared Hsupported.
    exists ((fun node =>
               [("feature",
                 default VNull (valueFromASTUntyped <$> argument "feature" (dn_arguments node)))])
            <$> applicationsOf coreDirective definition).
    split.
    + apply mapResult_fmap. eapply Forall_impl; [exact Hsupported |].
      intros node (s & Hs & _). rewrite (Hstring _ _ _ Hdeclared Hs), Hs. reflexivity.
    + apply forEach_Ok. intros args (node & -> & Hnode)%list_elem_of_fmap.
      rewrite List.Forall_forall in Hsupported.
      destruct (Hsupported node (proj1 (list_elem_of_In _ _) Hnode)) as (s & Hs & Hcases).
      rewrite checkFeature_eq, Hs. destruct Hcases as [-> | ->]; reflexivity.
Qed.

(** *** The types loop *)

(** Once the directives, the graph enum and the graph map are found,
    the exception of the first type that fails is the exception of
    [buildComposedSchema]. *)
Lemma buildComposedSchema_type_throws document schema coreDirective schemaDirectives
    coreDirectivesArgs ownerDirective
    typeDirective fieldDirective graphDirective graphEnumType graphMap before type after e :
  buildASTSchema document = Ok schema ->
  getDirective schema coreName = Some coreDirective ->
  astNode schema = Some schemaDirectives ->
  getArgumentValuesForRepeatableDirective (typeMap schema) coreDirective schemaDirectives
    = Ok coreDirectivesArgs ->
  forEach (checkFeature schema) coreDirectivesArgs = Ok tt ->
  getJoinDirective schema "owner" = Ok ownerDirective ->
  getJoinDirective schema "type" = Ok typeDirective ->
  getJoinDirective schema "field" = Ok fieldDirective ->
  getJoinDirective schema "graph" = Ok graphDirective ->
  isEnumType (getType schema (joinName +:+ "__Graph")) = Some graphEnumType ->
  forEachWith (addGraph schema graphEnumType graphDirective) (t_values graphEnumType) ∅
    = Ok graphMap ->
  typeMap schema = before ++ type :: after ->
  Forall (fun t => exists t',
            processType schema ownerDirective typeDirective fieldDirective graphMap t = Ok t')
         before ->
  processType schema ownerDirective typeDirective fieldDirective graphMap type = Throw e ->
  buildComposedSchema document = Throw e.
Proof.
  intros Hschema Hcore Hdefinition Hargs Hfeatures Howner Htype Hfield Hgraph Henum Hmap
    Htypes Hbefore Hthrow.
  unfold buildComposedSchema.
  rewrite Hschema. cbn [mbind Result_bind].
  rewrite Hcore, Hdefinition. cbn [assert directivesOf mbind Result_bind].
  rewrite Hargs. cbn [mbind Result_bind].
  rewrite Hfeatures. cbn [mbind Result_bind].
  rewrite Howner, Htype, Hfield, Hgraph. cbn [mbind Result_bind].
  rewrite Henum. cbn [assert mbind Result_bind].
  rewrite Hmap. cbn [mbind Result_bind].
  rewrite Htypes, (forEachUpdate_Throw _ _ _ _ _ Hbefore Hthrow). reflexivity.
Qed.

(** *** Graphs that [join__Graph] does not name *)

Lemma addGraph_lookup schema graphEnumType graphDirective values :
  forall graphMap graphMap',
  forEachWith (addGraph schema graphEnumType graphDirective) values graphMap = Ok graphMap' ->
  forall s, is_Some (graphMap' !! s) <->
            is_Some (graphMap !! s) \/ s ∈ (v_name <$> values).
Proof.
  induction values as [|value values IH]; intros graphMap graphMap' H s.
  - injection H as <-. rewrite fmap_nil, elem_of_nil. tauto.
  - simpl in H. apply bind_Ok in H as (graphMap1 & Hadd & H).
    unfold addGraph in Hadd. apply bind_Ok in Hadd as (found & _ & Hadd).
    apply bind_Ok in Hadd as (args & _ & [= <-]).
    rewrite (IH _ _ H s), fmap_cons, elem_of_cons.
    destruct (decide (v_name value = s)) as [<- | Hne].
    + rewrite lookup_insert_eq. split; [auto | intros _; left; eauto].
    + rewrite lookup_insert_ne by exact Hne. split; [tauto |].
      intros [? | [-> | ?]]; [auto | contradiction | auto].
Qed.

Lemma namesGraphValue_elem graphEnumType s :
  namesGraphValue graphEnumType (Some (VString s)) = true <->
  s ∈ (v_name <$> t_values graphEnumType).
Proof.
  simpl. rewrite existsb_exists, list_elem_of_fmap. split.
  - intros (value & Hin & Heq). apply String.eqb_eq in Heq.
    exists value. rewrite list_elem_of_In. auto.
  - intros (value & -> & Hin). exists value. rewrite <- list_elem_of_In.
    split; [exact Hin | apply String.eqb_refl].
Qed.

Section GraphMap.
Local Arguments graphMap_get : simpl never.
Variables (schema : GraphQLSchema) (graphEnumType : GraphQLNamedType).
Variables (graphDirective : GraphQLDirective) (graphMap : gmap string Graph).
Hypothesis graphEnumType_found : getType schema "join__Graph" = Some graphEnumType.
Hypothesis graphMap_built :
  forEachWith (addGraph schema graphEnumType graphDirective) (t_values graphEnumType) ∅
  = Ok graphMap.

Lemma graphMap_get_unknown v :
  namesGraphValue graphEnumType v = false -> graphMap_get graphMap v = None.
Proof.
  destruct v as [[| s | b | items] |]; try reflexivity. intros Hunknown.
  unfold graphMap_get. apply eq_None_not_Some. intros Hsome.
  apply (addGraph_lookup _ _ _ _ _ _ graphMap_built) in Hsome as [Hempty | Hin].
  - rewrite lookup_empty in Hempty. by destruct Hempty.
  - apply namesGraphValue_elem in Hin. congruence.
Qed.

Lemma graphMap_get_known v :
  namesGraphValue graphEnumType v = true -> is_Some (graphMap_get graphMap v).
Proof.
  destruct v as [[| s | b | items] |]; try discriminate. intros Hknown.
  unfold graphMap_get.
  apply (addGraph_lookup _ _ _ _ _ _ graphMap_built). right.
  apply namesGraphValue_elem, Hknown.
Qed.

Lemma addKey_known type typeDirective owner keys :
  forall args,
  namesGraphValue graphEnumType (argument "graph" args) = true ->
  (exists fs, parseFieldSet (argument "key" args) = Ok fs) ->
  exists keys',
    addKey type typeDirective graphMap (FederationEntityTypeMetadata owner keys) args =
    Ok (FederationEntityTypeMetadata owner keys').
Proof.
  intros args Hknown (fs & Hfs). unfold addKey.
  destruct (graphMap_get_known _ Hknown) as (graph & ->). simpl.
  rewrite Hfs. simpl. eauto.
Qed.

Lemma addKey_unknown type typeDirective metadata args :
  namesGraphValue graphEnumType (argument "graph" args) = false ->
  addKey type typeDirective graphMap metadata args =
  Throw (AssertionError
           ("GraphQL type " +:+ dquote +:+ t_name type +:+ dquote +:+
            " must provide a `graph` argument to the @" +:+ d_name typeDirective +:+
            " directive")).
Proof.
  intros Hunknown. unfold addKey.
  rewrite (graphMap_get_unknown _ Hunknown). reflexivity.
Qed.

Lemma addKeys_known type typeDirective owner before :
  Forall (fun a => namesGraphValue graphEnumType (argument "graph" a) = true /\
                   exists fs, parseFieldSet (argument "key" a) = Ok fs) before ->
  forall keys, exists keys',
    forEachWith (addKey type typeDirective graphMap) before
      (FederationEntityTypeMetadata owner keys) =
    Ok (FederationEntityTypeMetadata owner keys').
Proof.
  induction 1 as [| args before [Hknown Hparsed] _ IH]; intros keys; simpl; [eauto |].
  destruct (addKey_known type typeDirective owner keys args Hknown Hparsed) as (keys1 & ->).
  simpl. apply IH.
Qed.

(** C9 (as amended). The [graph] argument of [@join__owner],
    [@join__type] and [@join__field] is coerced by graphql-js before it
    is looked up.  When the directive declares the argument with the
    enum [join__Graph] and an application gives an enum value that the
    enum does not have, coercion throws the [GraphQLError] "Argument
    "graph" has invalid value ...": for [@join__owner], for the first
    such [@join__type], and also for [@join__field], whose field then
    fails.  When the coerced value is no key of the graph map (the
    argument is declared with a type that does not check it, or it is
    absent or null), a [@join__owner] and the first such [@join__type]
    fail an assertion (on a type without [@join__owner], any
    [@join__type] fails an assertion before its graph is looked up),
    and a [@join__field] does not fail: the field gets federation
    metadata with [graphName] undefined, and [requires] and [provides]
    parsed as usual. *)
Theorem unknown_graph_in_join_directives ownerDirective typeDirective fieldDirective :
  (forall type node directiveNode value,
     isIntrospectionType type = false ->
     t_kind type = ObjectKind ->
     t_astNode type = Some node ->
     d_isRepeatable ownerDirective = false ->
     takesGraphFirst ownerDirective ->
     applicationOf ownerDirective node = Some directiveNode ->
     givesUnknownGraph graphEnumType directiveNode value ->
     processType schema ownerDirective typeDirective fieldDirective graphMap type =
     Throw (invalidValueError "graph" (EnumValue value))) /\
  (forall type node ownerArgs before directiveNode after value,
     isIntrospectionType type = false ->
     t_kind type = ObjectKind ->
     t_astNode type = Some node ->
     getArgumentValuesForDirective (typeMap schema) ownerDirective node = Ok ownerArgs ->
     from_option (fun args => namesGraphValue graphEnumType (argument "graph" args) = true)
       True ownerArgs ->
     takesGraphFirst typeDirective ->
     applicationsOf typeDirective node = before ++ directiveNode :: after ->
     Forall (fun application =>
               exists args, getArgumentValues (typeMap schema) typeDirective application
                            = Ok args) before ->
     givesUnknownGraph graphEnumType directiveNode value ->
     processType schema ownerDirective typeDirective fieldDirective graphMap type =
     Throw (invalidValueError "graph" (EnumValue value))) /\
  (forall type fieldDef node directiveNode value,
     f_astNode fieldDef = Some node ->
     d_isRepeatable fieldDirective = false ->
     takesGraphFirst fieldDirective ->
     applicationOf fieldDirective node = Some directiveNode ->
     givesUnknownGraph graphEnumType directiveNode value ->
     processField schema type fieldDirective graphMap fieldDef =
     Throw (invalidValueError "graph" (EnumValue value))) /\
  (forall type node args,
     isIntrospectionType type = false ->
     t_kind type = ObjectKind ->
     t_astNode type = Some node ->
     getArgumentValuesForDirective (typeMap schema) ownerDirective node = Ok (Some args) ->
     namesGraphValue graphEnumType (argument "graph" args) = false ->
     processType schema ownerDirective typeDirective fieldDirective graphMap type =
     Throw (AssertionError
              ("@" +:+ d_name ownerDirective +:+ " directive requires a `graph` argument"))) /\
  (forall type node ownerArgs before args after,
     isIntrospectionType type = false ->
     t_kind type = ObjectKind ->
     t_astNode type = Some node ->
     getArgumentValuesForDirective (typeMap schema) ownerDirective node = Ok (Some ownerArgs) ->
     namesGraphValue graphEnumType (argument "graph" ownerArgs) = true ->
     getArgumentValuesForRepeatableDirective (typeMap schema) typeDirective node
       = Ok (before ++ args :: after) ->
     Forall (fun a => namesGraphValue graphEnumType (argument "graph" a) = true /\
                      exists fs, parseFieldSet (argument "key" a) = Ok fs) before ->
     namesGraphValue graphEnumType (argument "graph" args) = false ->
     processType schema ownerDirective typeDirective fieldDirective graphMap type =
     Throw (AssertionError
              ("GraphQL type " +:+ dquote +:+ t_name type +:+ dquote +:+
               " must provide a `graph` argument to the @" +:+ d_name typeDirective +:+
               " directive"))) /\
  (forall type node typeDirectivesArgs,
     isIntrospectionType type = false ->
     t_kind type = ObjectKind ->
     t_astNode type = Some node ->
     getArgumentValuesForDirective (typeMap schema) ownerDirective node = Ok None ->
     getArgumentValuesForRepeatableDirective (typeMap schema) typeDirective node
       = Ok typeDirectivesArgs ->
     typeDirectivesArgs <> [] ->
     processType schema ownerDirective typeDirective fieldDirective graphMap type =
     Throw (AssertionError
              ("GraphQL type " +:+ dquote +:+ t_name type +:+ dquote +:+ " cannot have a @" +:+
               d_name typeDirective +:+ " directive without an @" +:+
               d_name ownerDirective +:+ " directive"))) /\
  (forall type fieldDef node args,
     f_astNode fieldDef = Some node ->
     getArgumentValuesForDirective (typeMap schema) fieldDirective node = Ok (Some args) ->
     namesGraphValue graphEnumType (argument "graph" args) = false ->
     processField schema type fieldDirective graphMap fieldDef =
     (requires ← parseFieldSetIfGiven (argument "requires" args);
      provides ← parseFieldSetIfGiven (argument "provides" args);
      Ok {| f_name := f_name fieldDef; f_type := f_type fieldDef;
            f_args := f_args fieldDef;
            f_astNode := f_astNode fieldDef;
            f_federation := Some {| graphName := None;
                                    requires := requires;
                                    provides := provides |} |})).
Proof.
  unfold getType in graphEnumType_found.
  split; [| split; [| split; [| split; [| split; [| split]]]]].
  - intros type node directiveNode value Hintro Hkind Hnode Hsingle Hfirst Happlied Hunknown.
    unfold processType. rewrite Hintro, Hkind, Hnode. cbn [assert mbind Result_bind].
    rewrite (getArgumentValuesForDirective_eq _ _ _ Hsingle), Happlied.
    rewrite (getArgumentValues_unknown_graph _ _ _ _ _ graphEnumType_found Hfirst Hunknown).
    reflexivity.
  - intros type node ownerArgs before directiveNode after value Hintro Hkind Hnode Howner
      Hknown Hfirst Happlied Hbefore Hunknown.
    unfold processType. rewrite Hintro, Hkind, Hnode. cbn [assert mbind Result_bind].
    rewrite Howner. cbn [mbind Result_bind].
    assert (Hthrow : getArgumentValuesForRepeatableDirective (typeMap schema) typeDirective
                       node = Throw (invalidValueError "graph" (EnumValue value))).
    { unfold getArgumentValuesForRepeatableDirective. fold (applicationsOf typeDirective node).
      rewrite Happlied. apply mapResult_Throw; [exact Hbefore |].
      apply (getArgumentValues_unknown_graph _ _ _ _ _ graphEnumType_found Hfirst Hunknown). }
    destruct ownerArgs as [ownerArgs |]; cbn [from_option] in Hknown.
    + destruct (graphMap_get_known _ Hknown) as (graph & ->). cbn [assert mbind Result_bind].
      rewrite Hthrow. reflexivity.
    + cbn [mbind Result_bind]. rewrite Hthrow. reflexivity.
  - intros type fieldDef node directiveNode value Hnode Hsingle Hfirst Happlied Hunknown.
    unfold processField. rewrite Hnode. cbn [assert mbind Result_bind].
    rewrite (getArgumentValuesForDirective_eq _ _ _ Hsingle), Happlied.
    rewrite (getArgumentValues_unknown_graph _ _ _ _ _ graphEnumType_found Hfirst Hunknown).
    reflexivity.
  - intros type node args Hintro Hkind Hnode Howner Hunknown.
    unfold processType. rewrite Hintro, Hkind, Hnode. cbn [assert mbind Result_bind].
    rewrite Howner. cbn [mbind Result_bind].
    rewrite (graphMap_get_unknown _ Hunknown). reflexivity.
  - intros type node ownerArgs before args after Hintro Hkind Hnode Howner Hknown
      Htypes Hbefore Hunknown.
    unfold processType. rewrite Hintro, Hkind, Hnode. cbn [assert mbind Result_bind].
    rewrite Howner. cbn [mbind Result_bind].
    destruct (graphMap_get_known _ Hknown) as (graph & ->). cbn [assert mbind Result_bind].
    rewrite Htypes. cbn [mbind Result_bind isEntityTypeMetadata orb assertTrue].
    rewrite forEachWith_app.
    destruct (addKeys_known type typeDirective (g_name graph) before Hbefore ∅)
      as (keys' & ->).
    simpl. rewrite (addKey_unknown _ _ _ _ Hunknown). reflexivity.
  - intros type node typeDirectivesArgs Hintro Hkind Hnode Howner Htypes Hnonempty.
    unfold processType. rewrite Hintro, Hkind, Hnode. cbn [assert mbind Result_bind].
    rewrite Howner. cbn [mbind Result_bind]. rewrite Htypes. cbn [mbind Result_bind].
    destruct typeDirectivesArgs; [contradiction | reflexivity].
  - intros type fieldDef node args Hnode Hfield Hunknown.
    unfold processField. rewrite Hnode. cbn [assert mbind Result_bind].
    rewrite Hfield. cbn [mbind Result_bind].
    rewrite (graphMap_get_unknown _ Hunknown). reflexivity.
Qed.

End GraphMap.

End ComposedSchemaProperties.

(** *** [buildComposedSchema] on the sample documents *)
Section ComposedSchemaSamples.
Import ComposedSchema Supergraph SchemaShape Samples.

(** Closed facts about a list that is computed. *)
Ltac computed :=
  match goal with
  | |- Forall ?P ?l =>
      let l' := eval vm_compute in l in
      change (Forall P l'); repeat constructor
  end.

Lemma sampleSupergraph_closed : apiIsClosed (build sampleSupergraph).
Proof. unfold apiIsClosed. computed. Qed.

(** The SDL of the sample supergraph is read, and what is returned
    holds no element of the [core] and [join] features. *)
Lemma api_schema_hides_core_and_join_witness :
  exists schema,
    buildComposedSchema (P := sampleParser) (build sampleSupergraph) = Ok schema /\
    t_name <$> typeMap schema = ["Query"; "Product"; "Review"; "User"; "Category"; "Node"] /\
    Forall (fun d => d_name d <> "core" /\ d_name d <> "join" /\
                     startsWith (d_name d) "core__" = false /\
                     startsWith (d_name d) "join__" = false) (directives schema) /\
    Forall (fun t => startsWith (t_name t) "core__" = false /\
                     startsWith (t_name t) "join__" = false) (typeMap schema).
Proof.
  assert (Hread : exists schema,
            buildComposedSchema (P := sampleParser) (build sampleSupergraph) = Ok schema /\
            t_name <$> typeMap schema
            = ["Query"; "Product"; "Review"; "User"; "Category"; "Node"])
    by (eexists; split; vm_compute; reflexivity).
  destruct Hread as (schema & Hread & Hnames).
  exists schema. split; [exact Hread |]. split; [exact Hnames |].
  destruct (api_schema_hides_core_and_join (P := sampleParser) (build sampleSupergraph)
              (build sampleSupergraph) schema eq_refl Hread) as [Hdirectives Htypes].
  split; [exact Hdirectives | exact (Htypes sampleSupergraph_closed)].
Defined.

(** C7 (counterexample).  [type Query { g: join__Graph }]: the document
    is read, and the schema that is returned holds the type
    [join__Graph], to which the field [Query.g] refers. *)
Lemma api_schema_hides_core_and_join_counterexample :
  exists result joinGraph,
    buildComposedSchema (P := sampleParser) leakingDocument = Ok result /\
    t_name <$> typeMap result = ["Query"; "join__Graph"] /\
    joinGraph ∈ typeMap result /\
    t_name joinGraph = "join__Graph" /\
    startsWith (t_name joinGraph) "join__" = true /\
    ~ Forall (fun t => startsWith (t_name t) "core__" = false /\
                       startsWith (t_name t) "join__" = false) (typeMap result).
Proof.
  assert (Hread : exists result,
            buildComposedSchema (P := sampleParser) leakingDocument = Ok result /\
            t_name <$> typeMap result = ["Query"; "join__Graph"])
    by (eexists; split; vm_compute; reflexivity).
  destruct Hread as (result & Hread & Hnames).
  destruct (typeMap result) as [| query [| joinGraph [|]]] eqn:Htypes; try discriminate Hnames.
  injection Hnames as Hquery HjoinGraph.
  exists result, joinGraph. split; [exact Hread |]. rewrite Htypes.
  split; [cbn; rewrite Hquery, HjoinGraph; reflexivity |].
  split; [apply list_elem_of_further, list_elem_of_here |].
  split; [exact HjoinGraph |]. rewrite HjoinGraph. split; [reflexivity |].
  intros Hall. apply Forall_cons in Hall as [_ Hall].
  apply Forall_cons in Hall as [[_ Hjoin] _]. rewrite HjoinGraph in Hjoin.
  discriminate Hjoin.
Qed.

(** C2 (counterexample).  A document that declares the feature
    [https://specs.apollo.dev/tag/v0.1] fails ingest with a
    [GraphQLError] that carries no code, so not the code
    [UNSUPPORTED_FEATURE]. *)
Lemma unsupported_feature_code_counterexample :
  astNode unsupportedFeatureDocument =
    Some [ coreDirectiveNode "https://specs.apollo.dev/core/v0.1";
           coreDirectiveNode "https://specs.apollo.dev/join/v0.1";
           tagFeature ] /\
  declaresUnsupportedFeature tagFeature = true /\
  exists e,
    buildComposedSchema (P := sampleParser) unsupportedFeatureDocument
      = Throw (GraphQLException e) /\
    message e = "Unsupported core schema feature and/or version: https://specs.apollo.dev/tag/v0.1" /\
    code e = None /\
    code e <> Some "UNSUPPORTED_FEATURE".
Proof.
  split; [reflexivity |]. split; [reflexivity |].
  eexists. split; [vm_compute; reflexivity |].
  split; [reflexivity |]. split; [reflexivity | discriminate].
Qed.

(** The document with the third feature fails with the error for that
    feature; on the sample document, whose schema definition gives the
    two features, the feature check passes. *)
Lemma unsupported_feature_fails_ingest_witness :
  (exists node s,
     node ∈ [ coreDirectiveNode "https://specs.apollo.dev/core/v0.1";
              coreDirectiveNode "https://specs.apollo.dev/join/v0.1";
              tagFeature ] /\
     declaresUnsupportedFeature node = true /\
     argument "feature" (dn_arguments node) = Some (StringValue s) /\
     buildComposedSchema (P := sampleParser) unsupportedFeatureDocument =
     Throw (GraphQLException
              {| message := "Unsupported core schema feature and/or version: " +:+ s;
                 nodes := Some (SchemaDefinitionNode
                                  [ coreDirectiveNode "https://specs.apollo.dev/core/v0.1";
                                    coreDirectiveNode "https://specs.apollo.dev/join/v0.1";
                                    tagFeature ]);
                 code := None |})) /\
  forEach (checkFeature (build sampleSupergraph))
    [ [("feature", VString "https://specs.apollo.dev/core/v0.1")];
      [("feature", VString "https://specs.apollo.dev/join/v0.1")] ] = Ok tt /\
  (exists coreDirectivesArgs,
     getArgumentValuesForRepeatableDirective (typeMap (build sampleSupergraph)) coreDirectiveDef
       [ coreDirectiveNode "https://specs.apollo.dev/core/v0.1";
         coreDirectiveNode "https://specs.apollo.dev/join/v0.1" ] = Ok coreDirectivesArgs /\
     forEach (checkFeature (build sampleSupergraph)) coreDirectivesArgs = Ok tt).
Proof.
  split; [| split].
  - destruct (unsupported_feature_fails_ingest (P := sampleParser)
                unsupportedFeatureDocument unsupportedFeatureDocument _ eq_refl eq_refl)
      as (_ & _ & Hdeclared & _).
    apply (Hdeclared coreDirectiveDef); [reflexivity | reflexivity | |].
    + unfold applicationsOf. computed; eexists; reflexivity.
    + exists tagFeature.
      split; [do 2 apply list_elem_of_further; apply list_elem_of_here | reflexivity].
  - destruct (unsupported_feature_fails_ingest (P := sampleParser)
                (build sampleSupergraph) (build sampleSupergraph) _ eq_refl eq_refl)
      as (_ & Hpasses & _).
    apply (Hpasses coreDirectiveDef); [reflexivity | reflexivity |].
    intros args Hargs. members Hargs; subst; reflexivity.
  - destruct (unsupported_feature_fails_ingest (P := sampleParser)
                (build sampleSupergraph) (build sampleSupergraph) _ eq_refl eq_refl)
      as (_ & _ & _ & Hsupported).
    apply (Hsupported coreDirectiveDef); [reflexivity | reflexivity |].
    unfold applicationsOf. computed; eexists; split; auto.
Defined.

Lemma sampleGraphMap_built schema :
  forEachWith (addGraph schema sampleGraphEnum joinGraphDef)
    (t_values sampleGraphEnum) ∅ = Ok sampleGraphMap.
Proof. vm_compute. reflexivity. Qed.

(** [INVENTORY] is no value of the sample [join__Graph].  With the
    directive definitions of the [join] specification it is rejected
    when the argument is coerced, on [@join__owner], on [@join__type]
    and on [@join__field], and the document fails.  With definitions
    that declare [graph] as a string, it makes [@join__owner] and
    [@join__type] fail their assertions, and on [@join__field] the
    field gets metadata without a graph name and the document is
    read. *)
Lemma unknown_graph_in_join_directives_witness :
  (processType (P := sampleParser) unknownOwnerGraph joinOwnerDef joinTypeDef joinFieldDef
     sampleGraphMap unknownOwnerType
   = Throw (invalidValueError "graph" (EnumValue "INVENTORY")) /\
   buildComposedSchema (P := sampleParser) unknownOwnerGraph
   = Throw (invalidValueError "graph" (EnumValue "INVENTORY"))) /\
  (processType (P := sampleParser) unknownTypeGraph joinOwnerDef joinTypeDef joinFieldDef
     sampleGraphMap unknownTypeType
   = Throw (invalidValueError "graph" (EnumValue "INVENTORY")) /\
   buildComposedSchema (P := sampleParser) unknownTypeGraph
   = Throw (invalidValueError "graph" (EnumValue "INVENTORY"))) /\
  (processField (P := sampleParser) unknownFieldGraph unknownFieldType joinFieldDef
     sampleGraphMap inStock
   = Throw (invalidValueError "graph" (EnumValue "INVENTORY")) /\
   buildComposedSchema (P := sampleParser) unknownFieldGraph
   = Throw (invalidValueError "graph" (EnumValue "INVENTORY"))) /\
  (processType (P := sampleParser) looseOwnerGraph looseOwnerDef looseTypeDef looseFieldDef
     sampleGraphMap looseOwnerType
   = Throw (AssertionError "@join__owner directive requires a `graph` argument") /\
   buildComposedSchema (P := sampleParser) looseOwnerGraph
   = Throw (AssertionError "@join__owner directive requires a `graph` argument")) /\
  (processType (P := sampleParser) looseTypeGraph looseOwnerDef looseTypeDef looseFieldDef
     sampleGraphMap looseTypeType
   = Throw (AssertionError
              ("GraphQL type " +:+ dquote +:+ "Product" +:+ dquote +:+
               " must provide a `graph` argument to the @join__type directive")) /\
   buildComposedSchema (P := sampleParser) looseTypeGraph
   = Throw (AssertionError
              ("GraphQL type " +:+ dquote +:+ "Product" +:+ dquote +:+
               " must provide a `graph` argument to the @join__type directive"))) /\
  (processField (P := sampleParser) looseFieldGraph looseFieldType looseFieldDef
     sampleGraphMap looseInStock
   = Ok {| f_name := "inStock"; f_type := f_type looseInStock; f_args := [];
           f_astNode := f_astNode looseInStock;
           f_federation := Some {| graphName := None;
                                   requires := Some [Field "upc" []; Field "sku" []];
                                   provides := None |} |} /\
   exists schema,
     buildComposedSchema (P := sampleParser) looseFieldGraph = Ok schema /\
     (f_federation <$> t_fields (productOf schema)) =
       [ None;
         Some {| graphName := None;
                 requires := Some [Field "upc" []; Field "sku" []];
                 provides := None |} ]).
Proof.
  pose proof (fun schema =>
    unknown_graph_in_join_directives (P := sampleParser)
      schema sampleGraphEnum joinGraphDef sampleGraphMap) as Hgraphs.
  split; [| split; [| split; [| split; [| split]]]].
  - split; [| vm_compute; reflexivity].
    destruct (Hgraphs unknownOwnerGraph eq_refl (sampleGraphMap_built _)
                joinOwnerDef joinTypeDef joinFieldDef) as (Howner & _).
    apply (Howner unknownOwnerType [unknownOwnerNode] unknownOwnerNode "INVENTORY");
      try reflexivity.
    + eexists _, _. repeat split.
    + split; reflexivity.
  - split; [| vm_compute; reflexivity].
    destruct (Hgraphs unknownTypeGraph eq_refl (sampleGraphMap_built _)
                joinOwnerDef joinTypeDef joinFieldDef) as (_ & Htype & _).
    apply (Htype unknownTypeType [productsOwnerNode; unknownTypeNode]
             (Some [("graph", VString "PRODUCTS")]) [] unknownTypeNode [] "INVENTORY");
      try reflexivity.
    + eexists _, _. repeat split.
    + constructor.
    + split; reflexivity.
  - split; [| vm_compute; reflexivity].
    destruct (Hgraphs unknownFieldGraph eq_refl (sampleGraphMap_built _)
                joinOwnerDef joinTypeDef joinFieldDef) as (_ & _ & Hfield & _).
    apply (Hfield unknownFieldType inStock [unknownFieldNode] unknownFieldNode "INVENTORY");
      try reflexivity.
    + eexists _, _. repeat split.
    + split; reflexivity.
  - split; [| vm_compute; reflexivity].
    destruct (Hgraphs looseOwnerGraph eq_refl (sampleGraphMap_built _)
                looseOwnerDef looseTypeDef looseFieldDef) as (_ & _ & _ & Howner & _).
    apply (Howner looseOwnerType
             [directiveNode "join__owner" [("graph", StringValue "INVENTORY")]]
             [("graph", VString "INVENTORY")]); reflexivity.
  - split; [| vm_compute; reflexivity].
    destruct (Hgraphs looseTypeGraph eq_refl (sampleGraphMap_built _)
                looseOwnerDef looseTypeDef looseFieldDef) as (_ & _ & _ & _ & Htype & _).
    apply (Htype looseTypeType
             [directiveNode "join__owner" [("graph", StringValue "PRODUCTS")];
              directiveNode "join__type"
                [("graph", StringValue "INVENTORY"); ("key", StringValue "upc")]]
             [("graph", VString "PRODUCTS")] []
             [("graph", VString "INVENTORY"); ("key", VString "upc")] []); try reflexivity.
    constructor.
  - split.
    + destruct (Hgraphs looseFieldGraph eq_refl (sampleGraphMap_built _)
                  looseOwnerDef looseTypeDef looseFieldDef) as (_ & _ & _ & _ & _ & _ & Hfield).
      rewrite (Hfield looseFieldType looseInStock
                 [directiveNode "join__field"
                    [("graph", StringValue "INVENTORY"); ("requires", StringValue "upc sku")]]
                 [("graph", VString "INVENTORY"); ("requires", VString "upc sku")]);
        reflexivity.
    + eexists. split; [vm_compute; reflexivity | reflexivity].
Defined.

(** C9 (counterexample).  With the directive definitions of the [join]
    specification, [@join__owner(graph: INVENTORY)] does not fail with
    an assertion error but with the [GraphQLError] of the coercion, and
    [@join__field(graph: INVENTORY, requires: "upc sku")] makes reading
    the document fail: no metadata is attached. *)
Lemma unknown_graph_in_join_directives_counterexample :
  (givesUnknownGraph sampleGraphEnum unknownOwnerNode "INVENTORY" /\
   buildComposedSchema (P := sampleParser) unknownOwnerGraph
   = Throw (invalidValueError "graph" (EnumValue "INVENTORY")) /\
   forall msg, buildComposedSchema (P := sampleParser) unknownOwnerGraph
               <> Throw (AssertionError msg)) /\
  (givesUnknownGraph sampleGraphEnum unknownFieldNode "INVENTORY" /\
   buildComposedSchema (P := sampleParser) unknownFieldGraph
   = Throw (invalidValueError "graph" (EnumValue "INVENTORY")) /\
   message_of (invalidValueError "graph" (EnumValue "INVENTORY"))
   = Some ("Argument " +:+ dquote +:+ "graph" +:+ dquote +:+ " has invalid value INVENTORY.") /\
   forall schema, buildComposedSchema (P := sampleParser) unknownFieldGraph <> Ok schema).
Proof.
  assert (Howner : buildComposedSchema (P := sampleParser) unknownOwnerGraph
                   = Throw (invalidValueError "graph" (EnumValue "INVENTORY")))
    by (vm_compute; reflexivity).
  assert (Hfield : buildComposedSchema (P := sampleParser) unknownFieldGraph
                   = Throw (invalidValueError "graph" (EnumValue "INVENTORY")))
    by (vm_compute; reflexivity).
  split.
  - split; [split; reflexivity |]. split; [exact Howner |].
    intros msg. rewrite Howner. discriminate.
  - split; [split; reflexivity |]. split; [exact Hfield |]. split; [reflexivity |].
    intros schema. rewrite Hfield. discriminate.
Qed.

End ComposedSchemaSamples.

(** ** The round trip through the supergraph SDL *)
Section RoundTrip.
Import ComposedSchema SchemaShape Supergraph.
Context {P : Parser}.
Local Arguments graphMap_get : simpl never.





(** *** Reading what the builder wrote

    [schema] is a schema whose type [join__Graph] is the enum of the
    graph table. *)
Section Rendered.
Variables (schema : GraphQLSchema) (table : list GraphEntry).
Hypothesis table_nodup : NoDup (ge_enumValue <$> table).
Hypothesis table_enum : typeNamed (typeMap schema) "join__Graph" = Some (joinGraphEnum table).






Section Keys.
Variables (type : GraphQLNamedType) (owner : option Value).

Local Abbreviation keyArgs subgraph :=
  (fun fs => [("graph", VString (enumValueOf table subgraph));
              ("key", VString (printFieldSet fs))]).




Local Abbreviation keyed :=
  (fun '(subgraph, fieldSets) => (Some (VString subgraph), fieldSets)).


End Keys.






End Rendered.

Lemma isExported_name t t' :
  t_name t' = t_name t ->
  isExported (TypeElement t) = true -> isExported (TypeElement t') = true.
Proof. unfold isExported, isAssociatedWithFeature. simpl. intros ->. auto. Qed.



(** *** The API schema of a composed supergraph *)

Lemma buildType_name table t : t_name (buildType table t) = typeName t.
Proof. destruct t; reflexivity. Qed.






Lemma composed_names S : Composed S -> NoDup (t_name <$> typeMap (build S)).
Proof.
  intros HS. cbn [build typeMap]. rewrite !fmap_cons, <- list_fmap_compose.
  assert (Hexported : forall name,
            name ∈ (t_name ∘ buildType (sg_graphs S)) <$> sg_types S ->
            isExportedName name = true).
  { intros name (t & -> & Ht)%list_elem_of_fmap.
    pose proof (composed_types S HS) as Htypes. rewrite List.Forall_forall in Htypes.
    destruct (Htypes t (proj1 (list_elem_of_In _ _) Ht)) as [Hexported _]. exact Hexported. }
  apply NoDup_cons. split; [| apply NoDup_cons; split].
  - intros [Heq | Hin]%elem_of_cons; [discriminate |].
    apply Hexported in Hin. discriminate.
  - intros Hin%Hexported. discriminate.
  - erewrite list_fmap_ext; [exact (composed_typeNames S HS) |].
    intros i t _. apply buildType_name.
Qed.



End RoundTrip.

(** *** The round trip on the sample supergraphs *)
Section RoundTripSamples.
Import ComposedSchema Supergraph Samples.



Lemma annotatedSupergraph_composed : Composed annotatedSupergraph.
Proof. split; unfold composedType, composedEntity, refersToExported; simpl; closed. Qed.

Lemma annotatedSupergraph_readable :
  Forall (Readable (P := sampleParser)) (fieldSetsOf annotatedSupergraph).
Proof. simpl. unfold Readable. closed. Qed.


(** Where [@join__field] is written on every field, all of the
    supergraph is read back as it is. *)
Example annotated_supergraph_round_trip :
  viewOfSchema <$> buildComposedSchema (P := sampleParser) (build annotatedSupergraph)
  = Ok (viewOfSupergraph annotatedSupergraph).
Proof. vm_compute. reflexivity. Qed.

End RoundTripSamples.

(** * Further properties *)

(** ** The validator [keyFieldsSelectInvalidType], continued *)
Section KeyValidationFurther.
Import PostComposition KeySelections.
Context {U : Utils}.

(** Every occurrence comes from a selected field of a key of a service
    on an object type of the schema. *)
Lemma keyFieldOccurrence_elim schema o :
  o ∈ keyFieldOccurrences schema ->
  exists typeName namedType metadata ks selectionSets,
    (typeName, namedType) ∈ getTypeMap schema /\
    kind namedType = ObjectKind /\
    getFederationMetadata namedType = Some metadata /\
    keys metadata = Some ks /\
    (occ_serviceName o, Some selectionSets) ∈ ks /\
    occ_selectionSet o ∈ selectionSets /\
    occ_field o ∈ occ_selectionSet o /\
    occ_typeName o = typeName /\ occ_fields o = getFields namedType.
Proof.
  unfold keyFieldOccurrences. intros ([typeName namedType] & Ho & Htype)%list_elem_of_bind.
  unfold occurrencesOfType in Ho. simpl in Ho.
  destruct (kind namedType) eqn:Hkind; try (by apply elem_of_nil in Ho).
  destruct (getFederationMetadata namedType) as [metadata |] eqn:Hmeta; simpl in Ho;
    [| by apply elem_of_nil in Ho].
  destruct (keys metadata) as [ks |] eqn:Hkeys; simpl in Ho; [| by apply elem_of_nil in Ho].
  apply list_elem_of_bind in Ho as ([serviceName selectionSets] & Ho & Hservice).
  destruct selectionSets as [selectionSets |]; simpl in Ho; [| by apply elem_of_nil in Ho].
  apply list_elem_of_bind in Ho as (selectionSet & Ho & Hset).
  apply list_elem_of_bind in Ho as (field & Ho & Hfield).
  apply list_elem_of_singleton in Ho. subst o. simpl.
  exists typeName, namedType, metadata, ks, selectionSets. auto 10.
Qed.

(** X1. No false positives: when every field that a [@key] field set
    of an object type selects exists on the composed type and its
    type, non-null wrapper removed, is neither an interface nor a
    union, the validator returns no error. *)
Theorem valid_keys_are_not_reported schema serviceList :
  (forall typeName namedType metadata ks serviceName selectionSets selectionSet field,
     (typeName, namedType) ∈ getTypeMap schema ->
     kind namedType = ObjectKind ->
     getFederationMetadata namedType = Some metadata ->
     keys metadata = Some ks ->
     (serviceName, Some selectionSets) ∈ ks ->
     selectionSet ∈ selectionSets ->
     field ∈ selectionSet ->
     exists matchingField,
       property (fieldName field) (getFields namedType) = Some matchingField /\
       isInterfaceType (getNullableType (f_type matchingField)) = false /\
       isUnionType (getNullableType (f_type matchingField)) = false) ->
  keyFieldsSelectInvalidType schema serviceList = [].
Proof.
  intros Hvalid. rewrite keyFieldsSelectInvalidType_collects.
  assert (Hnone : forall o, o ∈ keyFieldOccurrences schema -> reportOf serviceList o = []).
  { intros o Ho. apply reportOf_not_offending.
    destruct (keyFieldOccurrence_elim schema o Ho)
      as (typeName & namedType & metadata & ks & selectionSets &
          Htype & Hkind & Hmeta & Hkeys & Hservice & Hset & Hfield & _ & Hfields).
    destruct (Hvalid _ _ _ _ _ _ _ _ Htype Hkind Hmeta Hkeys Hservice Hset Hfield)
      as (matching & Hmatching & Hinterface & Hunion).
    unfold offending, selectsMissingField, selectsFieldOf, selectedField.
    rewrite Hfields, Hmatching, Hinterface, Hunion. reflexivity. }
  induction (keyFieldOccurrences schema) as [| o l IH]; [reflexivity |].
  rewrite bind_cons, (Hnone o), IH; [reflexivity | | apply list_elem_of_here].
  intros o' Ho'. apply Hnone, list_elem_of_further, Ho'.
Qed.

(** X2. The errors of a schema are the errors of its types, in the
    order of the type map: the validator distributes over the
    concatenation of type maps, and a type that is not an object type,
    or carries no federation metadata, or no keys, contributes
    nothing. *)
Theorem key_validation_is_per_type serviceList :
  (forall types1 types2,
     keyFieldsSelectInvalidType {| getTypeMap := types1 ++ types2 |} serviceList =
     keyFieldsSelectInvalidType {| getTypeMap := types1 |} serviceList ++
     keyFieldsSelectInvalidType {| getTypeMap := types2 |} serviceList) /\
  (forall typeName namedType,
     kind namedType <> ObjectKind \/
     getFederationMetadata namedType = None \/
     (exists metadata, getFederationMetadata namedType = Some metadata /\
                       keys metadata = None) ->
     keyFieldsSelectInvalidType {| getTypeMap := [(typeName, namedType)] |} serviceList = []).
Proof.
  split.
  - intros types1 types2. rewrite !keyFieldsSelectInvalidType_collects.
    unfold keyFieldOccurrences. cbn [getTypeMap]. rewrite !bind_app. reflexivity.
  - intros typeName namedType Hskip.
    unfold keyFieldsSelectInvalidType. cbn [getTypeMap fold_left checkType].
    destruct Hskip as [Hkind | [Hmeta | (metadata & Hmeta & Hkeys)]].
    + destruct (kind namedType); try reflexivity. contradiction.
    + rewrite Hmeta. destruct (kind namedType); reflexivity.
    + rewrite Hmeta, Hkeys. destruct (kind namedType); reflexivity.
Qed.

Lemma list_fmap_of_bind {A B C} (g : B -> C) (f : A -> list B) (l : list A) :
  g <$> (l ≫= f) = l ≫= (fun x => g <$> f x).
Proof.
  induction l as [| x l IH]; [reflexivity |].
  rewrite !bind_cons, fmap_app, IH. reflexivity.
Qed.

Lemma occurrencesOfType_rootOnly entry :
  occurrencesOfType (fst entry, rootOnlyType (snd entry)) =
  rootOnlyOccurrence <$> occurrencesOfType entry.
Proof.
  destruct entry as [typeName namedType]. unfold occurrencesOfType.
  cbn [fst snd rootOnlyType kind getFederationMetadata getFields].
  destruct (kind namedType); try reflexivity.
  destruct (getFederationMetadata namedType) as [metadata |]; [| reflexivity].
  cbn [fmap option_fmap option_map mbind option_bind keys].
  destruct (keys metadata) as [ks |]; [| reflexivity].
  change ((fun ks0 : KeyDirectivesMap => rootOnlyEntry <$> ks0) <$> Some ks)
    with (Some (rootOnlyEntry <$> ks)).
  cbv iota. rewrite list_fmap_bind, list_fmap_of_bind.
  apply list_bind_ext; [| reflexivity]. intros [serviceName selectionSets].
  unfold compose. cbn [rootOnlyEntry fst snd].
  destruct selectionSets as [selectionSets |]; [| reflexivity].
  change (default [] (rootOnlySets <$> Some selectionSets))
    with (rootOnlySets selectionSets).
  cbn [default]. unfold rootOnlySets.
  rewrite list_fmap_bind, list_fmap_of_bind.
  apply list_bind_ext; [| reflexivity]. intros selectionSet. unfold compose.
  rewrite list_fmap_bind, list_fmap_of_bind.
  apply list_bind_ext; [| reflexivity]. intros field. reflexivity.
Qed.

Lemma keyFieldOccurrences_rootOnly schema :
  keyFieldOccurrences (rootOnlyKeys schema) =
  rootOnlyOccurrence <$> keyFieldOccurrences schema.
Proof.
  unfold keyFieldOccurrences, rootOnlyKeys. cbn [getTypeMap].
  induction (getTypeMap schema) as [| entry types IH]; [reflexivity |].
  rewrite fmap_cons, !bind_cons, fmap_app, IH, occurrencesOfType_rootOnly. reflexivity.
Qed.

Lemma reportOf_rootOnly serviceList o :
  codeAndMessage <$> reportOf serviceList (rootOnlyOccurrence o) =
  codeAndMessage <$> reportOf serviceList o.
Proof.
  unfold reportOf, checkField, push, rootOnlyOccurrence, rootOnly. simpl.
  destruct (property (fieldName (occ_field o)) (occ_fields o)) as [matching |];
    [| reflexivity].
  destruct (interfaceOrNonNullInterface (f_type matching)),
    (unionOrNonNullUnion (f_type matching)); reflexivity.
Qed.

(** X3. Only the root fields of a key field set are looked at: the
    codes and messages of the errors are those for the schema whose
    [@key] selection sets are reduced to their root fields, so the
    fields selected below a root field are never validated. *)
Theorem key_validation_reads_root_fields_only schema serviceList :
  codeAndMessage <$> keyFieldsSelectInvalidType schema serviceList =
  codeAndMessage <$> keyFieldsSelectInvalidType (rootOnlyKeys schema) serviceList.
Proof.
  rewrite !keyFieldsSelectInvalidType_collects, keyFieldOccurrences_rootOnly.
  induction (keyFieldOccurrences schema) as [| o l IH]; [reflexivity |].
  rewrite fmap_cons, !bind_cons, !fmap_app, IH, reportOf_rootOnly. reflexivity.
Qed.

End KeyValidationFurther.

Section KeyValidationFurtherSamples.
Import PostComposition.

(** Keys on scalar and object fields, one with a nested selection. *)
Lemma valid_keys_are_not_reported_witness :
  keyFieldsSelectInvalidType (U := Samples.plainUtils) MoreSamples.validKeys ["products"] = [].
Proof.
  apply (valid_keys_are_not_reported (U := Samples.plainUtils)).
  intros typeName namedType metadata ks serviceName selectionSets selectionSet field
    Htype Hkind Hmeta Hkeys Hservice Hset Hfield.
  simpl in Htype. members Htype; inversion Htype; subst; clear Htype;
    simpl in Hmeta; try discriminate.
  inversion Hmeta; subst; clear Hmeta. simpl in Hkeys.
  inversion Hkeys; subst; clear Hkeys.
  members Hservice; inversion Hservice; subst; clear Hservice.
  members Hset; subst; members Hfield; subst; eexists; repeat split.
Defined.

End KeyValidationFurtherSamples.

(** ** [buildComposedSchema], continued *)
Section IngestFurther.
Import ComposedSchema SchemaShape.
Context {P : Parser}.
Local Arguments graphMap_get : simpl never.

Lemma addGraph_annotated schema graphEnumType graphDirective values :
  forall graphMap graphMap',
  forEachWith (addGraph schema graphEnumType graphDirective) values graphMap = Ok graphMap' ->
  forall value, value ∈ values ->
  exists node, node ∈ v_astNode value /\ dn_name node = d_name graphDirective.
Proof.
  induction values as [| v values IH]; intros graphMap graphMap' H value Hvalue;
    [by apply elem_of_nil in Hvalue |].
  simpl in H. apply bind_Ok in H as (graphMap1 & Hadd & H).
  apply elem_of_cons in Hvalue as [-> | Hvalue]; [| apply (IH _ _ H value Hvalue)].
  unfold addGraph in Hadd. apply bind_Ok in Hadd as (found & Hfound & Hadd).
  apply bind_Ok in Hadd as (args & Hargs%assert_Ok & _). subst found.
  apply getArgumentValuesForDirective_Ok in Hfound as [_ Hfound].
  unfold applicationOf in Hfound.
  destruct (List.find _ (v_astNode v)) as [node |] eqn:Hfind; [| discriminate].
  apply find_some in Hfind as [Hin Hname].
  exists node. split; [apply list_elem_of_In, Hin | apply String.eqb_eq, Hname].
Qed.

(** X4. A document is read only if its schema defines [@core] and the
    four directives [@join__owner], [@join__type], [@join__field] and
    [@join__graph], has an enum type [join__Graph] each of whose values
    carries [@join__graph], and has a schema definition that declares
    no [@core] feature besides the two supported ones: every [@core]
    application on it is coerced to arguments whose [feature] is one
    of the two. *)
Theorem ingest_requires_join_definitions document result :
  buildComposedSchema document = Ok result ->
  exists schema graphEnumType definition,
    buildASTSchema document = Ok schema /\
    (forall name, name ∈ ["core"; "join__owner"; "join__type"; "join__field"; "join__graph"] ->
                  is_Some (getDirective schema name)) /\
    getType schema "join__Graph" = Some graphEnumType /\
    t_kind graphEnumType = EnumKind /\
    (forall value, value ∈ t_values graphEnumType ->
       exists node, node ∈ v_astNode value /\ dn_name node = "join__graph") /\
    astNode schema = Some definition /\
    (forall node, node ∈ definition -> declaresUnsupportedFeature node = false) /\
    (exists coreDirective,
       getDirective schema "core" = Some coreDirective /\
       forall node, node ∈ applicationsOf coreDirective definition ->
         exists args,
           getArgumentValues (typeMap schema) coreDirective node = Ok args /\
           isUnsupportedFeature (argument "feature" args) = false).
Proof.
  intros H. apply buildComposedSchema_Ok_inv in H
    as (schema & coreDirective & definition & coreDirectivesArgs &
        ownerDirective & typeDirective & fieldDirective &
        graphDirective & graphEnumType & graphMap & types &
        Hschema & Hcore & Hdefinition & Hargs & Hfeatures & Howner & Htype & Hfield &
        Hgraph & Henum & Hmap & _).
  exists schema, graphEnumType, definition. split; [exact Hschema |].
  apply isEnumType_Some in Henum as [Henum Hkind].
  split; [| split; [exact Henum | split; [exact Hkind |
            split; [| split; [exact Hdefinition | split]]]]].
  - intros name Hname.
    apply getJoinDirective_defined in Howner, Htype, Hfield, Hgraph.
    members Hname; subst name; eauto.
  - intros value Hvalue.
    destruct (addGraph_annotated _ _ _ _ _ _ Hmap value Hvalue) as (node & Hnode & Hname).
    exists node. split; [exact Hnode |].
    rewrite Hname. apply (getJoinDirective_name _ _ _ Hgraph).
  - intros node Hnode.
    destruct (declaresUnsupportedFeature node) eqn:Hdeclares; [| reflexivity].
    assert (Happlied : node ∈ applicationsOf coreDirective definition).
    { apply applicationsOf_elem. split; [exact Hnode |].
      rewrite (getDirective_name _ _ _ Hcore).
      unfold declaresUnsupportedFeature in Hdeclares.
      apply andb_true_iff in Hdeclares as [Hname _]. apply String.eqb_eq, Hname. }
    destruct (proj2 (mapResult_elem _ _ _ Hargs) node Happlied) as (args & Hin & Hcoerced).
    pose proof (forEach_Ok_inv _ _ Hfeatures _ Hin) as Hok.
    rewrite checkFeature_eq,
      (declaresUnsupportedFeature_coerced _ _ _ _ Hdeclares Hcoerced) in Hok.
    discriminate.
  - exists coreDirective. split; [exact Hcore |]. intros node Happlied.
    destruct (proj2 (mapResult_elem _ _ _ Hargs) node Happlied) as (args & Hin & Hcoerced).
    exists args. split; [exact Hcoerced |].
    pose proof (forEach_Ok_inv _ _ Hfeatures _ Hin) as Hok.
    rewrite checkFeature_eq in Hok.
    destruct (isUnsupportedFeature (argument "feature" args)); [discriminate | reflexivity].
Qed.

(** *** Where exceptions come from *)

(** What processing a type throws: a failed assertion, what coercing
    the arguments of a directive application throws, or what the parser
    throws. *)
Local Abbreviation typeException schema e :=
  ((exists msg, e = AssertionError msg) \/
   (exists def node,
      getArgumentValues (typeMap schema) def node = Throw e /\ isCoercionException e) \/
   (exists v, parseFieldSet v = Throw e)).

Lemma getArgumentValuesForDirective_exception schema def node e :
  getArgumentValuesForDirective (typeMap schema) def node = Throw e ->
  typeException schema e.
Proof.
  intros [[_ ->] | (_ & directiveNode & _ & H)]%getArgumentValuesForDirective_Throw.
  - left. eauto.
  - right. left. exists def, directiveNode.
    split; [exact H | apply (getArgumentValues_Throw _ _ _ _ H)].
Qed.

Lemma getArgumentValuesForRepeatableDirective_exception schema def node e :
  getArgumentValuesForRepeatableDirective (typeMap schema) def node = Throw e ->
  typeException schema e.
Proof.
  intros (directiveNode & _ & H)%getArgumentValuesForRepeatableDirective_Throw.
  right. left. exists def, directiveNode.
  split; [exact H | apply (getArgumentValues_Throw _ _ _ _ H)].
Qed.

Lemma addKey_Throw schema type typeDirective graphMap owner keys args e :
  addKey type typeDirective graphMap (FederationEntityTypeMetadata owner keys) args = Throw e ->
  typeException schema e.
Proof.
  unfold addKey. intros H.
  apply bind_Throw in H as [H%assert_Throw | (graph & _ & H)]; [left; eauto |].
  apply bind_Throw in H as [H | (fs & _ & H)]; [right; right; eauto | discriminate].
Qed.

Lemma addKey_entity type typeDirective graphMap owner keys args metadata :
  addKey type typeDirective graphMap (FederationEntityTypeMetadata owner keys) args
    = Ok metadata ->
  isEntityTypeMetadata metadata = true.
Proof.
  unfold addKey. intros H.
  apply bind_Ok in H as (graph & _ & H). apply bind_Ok in H as (fs & _ & H).
  injection H as <-. reflexivity.
Qed.

Lemma addKeys_Throw schema type typeDirective graphMap typeDirectivesArgs metadata e :
  isEntityTypeMetadata metadata = true ->
  forEachWith (addKey type typeDirective graphMap) typeDirectivesArgs metadata = Throw e ->
  typeException schema e.
Proof.
  intros Hentity H.
  assert (Hstep : forall md args md',
            isEntityTypeMetadata md = true ->
            addKey type typeDirective graphMap md args = Ok md' ->
            isEntityTypeMetadata md' = true).
  { intros [owner keys |] args md' Hmd Hadd; [| discriminate].
    apply (addKey_entity _ _ _ _ _ _ _ Hadd). }
  destruct (forEachWith_Throw_inv _ _ _ _ Hstep metadata Hentity H)
    as ([owner keys |] & args & Hmd & _ & Hthrow); [| discriminate].
  apply (addKey_Throw _ _ _ _ _ _ _ _ Hthrow).
Qed.

Lemma parseFieldSetIfGiven_Throw v e :
  parseFieldSetIfGiven v = Throw e -> truthyValue v = true /\ parseFieldSet v = Throw e.
Proof.
  unfold parseFieldSetIfGiven. destruct (truthyValue v); [| discriminate].
  intros H. apply bind_Throw in H as [H | (fs & _ & H)]; [auto | discriminate].
Qed.

Lemma processField_Throw schema type fieldDirective graphMap fieldDef e :
  processField schema type fieldDirective graphMap fieldDef = Throw e ->
  typeException schema e.
Proof.
  unfold processField. intros H.
  apply bind_Throw in H as [H%assert_Throw | (node & _ & H)]; [left; eauto |].
  apply bind_Throw in H as [H | ([args |] & _ & H)];
    [apply (getArgumentValuesForDirective_exception _ _ _ _ H) | | discriminate].
  apply bind_Throw in H as [[_ H]%parseFieldSetIfGiven_Throw | (requires & _ & H)];
    [right; right; eauto |].
  apply bind_Throw in H as [[_ H]%parseFieldSetIfGiven_Throw | (provides & _ & H)];
    [right; right; eauto | discriminate].
Qed.

(** The assertion before the keys loop makes the cast inside it safe:
    processing a type never fails with the [TypeError] of the cast. *)
Lemma processType_Throw schema ownerDirective typeDirective fieldDirective graphMap type e :
  processType schema ownerDirective typeDirective fieldDirective graphMap type = Throw e ->
  typeException schema e.
Proof.
  unfold processType. destruct (isIntrospectionType type); [discriminate |].
  destruct (t_kind type); try discriminate. intros H.
  apply bind_Throw in H as [H%assert_Throw | (node & _ & H)]; [left; eauto |].
  apply bind_Throw in H as [H | (ownerArgs & _ & H)];
    [apply (getArgumentValuesForDirective_exception _ _ _ _ H) |].
  apply bind_Throw in H as [H | (metadata & Hmetadata & H)].
  { destruct ownerArgs as [ownerArgs |]; [| discriminate].
    apply bind_Throw in H as [H%assert_Throw | (graph & _ & H)];
      [left; eauto | discriminate]. }
  apply bind_Throw in H as [H | (typeArgs & _ & H)];
    [apply (getArgumentValuesForRepeatableDirective_exception _ _ _ _ H) |].
  apply bind_Throw in H as [H | ([] & Hassert & H)].
  { unfold assertTrue in H. destruct (_ || _); [discriminate |].
    injection H as <-. left. eauto. }
  apply bind_Throw in H as [H | (metadata' & _ & H)].
  - destruct metadata as [owner keys |].
    + apply (addKeys_Throw _ _ _ _ _ (FederationEntityTypeMetadata owner keys) _ eq_refl H).
    + unfold assertTrue in Hassert. simpl in Hassert.
      destruct typeArgs; discriminate.
  - apply bind_Throw in H as [H | (fields & _ & H)]; [| discriminate].
    apply forEachUpdate_Throw_inv in H as (fieldDef & _ & H).
    apply (processField_Throw _ _ _ _ _ _ H).
Qed.

(** X5. Where the exceptions of [buildComposedSchema] come from: an
    exception is what [buildASTSchema] threw; or a failed assertion; or
    the [TypeError] of reading the directives of the schema definition
    of a document that has none; or what graphql-js throws when it
    coerces the arguments of a directive application; or the error of
    an unsupported [@core] feature of the schema definition; or what
    [parseFieldSet] threw.  In particular the cast of the type
    metadata in the keys loop never fails. *)
Theorem ingest_exceptions document e :
  buildComposedSchema document = Throw e ->
  buildASTSchema document = Throw e \/
  (exists msg, e = AssertionError msg) \/
  (exists schema,
     buildASTSchema document = Ok schema /\ astNode schema = None /\
     e = TypeError "directives") \/
  (exists schema def node,
     buildASTSchema document = Ok schema /\
     getArgumentValues (typeMap schema) def node = Throw e /\ isCoercionException e) \/
  (exists schema definition coreDirective node args,
     buildASTSchema document = Ok schema /\ astNode schema = Some definition /\
     getDirective schema coreName = Some coreDirective /\
     node ∈ applicationsOf coreDirective definition /\
     getArgumentValues (typeMap schema) coreDirective node = Ok args /\
     isUnsupportedFeature (argument "feature" args) = true /\
     e = unsupportedFeatureError schema args) \/
  (exists v, parseFieldSet v = Throw e).
Proof.
  unfold buildComposedSchema. intros H.
  apply bind_Throw in H as [H | (schema & Hschema & H)]; [left; exact H |]. right.
  assert (Hlift : typeException schema e ->
            (exists msg, e = AssertionError msg) \/
            (exists schema,
               buildASTSchema document = Ok schema /\ astNode schema = None /\
               e = TypeError "directives") \/
            (exists schema def node,
               buildASTSchema document = Ok schema /\
               getArgumentValues (typeMap schema) def node = Throw e /\
               isCoercionException e) \/
            (exists schema definition coreDirective node args,
               buildASTSchema document = Ok schema /\ astNode schema = Some definition /\
               getDirective schema coreName = Some coreDirective /\
               node ∈ applicationsOf coreDirective definition /\
               getArgumentValues (typeMap schema) coreDirective node = Ok args /\
               isUnsupportedFeature (argument "feature" args) = true /\
               e = unsupportedFeatureError schema args) \/
            (exists v, parseFieldSet v = Throw e)).
  { intros [Hassertion | [(def & node & Hthrow & Hcoercion) | Hparser]].
    - left. exact Hassertion.
    - right. right. left. exists schema, def, node. auto.
    - do 4 right. exact Hparser. }
  apply bind_Throw in H as [H%assert_Throw | (coreDirective & Hcore%assert_Ok & H)];
    [left; eauto |].
  apply bind_Throw in H as [H | (definition & Hdefinition & H)].
  { right. left. exists schema. unfold directivesOf in H.
    destruct (astNode schema); [discriminate |]. injection H as <-. auto. }
  assert (Hnode : astNode schema = Some definition).
  { unfold directivesOf in Hdefinition.
    destruct (astNode schema); [| discriminate]. injection Hdefinition as ->. reflexivity. }
  apply bind_Throw in H as [H | (coreDirectivesArgs & Hargs & H)];
    [apply Hlift, (getArgumentValuesForRepeatableDirective_exception _ _ _ _ H) |].
  apply bind_Throw in H as [H | ([] & _ & H)].
  { do 3 right. left.
    apply forEach_Throw_inv in H as (args & Hin & Hthrow).
    destruct (proj1 (mapResult_elem _ _ _ Hargs) args Hin) as (node & Happlied & Hcoerced).
    rewrite checkFeature_eq in Hthrow.
    destruct (isUnsupportedFeature (argument "feature" args)) eqn:Hfeature; [| discriminate].
    injection Hthrow as <-.
    exists schema, definition, coreDirective, node, args. auto 10. }
  apply bind_Throw in H as [H%getJoinDirective_Throw | (ownerDirective & _ & H)];
    [left; exact H |].
  apply bind_Throw in H as [H%getJoinDirective_Throw | (typeDirective & _ & H)];
    [left; exact H |].
  apply bind_Throw in H as [H%getJoinDirective_Throw | (fieldDirective & _ & H)];
    [left; exact H |].
  apply bind_Throw in H as [H%getJoinDirective_Throw | (graphDirective & _ & H)];
    [left; exact H |].
  apply bind_Throw in H as [H%assert_Throw | (graphEnumType & _ & H)]; [left; eauto |].
  apply bind_Throw in H as [H | (graphMap & _ & H)].
  { destruct (forEachWith_Throw_inv (addGraph schema graphEnumType graphDirective)
                (fun _ => True) _ _ (fun _ _ _ _ _ => I) ∅ I H)
      as (graphMap' & value & _ & _ & Hthrow).
    unfold addGraph in Hthrow.
    apply bind_Throw in Hthrow as [Hthrow | (found & _ & Hthrow)];
      [apply Hlift, (getArgumentValuesForDirective_exception _ _ _ _ Hthrow) |].
    apply bind_Throw in Hthrow as [Hthrow%assert_Throw | (args & _ & Hthrow)];
      [left; eauto | discriminate]. }
  apply bind_Throw in H as [H | (types & _ & H)]; [| discriminate].
  apply forEachUpdate_Throw_inv in H as (type & _ & H).
  apply Hlift, (processType_Throw _ _ _ _ _ _ _ H).
Qed.

(** *** The graph map *)

Lemma addGraph_entry schema graphEnumType graphDirective values :
  forall graphMap graphMap',
  forEachWith (addGraph schema graphEnumType graphDirective) values graphMap = Ok graphMap' ->
  forall s graph, graphMap' !! s = Some graph ->
  graphMap !! s = Some graph \/
  exists value args,
    value ∈ values /\ v_name value = s /\
    getArgumentValuesForDirective (typeMap schema) graphDirective (v_astNode value)
      = Ok (Some args) /\
    graph = {| g_name := argument "name" args; g_url := argument "url" args |}.
Proof.
  induction values as [| value values IH]; intros graphMap graphMap' H s graph Hentry.
  - injection H as <-. left. exact Hentry.
  - simpl in H. apply bind_Ok in H as (graphMap1 & Hadd & H).
    destruct (IH _ _ H s graph Hentry) as [Hbefore | (value' & args & Hin & ?)].
    + unfold addGraph in Hadd. apply bind_Ok in Hadd as (found & Hfound & Hadd).
      apply bind_Ok in Hadd as (args & Hargs%assert_Ok & [= <-]). subst found.
      destruct (decide (v_name value = s)) as [Hname | Hname].
      * subst s. rewrite lookup_insert_eq in Hbefore. injection Hbefore as <-.
        right. exists value, args. split; [apply list_elem_of_here | auto].
      * rewrite lookup_insert_ne in Hbefore by exact Hname. left. exact Hbefore.
    + right. exists value', args. split; [apply list_elem_of_further, Hin | assumption].
Qed.

(** X6. The graph map of the schema that is returned has exactly the
    names of the values of [join__Graph] as its keys, and each entry
    holds the [name] and [url] arguments of the [@join__graph]
    application on a value of that name. *)
Theorem graph_map_of_ingested_schema document result :
  buildComposedSchema document = Ok result ->
  exists schema graphEnumType graphDirective graphMap,
    buildASTSchema document = Ok schema /\
    getType schema "join__Graph" = Some graphEnumType /\
    getDirective schema "join__graph" = Some graphDirective /\
    graphs result = Some graphMap /\
    (forall s, is_Some (graphMap !! s) <-> s ∈ v_name <$> t_values graphEnumType) /\
    (forall s graph, graphMap !! s = Some graph ->
       exists value args,
         value ∈ t_values graphEnumType /\ v_name value = s /\
         getArgumentValuesForDirective (typeMap schema) graphDirective (v_astNode value)
           = Ok (Some args) /\
         graph = {| g_name := argument "name" args; g_url := argument "url" args |}).
Proof.
  intros H. apply buildComposedSchema_Ok_inv in H
    as (schema & coreDirective & definition & coreDirectivesArgs &
        ownerDirective & typeDirective & fieldDirective &
        graphDirective & graphEnumType & graphMap & types &
        Hschema & _ & _ & _ & _ & _ & _ & _ & Hgraph & Henum & Hmap & _ & ->).
  apply isEnumType_Some in Henum as [Henum _].
  exists schema, graphEnumType, graphDirective, graphMap.
  split; [exact Hschema |]. split; [exact Henum |].
  split; [apply (getJoinDirective_defined _ _ _ Hgraph) |].
  split; [reflexivity |]. split.
  - intros s. rewrite (addGraph_lookup _ _ _ _ _ _ Hmap s), lookup_empty.
    split; [intros [[? [=]] | Hin]; exact Hin | auto].
  - intros s graph Hentry.
    destruct (addGraph_entry _ _ _ _ _ _ Hmap s graph Hentry) as [Hempty | Hvalue];
      [rewrite lookup_empty in Hempty; discriminate | exact Hvalue].
Qed.

(** *** What reading leaves as it is *)

(** X7. Reading changes nothing but federation metadata: the schema
    that is returned has the schema definition and the root types of
    the input and its directives that are not of the [core] and [join]
    features; and when the types of the input have distinct names and
    no element of its API schema refers to a type of these features,
    the types of the schema that is returned are the types of the
    input that are not of these features, in their order, each with
    its name, kind, AST node, fields and values as graphql-js built
    them. *)
Theorem ingest_only_attaches_metadata document schema result :
  buildASTSchema document = Ok schema ->
  buildComposedSchema document = Ok result ->
  astNode result = astNode schema /\
  directives result =
    List.filter (fun d => isExported (DirectiveElement d)) (directives schema) /\
  queryType result = queryType schema /\
  mutationType result = mutationType schema /\
  subscriptionType result = subscriptionType schema /\
  (NoDup (t_name <$> typeMap schema) ->
   apiIsClosed schema ->
   eraseFederation <$> typeMap result =
     eraseFederation <$> List.filter (fun t => isExported (TypeElement t)) (typeMap schema)).
Proof.
  intros Hschema H. apply buildComposedSchema_Ok_inv in H
    as (schema' & coreDirective & definition & coreDirectivesArgs &
        ownerDirective & typeDirective & fieldDirective &
        graphDirective & graphEnumType & graphMap & types &
        Hschema' & _ & _ & _ & _ & _ & _ & _ & _ & _ & _ & Htypes & ->).
  rewrite Hschema in Hschema'. injection Hschema' as <-.
  repeat (split; [reflexivity |]).
  intros Hnodup Hclosed. cbn [newGraphQLSchema typeMap].
  apply processTypes_shape in Htypes.
  rewrite (collectTypes_api schema types _ _ Htypes Hnodup Hclosed).
  apply shape_filter, Htypes.
Qed.

(** *** The keys of an entity *)

Lemma keysOf_add (key : option Value) (fs : FieldSet)
    (keys : gmap (option Value) (list FieldSet)) (graph : option Value) :
  keysOf (MultiMap_add key fs keys) graph =
  keysOf keys graph ++ (if decide (key = graph) then [fs] else []).
Proof.
  unfold keysOf, MultiMap_add.
  destruct (keys !! key) as [known |] eqn:Hknown.
  - destruct (decide (key = graph)) as [<- | Hne].
    + rewrite lookup_insert_eq, Hknown. reflexivity.
    + rewrite lookup_insert_ne by exact Hne. symmetry. apply app_nil_r.
  - destruct (decide (key = graph)) as [<- | Hne].
    + rewrite lookup_insert_eq, Hknown. reflexivity.
    + rewrite lookup_insert_ne by exact Hne. symmetry. apply app_nil_r.
Qed.

Lemma addKeys_grouped type typeDirective graphMap owner typeDirectivesArgs :
  forall keys metadata,
  forEachWith (addKey type typeDirective graphMap) typeDirectivesArgs
    (FederationEntityTypeMetadata owner keys) = Ok metadata ->
  exists keys' resolved,
    metadata = FederationEntityTypeMetadata owner keys' /\
    Forall2 (resolvesTo graphMap) typeDirectivesArgs resolved /\
    forall graph,
      keysOf keys' graph =
      keysOf keys graph ++ (snd <$> filter (fun key => fst key = graph) resolved).
Proof.
  induction typeDirectivesArgs as [| args rest IH]; intros keys metadata H.
  - injection H as <-. exists keys, []. split; [reflexivity |]. split; [constructor |].
    intros graph. symmetry. apply app_nil_r.
  - simpl in H. apply bind_Ok in H as (metadata1 & Hadd & H).
    unfold addKey in Hadd. apply bind_Ok in Hadd as (graph0 & Hgraph%assert_Ok & Hadd).
    apply bind_Ok in Hadd as (fs & Hfs & [= <-]).
    destruct (IH _ _ H) as (keys' & resolved & -> & Hresolved & Hkeys).
    exists keys', ((g_name graph0, fs) :: resolved). split; [reflexivity |]. split.
    + constructor; [| exact Hresolved]. exists graph0. auto.
    + intros graph. rewrite Hkeys, keysOf_add, <- app_assoc. f_equal.
      rewrite filter_cons. cbn [fst]. destruct (decide (g_name graph0 = graph)); reflexivity.
Qed.

(** X8. The type metadata of an object type that is read: without
    [@join__owner] the type is a value type and has no [@join__type];
    with [@join__owner] it is an entity owned by the graph the
    directive names, and under each graph name its keys are the parsed
    keys of the [@join__type] applications whose graph has that name,
    in the order of the applications. *)
Theorem entity_keys_are_grouped_by_graph schema ownerDirective typeDirective fieldDirective
    graphMap type type' node :
  processType schema ownerDirective typeDirective fieldDirective graphMap type = Ok type' ->
  isIntrospectionType type = false ->
  t_kind type = ObjectKind ->
  t_astNode type = Some node ->
  exists ownerDirectiveArgs typeDirectivesArgs,
    getArgumentValuesForDirective (typeMap schema) ownerDirective node
      = Ok ownerDirectiveArgs /\
    getArgumentValuesForRepeatableDirective (typeMap schema) typeDirective node
      = Ok typeDirectivesArgs /\
    match ownerDirectiveArgs with
    | None =>
        t_federation type' = Some FederationValueTypeMetadata /\
        typeDirectivesArgs = []
    | Some ownerArgs =>
        exists graph keys resolved,
          graphMap_get graphMap (argument "graph" ownerArgs) = Some graph /\
          t_federation type' = Some (FederationEntityTypeMetadata (g_name graph) keys) /\
          Forall2 (resolvesTo graphMap) typeDirectivesArgs resolved /\
          forall name, keysOf keys name = snd <$> filter (fun key => fst key = name) resolved
    end.
Proof.
  unfold processType. intros H Hintro Hkind Hnode.
  rewrite Hintro, Hkind, Hnode in H. cbn [assert mbind Result_bind] in H.
  apply bind_Ok in H as (ownerArgs & Howner & H).
  apply bind_Ok in H as (metadata & Hmetadata & H).
  apply bind_Ok in H as (typeArgs & Htype & H).
  apply bind_Ok in H as ([] & Hassert & H).
  apply bind_Ok in H as (metadata' & Hkeys & H).
  apply bind_Ok in H as (fields & _ & H). injection H as <-. cbn [t_federation].
  exists ownerArgs, typeArgs. split; [exact Howner |]. split; [exact Htype |].
  destruct ownerArgs as [ownerArgs |].
  - apply bind_Ok in Hmetadata as (graph & Hgraph%assert_Ok & [= <-]).
    destruct (addKeys_grouped _ _ _ _ _ _ _ Hkeys) as (keys' & resolved & -> & Hresolved & Hgrouped).
    exists graph, keys', resolved. split; [exact Hgraph |]. split; [reflexivity |].
    split; [exact Hresolved |]. intros name. rewrite Hgrouped. reflexivity.
  - injection Hmetadata as <-. unfold assertTrue in Hassert. simpl in Hassert.
    destruct typeArgs; [| discriminate].
    injection Hkeys as <-. auto.
Qed.

(** *** When reading a field fails *)

(** X9. Reading a field fails exactly when the field has no AST node;
    or the definition of [@join__field] is repeatable; or the field
    carries [@join__field] and graphql-js throws when it coerces the
    arguments of its first application, as it does for a [graph] that
    the type of the argument does not have; or the arguments are
    coerced and the parser throws on the [requires] argument, or on
    the [provides] argument after reading [requires].  An argument
    that is absent, [null] or the empty string is not given to the
    parser, and a [graph] that is coerced never makes the field fail,
    whether the graph map has it or not. *)
Theorem reading_a_field_fails_iff schema type fieldDirective graphMap fieldDef e :
  processField schema type fieldDirective graphMap fieldDef = Throw e <->
  (f_astNode fieldDef = None /\
   e = AssertionError ("Field " +:+ dquote +:+ t_name type +:+ "." +:+ f_name fieldDef +:+
                       dquote +:+ " should contain AST nodes")) \/
  (exists node,
     f_astNode fieldDef = Some node /\
     ((d_isRepeatable fieldDirective = true /\
       e = AssertionError
             "Use getArgumentValuesForRepeatableDirective for repeatable directives") \/
      (d_isRepeatable fieldDirective = false /\
       exists directiveNode,
         applicationOf fieldDirective node = Some directiveNode /\
         (getArgumentValues (typeMap schema) fieldDirective directiveNode = Throw e \/
          exists args,
            getArgumentValues (typeMap schema) fieldDirective directiveNode = Ok args /\
            ((truthyValue (argument "requires" args) = true /\
              parseFieldSet (argument "requires" args) = Throw e) \/
             ((truthyValue (argument "requires" args) = false \/
               exists fs, parseFieldSet (argument "requires" args) = Ok fs) /\
              truthyValue (argument "provides" args) = true /\
              parseFieldSet (argument "provides" args) = Throw e)))))).
Proof.
  unfold processField. split.
  - intros H. destruct (f_astNode fieldDef) as [node |]; cbn [assert mbind Result_bind] in H.
    + right. exists node. split; [reflexivity |].
      apply bind_Throw in H as [H | (found & Hfound & H)].
      * apply getArgumentValuesForDirective_Throw in H
          as [[Hrepeatable ->] | (Hsingle & directiveNode & Happlied & H)]; [left; auto |].
        right. split; [exact Hsingle |]. exists directiveNode. auto.
      * right. apply getArgumentValuesForDirective_Ok in Hfound as [Hsingle Hfound].
        split; [exact Hsingle |].
        destruct (applicationOf fieldDirective node) as [directiveNode |];
          [| subst found; discriminate].
        destruct Hfound as (args & -> & Hargs).
        exists directiveNode. split; [reflexivity |]. right. exists args.
        split; [exact Hargs |].
        apply bind_Throw in H as [H%parseFieldSetIfGiven_Throw | (requires & Hrequires & H)];
          [left; exact H |].
        right. apply bind_Throw in H as [H%parseFieldSetIfGiven_Throw | (provides & _ & H)];
          [| discriminate].
        split; [| exact H].
        unfold parseFieldSetIfGiven in Hrequires.
        destruct (truthyValue (argument "requires" args)); [| left; reflexivity].
        right. apply bind_Ok in Hrequires as (fs & Hfs & _). eauto.
    + left. injection H as <-. auto.
  - intros [[Hnode ->] | (node & Hnode & Hcases)]; rewrite Hnode;
      cbn [assert mbind Result_bind]; [reflexivity |].
    destruct Hcases as [[Hrepeatable ->] | (Hsingle & directiveNode & Happlied & Hcases)].
    { unfold getArgumentValuesForDirective. rewrite Hrepeatable. reflexivity. }
    rewrite (getArgumentValuesForDirective_eq _ _ _ Hsingle), Happlied.
    destruct Hcases as [-> | (args & -> & Hcases)]; [reflexivity |].
    cbn [fmap Result_fmap mbind Result_bind]. unfold parseFieldSetIfGiven.
    destruct Hcases as [[Htruthy Hthrow] | (Hrequires & Htruthy & Hthrow)].
    + rewrite Htruthy, Hthrow. reflexivity.
    + rewrite Htruthy, Hthrow.
      destruct Hrequires as [-> | (fs & Hfs)]; [reflexivity |].
      rewrite Hfs. destruct (truthyValue (argument "requires" args)); reflexivity.
Qed.

End IngestFurther.

(** *** The further properties on the sample documents *)
Section IngestFurtherSamples.
Import ComposedSchema Supergraph SchemaShape Samples.

Lemma sample_is_read :
  exists result, buildComposedSchema (P := sampleParser) (build sampleSupergraph) = Ok result.
Proof. vm_compute. eexists. reflexivity. Qed.

(** The rendering of the sample supergraph defines what reading needs. *)
Lemma ingest_requires_join_definitions_witness :
  exists schema graphEnumType definition,
    buildASTSchema (Parser := sampleParser) (build sampleSupergraph) = Ok schema /\
    (forall name, name ∈ ["core"; "join__owner"; "join__type"; "join__field"; "join__graph"] ->
                  is_Some (getDirective schema name)) /\
    getType schema "join__Graph" = Some graphEnumType /\
    t_kind graphEnumType = EnumKind /\
    (forall value, value ∈ t_values graphEnumType ->
       exists node, node ∈ v_astNode value /\ dn_name node = "join__graph") /\
    astNode schema = Some definition /\
    (forall node, node ∈ definition -> declaresUnsupportedFeature node = false) /\
    (exists coreDirective,
       getDirective schema "core" = Some coreDirective /\
       forall node, node ∈ applicationsOf coreDirective definition ->
         exists args,
           getArgumentValues (typeMap schema) coreDirective node = Ok args /\
           isUnsupportedFeature (argument "feature" args) = false).
Proof.
  destruct sample_is_read as [result Hresult].
  exact (ingest_requires_join_definitions (P := sampleParser) _ _ Hresult).
Defined.

(** The document with a third feature fails with the error of the
    unsupported feature; the one whose [@join__owner] gives a graph
    that [join__Graph] does not have with the error of the coercion;
    the one without a schema definition with a [TypeError]; and the
    one whose [@join__owner], declared with a string, gives an unknown
    graph with a failed assertion. *)
Lemma ingest_exceptions_witness :
  (exists e schema definition coreDirective node args,
     buildComposedSchema (P := sampleParser) unsupportedFeatureDocument = Throw e /\
     buildASTSchema (Parser := sampleParser) unsupportedFeatureDocument = Ok schema /\
     astNode schema = Some definition /\
     getDirective schema coreName = Some coreDirective /\
     node ∈ applicationsOf coreDirective definition /\
     getArgumentValues (typeMap schema) coreDirective node = Ok args /\
     isUnsupportedFeature (argument "feature" args) = true /\
     e = unsupportedFeatureError schema args) /\
  (exists e schema def node,
     buildComposedSchema (P := sampleParser) unknownOwnerGraph = Throw e /\
     buildASTSchema (Parser := sampleParser) unknownOwnerGraph = Ok schema /\
     getArgumentValues (typeMap schema) def node = Throw e /\ isCoercionException e) /\
  buildComposedSchema (P := sampleParser) noSchemaDefinition = Throw (TypeError "directives") /\
  (exists msg,
     buildComposedSchema (P := sampleParser) looseOwnerGraph = Throw (AssertionError msg)).
Proof.
  split; [| split; [| split]].
  - assert (H : exists e, buildComposedSchema (P := sampleParser) unsupportedFeatureDocument
                          = Throw e) by (vm_compute; eexists; reflexivity).
    destruct H as [e H]. exists e.
    destruct (ingest_exceptions (P := sampleParser) _ _ H)
      as [Hparse | [[msg Hassertion] | [(schema & Hschema & Hnone & _) |
           [(schema & def & node & _ & _ & Hcoercion) |
            [(schema & definition & coreDirective & node & args & Hrest) | [v Hparser]]]]]].
    + exfalso. vm_compute in Hparse. discriminate Hparse.
    + exfalso. subst e. vm_compute in H. discriminate H.
    + exfalso. vm_compute in Hschema. injection Hschema as <-.
      vm_compute in Hnone. discriminate Hnone.
    + exfalso.
      destruct Hcoercion as [(msg & errorNode & ->) | [(msg & errorNode & ->) | (msg & ->)]];
        vm_compute in H; discriminate H.
    + exists schema, definition, coreDirective, node, args.
      split; [exact H | exact Hrest].
    + exfalso. vm_compute in H. injection H as <-. cbn [parseFieldSet sampleParser] in Hparser.
      unfold parseFlatFieldSet in Hparser.
      destruct (wordsFrom (interpolateValue v) ""); discriminate Hparser.
  - assert (H : exists e, buildComposedSchema (P := sampleParser) unknownOwnerGraph
                          = Throw e) by (vm_compute; eexists; reflexivity).
    destruct H as [e H]. exists e.
    destruct (ingest_exceptions (P := sampleParser) _ _ H)
      as [Hparse | [[msg Hassertion] | [(schema & Hschema & Hnone & _) |
           [(schema & def & node & Hrest) |
            [(schema & definition & coreDirective & node & args & _ & _ & _ & _ & _ & _ & He)
            | [v Hparser]]]]]].
    + exfalso. vm_compute in Hparse. discriminate Hparse.
    + exfalso. subst e. vm_compute in H. discriminate H.
    + exfalso. vm_compute in Hschema. injection Hschema as <-.
      vm_compute in Hnone. discriminate Hnone.
    + exists schema, def, node. split; [exact H | exact Hrest].
    + exfalso. subst e. vm_compute in H. discriminate H.
    + exfalso. vm_compute in H. injection H as <-. cbn [parseFieldSet sampleParser] in Hparser.
      unfold parseFlatFieldSet in Hparser.
      destruct (wordsFrom (interpolateValue v) ""); discriminate Hparser.
  - vm_compute. reflexivity.
  - eexists. vm_compute. reflexivity.
Defined.

Lemma graph_map_of_ingested_schema_witness :
  exists result schema graphEnumType graphDirective graphMap,
    buildComposedSchema (P := sampleParser) (build sampleSupergraph) = Ok result /\
    buildASTSchema (Parser := sampleParser) (build sampleSupergraph) = Ok schema /\
    getType schema "join__Graph" = Some graphEnumType /\
    getDirective schema "join__graph" = Some graphDirective /\
    graphs result = Some graphMap /\
    (forall s, is_Some (graphMap !! s) <-> s ∈ v_name <$> t_values graphEnumType) /\
    (forall s graph, graphMap !! s = Some graph ->
       exists value args,
         value ∈ t_values graphEnumType /\ v_name value = s /\
         getArgumentValuesForDirective (typeMap schema) graphDirective (v_astNode value)
           = Ok (Some args) /\
         graph = {| g_name := argument "name" args; g_url := argument "url" args |}).
Proof.
  destruct sample_is_read as [result Hresult].
  destruct (graph_map_of_ingested_schema (P := sampleParser) _ _ Hresult)
    as (schema & graphEnumType & graphDirective & graphMap & H).
  exists result, schema, graphEnumType, graphDirective, graphMap.
  split; [exact Hresult | exact H].
Defined.

Lemma sampleSupergraph_names : NoDup (t_name <$> typeMap (build sampleSupergraph)).
Proof. apply (bool_decide_unpack _). vm_compute. exact I. Qed.

(** The types of the sample supergraph have distinct names and do not
    refer to the types of the [join] feature: its API schema has its
    six types. *)
Lemma ingest_only_attaches_metadata_witness :
  exists result,
    buildComposedSchema (P := sampleParser) (build sampleSupergraph) = Ok result /\
    astNode result = astNode (build sampleSupergraph) /\
    directives result =
      List.filter (fun d => isExported (DirectiveElement d))
        (directives (build sampleSupergraph)) /\
    queryType result = queryType (build sampleSupergraph) /\
    mutationType result = mutationType (build sampleSupergraph) /\
    subscriptionType result = subscriptionType (build sampleSupergraph) /\
    eraseFederation <$> typeMap result =
      eraseFederation <$> List.filter (fun t => isExported (TypeElement t))
                            (typeMap (build sampleSupergraph)).
Proof.
  destruct sample_is_read as [result Hresult].
  exists result. split; [exact Hresult |].
  destruct (ingest_only_attaches_metadata (P := sampleParser) _ (build sampleSupergraph)
              _ eq_refl Hresult)
    as (Hnode & Hdirectives & Hquery & Hmutation & Hsubscription & Htypes).
  repeat (split; [assumption |]).
  exact (Htypes sampleSupergraph_names sampleSupergraph_closed).
Defined.

(** [Product] of the sample supergraph: three [@join__type]
    applications, two of the graph [products] and one of [reviews]. *)
Lemma entity_keys_are_grouped_by_graph_witness :
  exists type' graph keys resolved,
    processType (P := sampleParser) (build sampleSupergraph) joinOwnerDef joinTypeDef
      joinFieldDef sampleGraphMap (productOf (build sampleSupergraph)) = Ok type' /\
    getArgumentValuesForDirective (typeMap (build sampleSupergraph)) joinOwnerDef
      (default [] (t_astNode (productOf (build sampleSupergraph))))
      = Ok (Some [("graph", VString "PRODUCTS")]) /\
    getArgumentValuesForRepeatableDirective (typeMap (build sampleSupergraph)) joinTypeDef
      (default [] (t_astNode (productOf (build sampleSupergraph))))
      = Ok [ [("graph", VString "PRODUCTS"); ("key", VString "upc")];
             [("graph", VString "PRODUCTS"); ("key", VString "sku brand")];
             [("graph", VString "REVIEWS"); ("key", VString "upc")] ] /\
    graphMap_get sampleGraphMap (Some (VString "PRODUCTS")) = Some graph /\
    t_federation type' = Some (FederationEntityTypeMetadata (g_name graph) keys) /\
    Forall2 (resolvesTo (P := sampleParser) sampleGraphMap)
      [ [("graph", VString "PRODUCTS"); ("key", VString "upc")];
        [("graph", VString "PRODUCTS"); ("key", VString "sku brand")];
        [("graph", VString "REVIEWS"); ("key", VString "upc")] ] resolved /\
    forall name, keysOf keys name = snd <$> filter (fun key => fst key = name) resolved.
Proof.
  assert (H : exists type',
            processType (P := sampleParser) (build sampleSupergraph) joinOwnerDef joinTypeDef
              joinFieldDef sampleGraphMap (productOf (build sampleSupergraph))
            = Ok type') by (vm_compute; eexists; reflexivity).
  destruct H as [type' H].
  destruct (entity_keys_are_grouped_by_graph (P := sampleParser) _ _ _ _ _ _ _
              (default [] (t_astNode (productOf (build sampleSupergraph))))
              H eq_refl eq_refl eq_refl)
    as (ownerArgs & typeArgs & Howner & Htype & Hrest).
  assert (Howner' : getArgumentValuesForDirective (typeMap (build sampleSupergraph)) joinOwnerDef
                      (default [] (t_astNode (productOf (build sampleSupergraph))))
                    = Ok (Some [("graph", VString "PRODUCTS")])) by (vm_compute; reflexivity).
  assert (Htype' : getArgumentValuesForRepeatableDirective (typeMap (build sampleSupergraph))
                     joinTypeDef
                     (default [] (t_astNode (productOf (build sampleSupergraph))))
                   = Ok [ [("graph", VString "PRODUCTS"); ("key", VString "upc")];
                          [("graph", VString "PRODUCTS"); ("key", VString "sku brand")];
                          [("graph", VString "REVIEWS"); ("key", VString "upc")] ])
    by (vm_compute; reflexivity).
  rewrite Howner' in Howner. injection Howner as <-.
  rewrite Htype' in Htype. injection Htype as <-.
  destruct Hrest as (graph & keys & resolved & Hgraph & Hrest).
  exists type', graph, keys, resolved.
  split; [exact H |]. split; [exact Howner' |]. split; [exact Htype' |].
  split; [exact Hgraph | exact Hrest].
Defined.

End IngestFurtherSamples.

(** ** The gateway configuration predicates, continued *)
Section ConfigFurther.
Import Config.

(** X10. A configuration is dynamic exactly when it is not static, or
    has a [serviceList], an update function or a non-null delivery
    endpoint; hence the static and the dynamic configurations overlap
    in exactly the static ones with one of these properties. *)
Theorem dynamic_config_characterised (config : GatewayConfig) :
  isDynamicConfig config =
    negb (isStaticConfig config) || isRemoteConfig config ||
    isManuallyManagedConfig config || isPrecomposedManagedConfig config /\
  isStaticConfig config && isDynamicConfig config =
    isStaticConfig config &&
    (isRemoteConfig config || isManuallyManagedConfig config ||
     isPrecomposedManagedConfig config).
Proof.
  unfold isDynamicConfig, isManagedConfig, isStaticConfig.
  destruct (isLocalConfig config), (isCsdlConfig config),
    (isRemoteConfig config), (isManuallyManagedConfig config),
    (isPrecomposedManagedConfig config); split; reflexivity.
Qed.

End ConfigFurther.

(** ** The remote data source *)
Section DataSourceProperties.
Import RemoteDataSource.
Context {E : Env} {C : Codec}.

Implicit Types (this : RemoteGraphQLDataSource) (request : GraphQLRequest) (st : State).

Lemma lift_fetched {A} (f : Effect A) st : fetched (lift f st).2 = fetched st.
Proof. unfold lift. destruct (f (world st)); reflexivity. Qed.

Lemma announce_fetched this request st :
  fetched (announce this request st).2 = fetched st.
Proof.
  unfold announce. destruct (willSendRequest this); [apply lift_fetched | reflexivity].
Qed.

Lemma respond_fetched this response request st :
  fetched (respond this response request st).2 = fetched st.
Proof.
  unfold respond. destruct (didReceiveResponse this); [apply lift_fetched | reflexivity].
Qed.

Lemma parseBody_state (fetchResponse : Response) st :
  parseBody fetchResponse st = ((parseBody fetchResponse st).1, st).
Proof.
  unfold parseBody.
  destruct (truthy _ && startsWith _ _); [destruct (json fetchResponse) |]; reflexivity.
Qed.

(** [parseBody] reads the body as JSON exactly when there is a content
    type that starts with [application/json]. *)
Lemma parseBody_eq (fetchResponse : Response) st :
  parseBody fetchResponse st =
  (match headers_get "Content-Type" (r_headers fetchResponse) with
   | Some contentType =>
       if startsWith contentType "application/json"
       then json fetchResponse
       else inr (OtherBody (text fetchResponse))
   | None => inr (OtherBody (text fetchResponse))
   end, st).
Proof.
  unfold parseBody.
  destruct (headers_get "Content-Type" (r_headers fetchResponse)) as [[| c contentType] |];
    try reflexivity.
  change (truthy (Some (String c contentType))) with true.
  change (default "" (Some (String c contentType))) with (String c contentType).
  cbn [andb].
  destruct (startsWith _ _); [destruct (json fetchResponse) |]; reflexivity.
Qed.

Lemma errorFromResponse_state (fetchResponse : Response) st :
  errorFromResponse fetchResponse st = ((errorFromResponse fetchResponse st).1, st).
Proof.
  unfold errorFromResponse, bind. rewrite parseBody_state.
  destruct (parseBody fetchResponse st).1; reflexivity.
Qed.

Lemma throw_eq {A} (e : Exception) st : throw (A := A) e st = (inl e, st).
Proof. reflexivity. Qed.

Lemma ret_eq {A} (a : A) st : ret a st = (inr a, st).
Proof. reflexivity. Qed.

(** The [catch] block of [sendRequest] always throws, and changes the
    world only. *)
Lemma handler_throws {B} this (error : Exception) st :
  exists e' w,
    bind (lift (didEncounterError this error)) (fun _ => throw (A := B) error) st
    = (inl e', {| world := w; fetched := fetched st |}).
Proof.
  unfold bind, lift, throw.
  destruct (didEncounterError this error (world st)) as [[e' | []] w]; eauto.
Qed.

(** Replaces a call of the [catch] block by what it throws. *)
Ltac caught :=
  cbv beta iota;
  match goal with
  | |- context [bind (lift (didEncounterError ?t ?e)) _ ?s] =>
      let e' := fresh "e'" in
      let w' := fresh "w'" in
      destruct (handler_throws (B := GraphQLResponse) t e s) as (e' & w' & ->)
  end.

Lemma sendRequest_fetched this request (h : HttpRequest) st :
  http request = Some h ->
  fetched (sendRequest this request st).2 = fetched st ++ [fetchCall request h].
Proof.
  intros Hhttp. unfold sendRequest. rewrite Hhttp.
  unfold tryCatch, bind at 1, fetch.
  destruct (fetcher this (fetchCall request h) (world st)) as [[e | fetchResponse] w].
  - destruct (handler_throws (B := GraphQLResponse) this e {| world := w; fetched := fetched st ++ [fetchCall request h] |})
      as (e' & w' & ->). reflexivity.
  - destruct (ok fetchResponse); cbn [negb].
    + unfold bind at 1. rewrite parseBody_state.
      destruct (parseBody fetchResponse _).1 as [e | [o | shown]]; try reflexivity.
      all: rewrite ?throw_eq;
        match goal with
        | |- context [bind (lift (didEncounterError ?t ?e)) _ ?s] =>
            destruct (handler_throws (B := GraphQLResponse) t e s) as (e' & w' & ->)
        end; reflexivity.
    + unfold bind at 1. rewrite errorFromResponse_state.
      destruct (errorFromResponse fetchResponse _).1 as [e | e]; rewrite ?throw_eq.
      all: match goal with
        | |- context [bind (lift (didEncounterError ?t ?e)) _ ?s] =>
            destruct (handler_throws (B := GraphQLResponse) t e s) as (e' & w' & ->)
        end; reflexivity.
Qed.

Lemma bind_eq {A B} (m : M A) (k : A -> M B) st :
  bind m k st =
  match m st with
  | (inr a, st') => k a st'
  | (inl e, st') => (inl e, st')
  end.
Proof. reflexivity. Qed.

Lemma send_respond_fetched this request request' (h : HttpRequest) st :
  http request = Some h ->
  fetched (bind (sendRequest this request)
             (fun response => respond this response request') st).2
  = fetched st ++ [fetchCall request h].
Proof.
  intros Hhttp. rewrite bind_eq.
  pose proof (sendRequest_fetched this request h st Hhttp) as Hsent.
  destruct (sendRequest this request st) as [[e | response] st2]; cbn in Hsent |- *.
  - exact Hsent.
  - rewrite respond_fetched. exact Hsent.
Qed.

Lemma withQuery_restored request :
  withQuery (query request) (withQuery None request) = request.
Proof. destruct request; reflexivity. Qed.

Lemma rewrittenForGET_cases this (h : HttpRequest) request st :
  (exists e, rewrittenForGET this h request st = (inl e, st)) \/
  (exists uri,
     rewrittenForGET this h request st
     = (inr (withHttp (Some {| method := "GET"; h_url := uri; headers := headers h |})
               request), st)).
Proof.
  unfold rewrittenForGET.
  destruct (rewriteURIForGET (url this) request) as [[e |] [uri |]];
    try (left; eexists; reflexivity).
  destruct (truthy (Some uri)); [right | left]; eexists; reflexivity.
Qed.

(** X11. A request that has no query once [willSendRequest] has run
    is rejected with [Missing query], and nothing is fetched. *)
Theorem request_without_query_is_not_sent this request st request' st1 :
  announce this (prepare this request) st = (inr request', st1) ->
  truthy (query request') = false ->
  process this request st = (inl (Error "Missing query"), st1) /\
  fetched st1 = fetched st.
Proof.
  intros Hhook Hquery. split.
  - unfold process. rewrite bind_eq, Hhook, Hquery. reflexivity.
  - rewrite <- (announce_fetched this (prepare this request) st), Hhook. reflexivity.
Qed.

(** X12. Without APQ, [process] calls the fetcher exactly once, whatever
    the outcome: with the [http] the hook left on the request, and the
    request without [http] as body of a POST.  When there is no
    [willSendRequest] hook, this is a POST to [this.url], with the
    incoming headers and the content type set, whose body holds the
    whole request. *)
Theorem without_apq_one_request_is_sent this request st request' st1
    (h : HttpRequest) :
  apq this = false ->
  announce this (prepare this request) st = (inr request', st1) ->
  truthy (query request') = true ->
  http request' = Some h ->
  fetched (process this request st).2 = fetched st ++ [fetchCall request' h] /\
  (willSendRequest this = None ->
   fetchCall request' h =
     {| fc_url := url this; fc_method := "POST";
        fc_headers := headers_set "Content-Type" "application/json"
                        (from_option headers newHeaders (http request));
        fc_body := Some (stringify (withHttp None request)) |}).
Proof.
  intros Hapq Hhook Hquery Hhttp. split.
  - unfold process. rewrite bind_eq, Hhook, Hquery, Hhttp, Hapq. cbn [negb].
    rewrite withQuery_restored, (send_respond_fetched _ _ _ h) by exact Hhttp.
    rewrite <- (announce_fetched this (prepare this request) st), Hhook. reflexivity.
  - intros Hnone. unfold announce in Hhook. rewrite Hnone in Hhook.
    injection Hhook as <- <-. cbn in Hhttp. injection Hhttp as <-.
    unfold fetchCall. cbn. destruct (http request); reflexivity.
Qed.

(** X13. With APQ, [process] calls the fetcher at most twice, and the
    first call is a GET without a body; with [useGETForHashedQueries]
    every call is. *)
Theorem apq_first_request_carries_no_body this request st :
  apq this = true ->
  exists calls,
    fetched (process this request st).2 = fetched st ++ calls /\
    length calls <= 2 /\
    (forall first, head calls = Some first ->
       fc_method first = "GET" /\ fc_body first = None) /\
    (useGETForHashedQueries this = true ->
       Forall (fun call => fc_method call = "GET" /\ fc_body call = None) calls).
Proof.
  intros Hapq.
  assert (Hnone : forall st1, fetched st1 = fetched st ->
            exists calls, fetched st1 = fetched st ++ calls /\ length calls <= 2 /\
              (forall first, head calls = Some first ->
                 fc_method first = "GET" /\ fc_body first = None) /\
              (useGETForHashedQueries this = true ->
                 Forall (fun call => fc_method call = "GET" /\ fc_body call = None) calls)).
  { intros st1 H1. exists []. rewrite app_nil_r. split; [exact H1 |].
    split; [cbn; lia |]. split; [discriminate | constructor]. }
  unfold process. rewrite bind_eq.
  pose proof (announce_fetched this (prepare this request) st) as H1.
  destruct (announce this (prepare this request) st) as [[e | request'] st1];
    cbn in H1; [apply Hnone, H1 |].
  destruct (truthy (query request')); cbn [negb]; [| apply Hnone, H1].
  destruct (http request') as [h |]; [| apply Hnone, H1].
  rewrite Hapq.
  set (hashed := withExtensions _ (withQuery None request')).
  (* the first request is a GET *)
  assert (Hfirst : exists uri,
            (if useGETForHashedQueries this
             then rewrittenForGET this h hashed
             else ret (withHttp (Some {| method := "GET"; h_url := url this;
                                         headers := headers h |}) hashed)) st1
            = (inr (withHttp (Some {| method := "GET"; h_url := uri;
                                      headers := headers h |}) hashed), st1) \/
            exists e,
            (if useGETForHashedQueries this
             then rewrittenForGET this h hashed
             else ret (withHttp (Some {| method := "GET"; h_url := url this;
                                         headers := headers h |}) hashed)) st1
            = (inl e, st1)).
  { destruct (useGETForHashedQueries this).
    - destruct (rewrittenForGET_cases this h hashed st1) as [[e He] | [uri Huri]].
      + exists "". right. eauto.
      + exists uri. left. exact Huri.
    - exists (url this). left. reflexivity. }
  destruct Hfirst as [uri [Hfirst | [e Hfirst]]]; rewrite bind_eq, Hfirst;
    [| apply Hnone, H1].
  set (first := withHttp _ hashed).
  rewrite bind_eq.
  pose proof (sendRequest_fetched this first _ st1 eq_refl) as H2.
  rewrite H1 in H2.
  set (call1 := fetchCall first _) in H2.
  assert (Hone : forall st2, fetched st2 = fetched st ++ [call1] ->
            exists calls, fetched st2 = fetched st ++ calls /\ length calls <= 2 /\
              (forall first, head calls = Some first ->
                 fc_method first = "GET" /\ fc_body first = None) /\
              (useGETForHashedQueries this = true ->
                 Forall (fun call => fc_method call = "GET" /\ fc_body call = None) calls)).
  { intros st2 Hst2. exists [call1]. split; [exact Hst2 |]. split; [cbn; lia |].
    split.
    - intros c [= <-]. split; reflexivity.
    - intros _. constructor; [split; reflexivity | constructor]. }
  destruct (sendRequest this first st1) as [[e | response] st2]; cbn in H2;
    [apply Hone, H2 |].
  destruct (persistedQueryNotFound response); cbn [negb].
  2:{ apply Hone. rewrite respond_fetched. exact H2. }
  set (full := withQuery (query request') first).
  destruct (useGETForHashedQueries this) eqn:Hget.
  - destruct (rewrittenForGET_cases this h full st2) as [[e He] | [uri2 Huri]];
      rewrite bind_eq; [rewrite He; apply Hone, H2 |].
    rewrite Huri. set (second := withHttp _ full).
    exists [call1; fetchCall second {| method := "GET"; h_url := uri2; headers := headers h |}].
    split.
    + rewrite (send_respond_fetched this second second _ st2) by reflexivity.
      rewrite H2, <- app_assoc. reflexivity.
    + split; [cbn; lia |]. split.
      * intros c [= <-]. split; reflexivity.
      * intros _. repeat constructor.
  - rewrite bind_eq, ret_eq. set (second := withHttp _ full).
    exists [call1; fetchCall second {| method := "POST"; h_url := url this;
                                       headers := headers h |}].
    split.
    + rewrite (send_respond_fetched this second second _ st2) by reflexivity.
      rewrite H2, <- app_assoc. reflexivity.
    + split; [cbn; lia |]. split.
      * intros c [= <-]. split; reflexivity.
      * discriminate.
Qed.

(** X14. With APQ and without [useGETForHashedQueries], the first
    call is a GET to [this.url] without a body; the query is sent
    exactly when that request is answered with an error
    [PersistedQueryNotFound]: then a second call follows, a POST to
    [this.url] whose body holds the query and the [persistedQuery]
    extension with the hash of the query. *)
Theorem apq_query_is_sent_on_retry_only this request st request' st1
    (h : HttpRequest) :
  apq this = true ->
  useGETForHashedQueries this = false ->
  announce this (prepare this request) st = (inr request', st1) ->
  truthy (query request') = true ->
  http request' = Some h ->
  let hashed :=
    withExtensions
      (Some (spreadWith (default [] (extensions request')) "persistedQuery"
               (PersistedQuery 1 (sha256 (default "" (query request'))))))
      request' in
  let first :=
    withHttp (Some {| method := "GET"; h_url := url this; headers := headers h |})
      (withQuery None hashed) in
  let retried :=
    match (sendRequest this first st1).1 with
    | inr response => persistedQueryNotFound response
    | inl _ => false
    end in
  fetched (process this request st).2 =
    fetched st ++
    {| fc_url := url this; fc_method := "GET"; fc_headers := headers h;
       fc_body := None |} ::
    (if retried
     then [{| fc_url := url this; fc_method := "POST"; fc_headers := headers h;
              fc_body := Some (stringify (withHttp None hashed)) |}]
     else []).
Proof.
  intros Hapq Hget Hhook Hquery Hhttp hashed first retried.
  pose proof (announce_fetched this (prepare this request) st) as H1.
  rewrite Hhook in H1. cbn in H1.
  unfold process. rewrite bind_eq, Hhook, Hquery, Hhttp, Hapq, Hget. cbn [negb].
  rewrite bind_eq, ret_eq.
  change (withHttp _ (withExtensions _ (withQuery None request'))) with first.
  rewrite bind_eq.
  pose proof (sendRequest_fetched this first _ st1 eq_refl) as H2.
  rewrite H1 in H2. subst retried.
  destruct (sendRequest this first st1) as [[e | response] st2]; cbn in H2 |- *;
    [exact H2 |].
  destruct (persistedQueryNotFound response); cbn [negb].
  - rewrite bind_eq, ret_eq.
    rewrite (send_respond_fetched this _ _
               {| method := "POST"; h_url := url this; headers := headers h |} st2)
      by reflexivity.
    rewrite H2, <- app_assoc. reflexivity.
  - rewrite respond_fetched. exact H2.
Qed.

Lemma sendRequest_Ok_inv this request st (response : GraphQLResponse) st' :
  sendRequest this request st = (inr response, st') ->
  exists (h : HttpRequest) (fetchResponse : Response) w contentType o,
    http request = Some h /\
    fetcher this (fetchCall request h) (world st) = (inr fetchResponse, w) /\
    ok fetchResponse = true /\
    headers_get "Content-Type" (r_headers fetchResponse) = Some contentType /\
    startsWith contentType "application/json" = true /\
    json fetchResponse = inr (ObjectBody o) /\
    response = {| errors := ro_errors o; data := ro_data o;
                  r_http := Some fetchResponse |} /\
    st' = {| world := w; fetched := fetched st ++ [fetchCall request h] |}.
Proof.
  unfold sendRequest. destruct (http request) as [h |]; [| discriminate].
  unfold tryCatch. rewrite bind_eq. unfold fetch.
  destruct (fetcher this (fetchCall request h) (world st))
    as [[e | fetchResponse] w] eqn:Hfetch.
  { caught. discriminate. }
  destruct (ok fetchResponse) eqn:Hok; cbn [negb].
  + rewrite bind_eq, parseBody_eq.
    destruct (headers_get "Content-Type" (r_headers fetchResponse))
      as [contentType |] eqn:Htype.
    * destruct (startsWith contentType "application/json") eqn:Hjson.
      -- destruct (json fetchResponse) as [e | [o | shown]] eqn:Hbody;
           rewrite ?throw_eq, ?ret_eq.
         ++ caught. discriminate.
         ++ intros [= <- <-]. exists h, fetchResponse, w, contentType, o.
            repeat split; try assumption; reflexivity.
         ++ caught. discriminate.
      -- rewrite throw_eq. caught. discriminate.
    * rewrite throw_eq. caught. discriminate.
  + rewrite bind_eq, errorFromResponse_state.
    destruct (errorFromResponse fetchResponse _).1 as [e | e]; rewrite ?throw_eq.
    all: caught; discriminate.
Qed.

(** X15. [sendRequest] returns a response exactly when the fetcher
    answered with an [ok] response whose content type starts with
    [application/json] and whose body is a JSON object; the response is
    then that object with the fetched response as [http]. *)
Theorem sendRequest_returns_iff this request st (response : GraphQLResponse) st' :
  sendRequest this request st = (inr response, st') <->
  exists (h : HttpRequest) (fetchResponse : Response) w contentType o,
    http request = Some h /\
    fetcher this (fetchCall request h) (world st) = (inr fetchResponse, w) /\
    ok fetchResponse = true /\
    headers_get "Content-Type" (r_headers fetchResponse) = Some contentType /\
    startsWith contentType "application/json" = true /\
    json fetchResponse = inr (ObjectBody o) /\
    response = {| errors := ro_errors o; data := ro_data o;
                  r_http := Some fetchResponse |} /\
    st' = {| world := w; fetched := fetched st ++ [fetchCall request h] |}.
Proof.
  split; [apply sendRequest_Ok_inv |].
  intros (h & fetchResponse & w & contentType & o & Hhttp & Hfetch & Hok & Htype &
          Hjson & Hbody & -> & ->).
  unfold sendRequest. rewrite Hhttp. unfold tryCatch. rewrite bind_eq.
  unfold fetch. rewrite Hfetch, Hok. cbn [negb].
  rewrite bind_eq, parseBody_eq, Htype, Hjson, Hbody. reflexivity.
Qed.

(** X16. A response that is not [ok] makes [sendRequest] throw: when
    its body can be read, [didEncounterError] is given an
    [AuthenticationError] for status 401, a [ForbiddenError] for 403
    and an [ApolloError] otherwise, with the message [status:
    statusText] and the response in its extensions; that error is
    thrown unless the hook throws another. *)
Theorem failed_response_becomes_error this request st (h : HttpRequest)
    (fetchResponse : Response) w (body : ParsedBody) :
  http request = Some h ->
  fetcher this (fetchCall request h) (world st) = (inr fetchResponse, w) ->
  ok fetchResponse = false ->
  (parseBody fetchResponse st).1 = inr body ->
  let error :=
    ApolloError
      (if Nat.eqb (status fetchResponse) 401 then AuthenticationErrorClass
       else if Nat.eqb (status fetchResponse) 403 then ForbiddenErrorClass
       else ApolloErrorClass)
      (pretty (status fetchResponse) +:+ ": " +:+ statusText fetchResponse)
      {| er_url := r_url fetchResponse; er_status := status fetchResponse;
         er_statusText := statusText fetchResponse; er_body := body |} in
  sendRequest this request st =
    (inl (match (didEncounterError this error w).1 with
          | inl thrown => thrown
          | inr _ => error
          end),
     {| world := (didEncounterError this error w).2;
        fetched := fetched st ++ [fetchCall request h] |}) /\
  (didEncounterError this = defaultDidEncounterError ->
   (sendRequest this request st).1 = inl error).
Proof.
  intros Hhttp Hfetch Hok Hbody error.
  assert (Hpure : forall st0, (parseBody fetchResponse st0).1 = inr body).
  { intros st0. rewrite <- Hbody, !parseBody_eq. reflexivity. }
  assert (Hsend : sendRequest this request st =
    (inl (match (didEncounterError this error w).1 with
          | inl thrown => thrown
          | inr _ => error
          end),
     {| world := (didEncounterError this error w).2;
        fetched := fetched st ++ [fetchCall request h] |})).
  { unfold sendRequest. rewrite Hhttp. unfold tryCatch. rewrite bind_eq.
    unfold fetch. rewrite Hfetch, Hok. cbn [negb].
    rewrite bind_eq. unfold errorFromResponse. rewrite bind_eq, parseBody_state, Hpure.
    rewrite ret_eq, throw_eq. fold error.
    unfold bind, lift, throw. cbn [world fetched].
    destruct (didEncounterError this error w) as [[thrown | []] w']; reflexivity. }
  split; [exact Hsend |].
  intros Hdefault. rewrite Hsend, Hdefault. reflexivity.
Qed.



End DataSourceProperties.

Section DataSourceSamples.
Import RemoteDataSource SampleDataSource.

#[local] Existing Instances sampleEnv sampleCodec.

(** The empty query is no query. *)
Lemma request_without_query_is_not_sent_witness :
  process (sampleSource false sampleFetcher) (sampleRequest (Some "")) start
  = (inl (Error "Missing query"), start) /\
  fetched start = fetched start.
Proof.
  exact (request_without_query_is_not_sent (C := sampleCodec)
           (sampleSource false sampleFetcher) (sampleRequest (Some "")) start
           _ _ eq_refl eq_refl).
Defined.

Lemma without_apq_one_request_is_sent_witness :
  fetched (process (sampleSource false sampleFetcher) (sampleRequest (Some "{ me }"))
             start).2
  = [ {| fc_url := "https://accounts.example/graphql"; fc_method := "POST";
         fc_headers := [("Content-Type", "application/json")];
         fc_body := Some "query: { me }" |} ].
Proof.
  destruct (without_apq_one_request_is_sent (C := sampleCodec)
              (sampleSource false sampleFetcher) (sampleRequest (Some "{ me }")) start
              _ _ _ eq_refl eq_refl eq_refl eq_refl) as [Hsent Hcall].
  rewrite Hsent, (Hcall eq_refl). reflexivity.
Defined.

Lemma apq_first_request_carries_no_body_witness :
  exists calls,
    fetched (process (sampleSource true sampleFetcher) (sampleRequest (Some "{ me }"))
               start).2 = calls /\
    length calls <= 2 /\
    forall first, head calls = Some first ->
      fc_method first = "GET" /\ fc_body first = None.
Proof.
  destruct (apq_first_request_carries_no_body (C := sampleCodec)
              (sampleSource true sampleFetcher) (sampleRequest (Some "{ me }")) start
              eq_refl) as (calls & Hcalls & Hlength & Hfirst & _).
  exists calls. auto.
Defined.

(** The sample service knows no persisted query, so the query follows. *)
Lemma apq_query_is_sent_on_retry_only_witness :
  fetched (process (sampleSource true sampleFetcher) (sampleRequest (Some "{ me }"))
             start).2
  = [ {| fc_url := "https://accounts.example/graphql"; fc_method := "GET";
         fc_headers := [("Content-Type", "application/json")];
         fc_body := None |};
      {| fc_url := "https://accounts.example/graphql"; fc_method := "POST";
         fc_headers := [("Content-Type", "application/json")];
         fc_body := Some "query: { me }, hash: sha256 of { me }" |} ].
Proof.
  pose proof (apq_query_is_sent_on_retry_only (C := sampleCodec)
                (sampleSource true sampleFetcher) (sampleRequest (Some "{ me }")) start
                _ _ _ eq_refl eq_refl eq_refl eq_refl eq_refl) as Hsent.
  cbv zeta in Hsent. rewrite Hsent. reflexivity.
Defined.

Lemma failed_response_becomes_error_witness :
  (sendRequest (sampleSource false unauthorizedFetcher)
     (prepare (sampleSource false unauthorizedFetcher) (sampleRequest (Some "{ me }")))
     start).1
  = inl (ApolloError AuthenticationErrorClass "401: Unauthorized"
           {| er_url := "https://accounts.example/graphql"; er_status := 401;
              er_statusText := "Unauthorized";
              er_body := ObjectBody {| ro_errors := None; ro_data := None |} |}).
Proof.
  pose proof (failed_response_becomes_error (C := sampleCodec)
                (sampleSource false unauthorizedFetcher)
                (prepare (sampleSource false unauthorizedFetcher)
                   (sampleRequest (Some "{ me }")))
                start _ _ _ _ eq_refl eq_refl eq_refl eq_refl) as Hthrown.
  cbv zeta in Hthrown. destruct Hthrown as [_ Hthrown].
  rewrite (Hthrown eq_refl). reflexivity.
Defined.


End DataSourceSamples.
